(** * Extension management service: a shallow embedding

    This development embeds
    [src/vs/platform/extensionManagement/node/extensionManagementService.ts]
    and states its lifecycle properties: the obsolete index, the scanner,
    the install and uninstall orchestrators and the error aggregation.

    Conventions of the embedding.

    - A promise is a computation over the [World] (disk and emitted
      events) that settles as [Resolved] or [Rejected]; [.then(ok, err)]
      is [bind]/[catch].
    - A text file that the service feeds to [JSON.parse] is kept as a
      [text T]: either a text on which [JSON.parse] throws, or the
      serialisation of a value of the TypeScript type [T] the code
      declares for it.
    - Objects compared by reference ([===], [indexOf]) carry their
      identity in a field [oid].
    - A [TPromise.join] runs its members in index order, each to
      completion; the interleaving of accesses to the obsolete index is
      studied separately in [Module Serial]. *)

From stdpp Require Import gmap strings list fin_maps.

Set Warnings "-register-all".
Open Scope string_scope.
Open Scope list_scope.

(** ** JavaScript values that travel as rejection reasons *)

(** [Error] objects: [name] is ["Error"] for [new Error(..)], another
    string for structured errors such as the cancellation error. *)
Record Error := { err_name : string; message : string }.

#[global] Instance Error_eq_dec : EqDecision Error.
Proof. solve_decision. Defined.

(** [new Error(msg)] *)
Definition new_Error (msg : string) : Error :=
  {| err_name := "Error"; message := msg |}.

(** What a promise can be rejected with in this service: an [Error], a
    string, or the array of reasons of a [TPromise.join]. *)
Inductive Value :=
| VError (e : Error)
| VString (s : string)
| VArray (l : list Value).

(** JavaScript truthiness of a string: [""] is falsy. *)
Definition truthy (s : string) : bool :=
  match s with "" => false | _ => true end.

(** [Error.prototype.toString]. *)
Definition Error_toString (e : Error) : string :=
  if truthy (err_name e)
  then if truthy (message e) then err_name e +:+ ": " +:+ message e
       else err_name e
  else message e.

(** [String(v)], as a template literal computes it. *)
Fixpoint toString (v : Value) : string :=
  match v with
  | VError e => Error_toString e
  | VString s => s
  | VArray l => String.concat "," (map toString l)
  end.

(** The elements [joinErrors] is declared for: [(Error | string)]. *)
Definition of_sum (x : Error + string) : Value :=
  match x with inl e => VError e | inr s => VString s end.

(** The message an element contributes:
    [currentValue instanceof Error ? currentValue.message : currentValue]. *)
Definition message_of (v : Value) : string :=
  match v with VError e => message e | _ => toString v end.

(** The callback of the reduction in [joinErrors] (lines 279-281). *)
Definition join_step (previousValue : Error) (currentValue : Value) : Error :=
  new_Error (message previousValue
             +:+ (if truthy (message previousValue) then "," else "")
             +:+ message_of currentValue).

(** [joinErrors] (lines 274-282). *)
Definition joinErrors (errors : list Value) : Error :=
  match errors with
  | [e] => match e with VError err => err | _ => new_Error (toString e) end
  | _ => fold_left join_step errors (new_Error "")
  end.

(** Messages at the front of the list that are empty: the reduction
    leaves the accumulator empty on them. *)
Fixpoint skip_empty (l : list string) : list string :=
  match l with
  | s :: l' => if truthy s then l else skip_empty l'
  | [] => []
  end.

(** ** Promises over the world *)

(** How a promise settles. *)
Inductive Outcome (A : Type) :=
| Resolved (a : A)
| Rejected (reason : Value).
Arguments Resolved {A} a.
Arguments Rejected {A} reason.

(** ** JSON texts *)

(** The content of a text file, seen through [JSON.parse] at the type
    [T] the code declares for the parsed value. *)
Inductive text (T : Type) :=
| Malformed (chars : string)      (* [JSON.parse] throws a SyntaxError *)
| Stringified (v : T).            (* the serialisation of [v] *)
Arguments Malformed {T} chars.
Arguments Stringified {T} v.

(** [JSON.parse(raw)]; [None] stands for the thrown SyntaxError. *)
Definition JSON_parse {T} (raw : text T) : option T :=
  match raw with Malformed _ => None | Stringified v => Some v end.

(** [JSON.stringify(v)] *)
Definition JSON_stringify {T} (v : T) : text T := Stringified v.

(** The literal ['{}']. *)
Definition empty_object_text {T} `{Empty T} : text T := Stringified ∅.

(** Error codes of [pfs.readFile] the service distinguishes. *)
Inductive errno := ENOENT | EACCES.

(** A file on disk. *)
Inductive file (T : Type) :=
| NoFile
| Unreadable
| Stored (raw : text T).
Arguments NoFile {T}.
Arguments Unreadable {T}.
Arguments Stored {T} raw.

(** [pfs.readFile(path, 'utf8')] *)
Definition pfs_readFile {T} (f : file T) : errno + text T :=
  match f with
  | NoFile => inl ENOENT
  | Unreadable => inl EACCES
  | Stored raw => inr raw
  end.

(** The [Error] object node rejects a failed read with. *)
Definition fs_error (code : errno) : Value :=
  VError (new_Error match code with ENOENT => "ENOENT" | EACCES => "EACCES" end).

(** ** Data model (common/extensionManagement.ts) *)

Record IGalleryMetadata := {
  md_id : string;
  md_publisherId : string;
  md_publisherDisplayName : string;
}.

Record IExtensionManifest := {
  name : string;
  publisher : string;
  version : string;
  displayName : option string;
  extensionDependencies : option (list string);
}.

Inductive LocalExtensionType := System | User.

(** [oid] is the identity of the JavaScript object. *)
Record ILocalExtension := {
  oid : nat;
  type : LocalExtensionType;
  id : string;
  manifest : IExtensionManifest;
  metadata : option IGalleryMetadata;
  path : string;
}.

Record IGalleryExtension := {
  g_uuid : string;
  g_id : string;
  g_version : string;
  g_publisherId : string;
  g_publisherDisplayName : string;
}.

Inductive ErrorCode := OBSOLETE | GALLERY | LOCAL.

(** [InstallableExtension] (lines 72-76). *)
Record InstallableExtension := {
  zipPath : string;
  inst_id : string;
  inst_metadata : option IGalleryMetadata;
}.

#[global] Instance IGalleryMetadata_eq_dec : EqDecision IGalleryMetadata.
Proof. solve_decision. Defined.
#[global] Instance IExtensionManifest_eq_dec : EqDecision IExtensionManifest.
Proof. solve_decision. Defined.
#[global] Instance LocalExtensionType_eq_dec : EqDecision LocalExtensionType.
Proof. solve_decision. Defined.
#[global] Instance ILocalExtension_eq_dec : EqDecision ILocalExtension.
Proof. solve_decision. Defined.

(** The document stored in [package.json]: the manifest and the reserved
    [__metadata] member. *)
Record PackageJson := {
  pj_manifest : IExtensionManifest;
  __metadata : option IGalleryMetadata;
}.

(** Translations of [package.nls.json]. *)
Abbreviation ITranslations := (gmap string string).

(** The obsolete index [{ [id: string]: boolean }]. *)
Abbreviation Obsolete := (gmap string bool).

(** An extension directory, or the [extension/] folder of a package. *)
Record ExtDir := {
  packageJson : file PackageJson;
  packageNls : file ITranslations;
}.

(** A [.vsix] archive. *)
Record Vsix := {
  extractable : bool;
  content : ExtDir;
}.

(** ** Observable effects *)

Inductive Source :=
| FromZip (zipPath : string)
| FromGallery (gallery : IGalleryExtension).

Inductive InstallResult :=
| ResLocal (local : option ILocalExtension)
| ResError (error : Value)
| ResCode (error : ErrorCode).

Inductive Effect :=
| onInstallExtension (id : string) (source : Source)
| onDidInstallExtension (id : string) (source : Source) (result : InstallResult)
| onUninstallExtension (id : string)
| onDidUninstallExtension (id : string) (error : option ErrorCode)
| reportStatistic (publisher name version : string)
| fs_writeFile (path : string)
| fs_rimraf (path : string)
| fs_extract (zipPath path : string).


(** ** The world *)

(** [environmentService.extensionsPath] and the module constant
    [SystemExtensionsRoot] (line 34), which depends on where the
    application is installed. *)
Record Env := {
  extensionsPath : string;
  SystemExtensionsRoot : string;
}.

Record World := {
  env : Env;
  obsoleteFile : file Obsolete;            (* <extensionsPath>/.obsolete *)
  userExtensions : gmap string ExtDir;     (* directories of extensionsPath *)
  systemExtensions : gmap string ExtDir;   (* directories of SystemExtensionsRoot *)
  packages : gmap string Vsix;             (* archives, by path *)
  nextOid : nat;                           (* allocator of object identities *)
  trace : list Effect;                     (* effects so far, oldest first *)
}.

Definition M (A : Type) : Type := World → Outcome A * World.

(** [TPromise.as] *)
Definition ret {A} (a : A) : M A := fun w => (Resolved a, w).

(** [TPromise.wrapError] *)
Definition wrapError {A} (reason : Value) : M A := fun w => (Rejected reason, w).

(** [p.then(onResolved)] *)
Definition bind {A B} (p : M A) (k : A → M B) : M B :=
  fun w => match p w with
           | (Resolved a, w') => k a w'
           | (Rejected r, w') => (Rejected r, w')
           end.

(** [p.then(onResolved, onRejected)]: [onRejected] sees the rejections
    of [p] only. *)
Definition then2 {A B} (p : M A) (k : A → M B) (h : Value → M B) : M B :=
  fun w => match p w with
           | (Resolved a, w') => k a w'
           | (Rejected r, w') => h r w'
           end.

(** [p.then(null, onRejected)] *)
Definition catch {A} (p : M A) (h : Value → M A) : M A := then2 p ret h.

Notation "'let!' x ':=' p 'in' k" := (bind p (fun x => k))
  (at level 10, x pattern, p at level 100, k at level 200).
Notation "p ';;' k" := (bind p (fun _ => k))
  (at level 100, k at level 200, right associativity).

Definition get : M World := fun w => (Resolved w, w).

Definition set_trace (t : list Effect) (w : World) : World :=
  {| env := env w; obsoleteFile := obsoleteFile w;
     userExtensions := userExtensions w; systemExtensions := systemExtensions w;
     packages := packages w; nextOid := nextOid w; trace := t |}.

Definition set_obsoleteFile (f : file Obsolete) (w : World) : World :=
  {| env := env w; obsoleteFile := f;
     userExtensions := userExtensions w; systemExtensions := systemExtensions w;
     packages := packages w; nextOid := nextOid w; trace := trace w |}.

Definition set_userExtensions (u : gmap string ExtDir) (w : World) : World :=
  {| env := env w; obsoleteFile := obsoleteFile w;
     userExtensions := u; systemExtensions := systemExtensions w;
     packages := packages w; nextOid := nextOid w; trace := trace w |}.

Definition set_nextOid (n : nat) (w : World) : World :=
  {| env := env w; obsoleteFile := obsoleteFile w;
     userExtensions := userExtensions w; systemExtensions := systemExtensions w;
     packages := packages w; nextOid := n; trace := trace w |}.

(** Records an effect. *)
Definition emit (e : Effect) : M unit :=
  fun w => (Resolved tt, set_trace (trace w ++ [e]) w).

(** A fresh object identity. *)
Definition alloc : M nat :=
  fun w => (Resolved (nextOid w), set_nextOid (S (nextOid w)) w).

(** [path.join] on normalised POSIX paths. *)
Definition path_join (a b : string) : string := a +:+ "/" +:+ b.

Definition obsoletePath (w : World) : string :=
  path_join (extensionsPath (env w)) ".obsolete".

(** The root directory scanned for a type of extension. *)
Definition root_of (t : LocalExtensionType) (w : World) : string :=
  match t with
  | System => SystemExtensionsRoot (env w)
  | User => extensionsPath (env w)
  end.

Definition dirs_of (t : LocalExtensionType) (w : World) : gmap string ExtDir :=
  match t with
  | System => systemExtensions w
  | User => userExtensions w
  end.

(** [TPromise.join]: every member runs to completion, in index order. *)
Fixpoint settle_all {A} (ps : list (M A)) : M (list (Outcome A)) :=
  match ps with
  | [] => ret []
  | p :: ps' =>
      fun w => let '(o, w') := p w in
               match settle_all ps' w' with
               | (Resolved os, w'') => (Resolved (o :: os), w'')
               | (Rejected r, w'') => (Rejected r, w'')
               end
  end.

Definition resolved_of {A} (os : list (Outcome A)) : list A :=
  flat_map (fun o => match o with Resolved a => [a] | Rejected _ => [] end) os.

Definition rejected_of {A} (os : list (Outcome A)) : list Value :=
  flat_map (fun o => match o with Resolved _ => [] | Rejected r => [r] end) os.

(** Modelled from the spec: [TPromise.join] of vs/base/common/winjs.base
    is not part of the sources at hand.  The aggregate completes only when
    every member has completed, successfully or not; it resolves with the
    members' values, or is rejected with the array of the members'
    errors. *)
Definition join {A} (ps : list (M A)) : M (list A) :=
  let! os := settle_all ps in
  match rejected_of os with
  | [] => ret (resolved_of os)
  | errors => wrapError (VArray errors)
  end.

(** ** Collaborators that are injected or imported *)

(** vs/platform/extensionManagement/common/extensionManagementUtil *)
Class ExtensionManagementUtil := {
  getLocalExtensionIdFromGallery : IGalleryExtension → string → string;
  getLocalExtensionIdFromManifest : IExtensionManifest → string;
  getGalleryExtensionIdFromLocal : ILocalExtension → string;
  adoptToGalleryExtensionId : string → string;
}.

(** ../common/extensionNls *)
Class ExtensionNls := {
  localizeManifest : IExtensionManifest → ITranslations → IExtensionManifest;
}.

(** The [semver] package: [rcompare a b] orders the higher version
    first; [None] stands for the TypeError thrown on an invalid version. *)
Class SemVer := {
  rcompare : string → string → option comparison;
}.

(** [IExtensionGalleryService]: the answers of the registry. *)
Class IExtensionGalleryService := {
  loadCompatibleVersion : IGalleryExtension → Outcome IGalleryExtension;
  getAllDependencies : IGalleryExtension → Outcome (list IGalleryExtension);
  download : IGalleryExtension → Outcome string;
}.

(** A settled answer as a promise. *)
Definition settled {A} (o : Outcome A) : M A := fun w => (o, w).

(** ** The obsolete index (lines 528-573) *)

(** [Object.keys(obsolete)] *)
Definition Object_keys (obsolete : Obsolete) : list string :=
  (map_to_list obsolete).*1.

(** [!!obsolete[id]] *)
Definition marked (obsolete : Obsolete) (id : string) : bool :=
  match obsolete !! id with Some b => b | None => false end.

(** First half of an access: the read, where a missing file reads as
    ['{}'] and any other failure is passed on. *)
Definition read_raw (f : file Obsolete) : Outcome (text Obsolete) :=
  match pfs_readFile f with
  | inr raw => Resolved raw
  | inl ENOENT => Resolved empty_object_text
  | inl code => Rejected (fs_error code)
  end.

(** [try { return JSON.parse(raw); } catch (e) { return {}; }] *)
Definition parse_or_empty (raw : text Obsolete) : Obsolete :=
  match JSON_parse raw with Some obsolete => obsolete | None => ∅ end.

(** Second half of an access: what is done to the file for the mapping
    left by [fn]. *)
Definition persist (obsolete : Obsolete) : file Obsolete :=
  if Nat.eqb (length (Object_keys obsolete)) 0
  then NoFile
  else Stored (JSON_stringify obsolete).

Definition persist_effect (path : string) (obsolete : Obsolete) : Effect :=
  if Nat.eqb (length (Object_keys obsolete)) 0
  then fs_rimraf path
  else fs_writeFile path.

(** [withObsoleteExtensions] (lines 556-573).  [fn] may mutate the
    object it is given: it returns its result and the object as it left
    it.  The queueing on [obsoleteFileLimiter] is the subject of
    [Module Serial]. *)
Definition withObsoleteExtensions {T} (fn : Obsolete → T * Obsolete) : M T :=
  let! raw := (fun w => (read_raw (obsoleteFile w), w)) in
  let! obsolete := ret (parse_or_empty raw) in
  let '(result, obsolete) := fn obsolete in
  (fun w => (Resolved tt,
             set_obsoleteFile (persist obsolete)
               (set_trace (trace w ++ [persist_effect (obsoletePath w) obsolete]) w)));;
  ret result.

(** [filterObsolete] (lines 532-542) *)
Definition filterObsolete (ids : list string) : M (list string) :=
  withObsoleteExtensions (fun allObsolete =>
    (List.filter (fun id => marked allObsolete id) ids, allObsolete)).

(** [isObsolete] (lines 528-530) *)
Definition isObsolete (id : string) : M bool :=
  let! obsolete := filterObsolete [id] in
  ret (Nat.eqb (length obsolete) 1).

(** [obsolete => assign(obsolete, { [id]: true })] *)
Definition assign_true (id : string) (obsolete : Obsolete) : unit * Obsolete :=
  (tt, <[id := true]> obsolete).

(** [obsolete => delete obsolete[id]] *)
Definition delete_entry (id : string) (obsolete : Obsolete) : unit * Obsolete :=
  (tt, delete id obsolete).

(** [setObsolete] (lines 544-546) *)
Definition setObsolete (id : string) : M unit :=
  withObsoleteExtensions (assign_true id).

(** [unsetObsolete] (lines 548-550) *)
Definition unsetObsolete (id : string) : M unit :=
  withObsoleteExtensions (delete_entry id).

(** [getObsoleteExtensions] (lines 552-554) *)
Definition getObsoleteExtensions : M Obsolete :=
  withObsoleteExtensions (fun obsolete => (obsolete, obsolete)).

(** ** Manifest reader (lines 36-70) *)

(** [parseManifest] (lines 36-47) *)
Definition parseManifest (raw : text PackageJson)
  : M (IExtensionManifest * option IGalleryMetadata) :=
  match JSON_parse raw with
  | Some manifest => ret (pj_manifest manifest, __metadata manifest)
  | None =>
      wrapError (VError (new_Error "Extension invalid: package.json is not a JSON file."))
  end.

(** [buffer(zipPath, 'extension/package.json')] of vs/base/node/zip *)
Definition zip_buffer (zipPath : string) : M (text PackageJson) :=
  fun w =>
    match packages w !! zipPath with
    | Some zip =>
        match pfs_readFile (packageJson (content zip)) with
        | inr raw => (Resolved raw, w)
        | inl code => (Rejected (fs_error code), w)
        end
    | None => (Rejected (fs_error ENOENT), w)
    end.

(** [validate] (lines 49-53) *)
Definition validate (zipPath : string) : M IExtensionManifest :=
  let! buffer := zip_buffer zipPath in
  let! (manifest, _) := parseManifest buffer in
  ret manifest.

(** [pfs.readFile] of a file of an extension directory. *)
Definition readFile_in {T} (t : LocalExtensionType) (id : string)
    (member : ExtDir → file T) : M (text T) :=
  fun w =>
    match dirs_of t w !! id with
    | Some dir =>
        match pfs_readFile (member dir) with
        | inr raw => (Resolved raw, w)
        | inl code => (Rejected (fs_error code), w)
        end
    | None => (Rejected (fs_error ENOENT), w)
    end.

(** The SyntaxError of [JSON.parse]. *)
Definition SyntaxError : Value :=
  VError {| err_name := "SyntaxError"; message := "Unexpected token" |}.

(** [readManifest] (lines 55-70); the directory is [path.join(root, id)]. *)
Definition readManifest `{ExtensionNls} (t : LocalExtensionType) (id : string)
  : M (IExtensionManifest * option IGalleryMetadata) :=
  fun w =>
    let '(first, w1) :=
      (let! raw := readFile_in t id packageJson in parseManifest raw) w in
    let '(second, w2) :=
      (let! raw :=
         (fun w => match dirs_of t w !! id with
                   | Some dir =>
                       match pfs_readFile (packageNls dir) with
                       | inr raw => (Resolved raw, w)
                       | inl ENOENT => (Resolved empty_object_text, w)
                       | inl code => (Rejected (fs_error code), w)
                       end
                   | None => (Resolved empty_object_text, w)
                   end) in
       match JSON_parse raw with
       | Some translations => ret translations
       | None => wrapError SyntaxError
       end) w1 in
    match first, second with
    | Resolved (manifest, metadata), Resolved translations =>
        (Resolved (localizeManifest manifest translations, metadata), w2)
    | Rejected e1, Resolved _ => (Rejected (VArray [e1]), w2)
    | Resolved _, Rejected e2 => (Rejected (VArray [e2]), w2)
    | Rejected e1, Rejected e2 => (Rejected (VArray [e1; e2]), w2)
    end.

(** ** Install orchestrator (lines 109-259) *)

(** [pfs.rimraf] of an extension directory of the user root. *)
Definition rimraf_extension (id : string) : M unit :=
  fun w =>
    (Resolved tt,
     set_userExtensions (delete id (userExtensions w))
       (set_trace (trace w ++ [fs_rimraf (path_join (extensionsPath (env w)) id)]) w)).

(** [extract(zipPath, extensionPath, { sourcePath: 'extension', overwrite: true })] *)
Definition extract (zipPath : string) (id : string) : M unit :=
  fun w =>
    let w' :=
      set_trace (trace w ++ [fs_extract zipPath (path_join (extensionsPath (env w)) id)]) w in
    match packages w !! zipPath with
    | Some zip =>
        if extractable zip
        then (Resolved tt, set_userExtensions (<[id := content zip]> (userExtensions w')) w')
        else (Rejected (VError (new_Error "extract")), w')
    | None => (Rejected (fs_error ENOENT), w')
    end.

(** [pfs.readdir(extensionPath)]: fails when the directory is missing. *)
Definition readdir_extension (t : LocalExtensionType) (id : string) : M unit :=
  fun w =>
    match dirs_of t w !! id with
    | Some _ => (Resolved tt, w)
    | None => (Rejected (fs_error ENOENT), w)
    end.

(** [pfs.writeFile(manifestPath, raw)] in the user root. *)
Definition writeFile_manifest (id : string) (raw : text PackageJson) : M unit :=
  fun w =>
    let w' :=
      set_trace
        (trace w ++ [fs_writeFile (path_join (path_join (extensionsPath (env w)) id)
                                     "package.json")]) w in
    match userExtensions w !! id with
    | Some dir =>
        (Resolved tt,
         set_userExtensions
           (<[id := {| packageJson := Stored raw; packageNls := packageNls dir |}]>
              (userExtensions w')) w')
    | None => (Rejected (fs_error ENOENT), w')
    end.

(** [installExtension] (lines 234-259) *)
Definition installExtension `{ExtensionNls} (x : InstallableExtension)
  : M ILocalExtension :=
  let id := inst_id x in
  let metadata := inst_metadata x in
  let! w0 := get in
  let extensionPath := path_join (extensionsPath (env w0)) id in
  rimraf_extension id;;
  extract (zipPath x) id;;
  let! (manifest, _) := readManifest User id in
  readdir_extension User id;;
  let! o := alloc in
  let local :=
    {| oid := o; type := User; id := id; manifest := manifest;
       metadata := metadata; path := extensionPath |} in
  let! raw := readFile_in User id packageJson in
  let! (manifest', _) := parseManifest raw in
  let manifest' := {| pj_manifest := manifest'; __metadata := metadata |} in
  writeFile_manifest id (JSON_stringify manifest');;
  ret local.

(** [manifest.displayName || manifest.name] *)
Definition displayName_or_name (m : IExtensionManifest) : string :=
  match displayName m with
  | Some d => if truthy d then d else name m
  | None => name m
  end.

(** [install] (lines 109-129) *)
Definition install `{ExtensionManagementUtil} `{ExtensionNls} (zipPath : string)
  : M unit :=
  let! manifest := validate zipPath in
  let id := getLocalExtensionIdFromManifest manifest in
  let! obsolete := isObsolete id in
  if obsolete : bool
  then wrapError (VError (new_Error ("Please restart Code before reinstalling "
                                     +:+ displayName_or_name manifest +:+ ".")))
  else
    emit (onInstallExtension id (FromZip zipPath));;
    then2 (installExtension {| zipPath := zipPath; inst_id := id; inst_metadata := None |})
      (fun local => emit (onDidInstallExtension id (FromZip zipPath) (ResLocal (Some local))))
      (fun error =>
         emit (onDidInstallExtension id (FromZip zipPath) (ResError error));;
         wrapError error).

(** ** Extension scanner (lines 432-487) *)

(** [scanExtensionFolders] (lines 484-487) *)
Definition scanExtensionFolders (t : LocalExtensionType) : M (list string) :=
  let! obsolete := getObsoleteExtensions in
  let! w := get in
  let extensions := (map_to_list (dirs_of t w)).*1 in
  ret (List.filter (fun id => negb (marked obsolete id)) extensions).

(** The body [each] of [scanExtensions] (lines 464-477): a failed read
    gives [null]. *)
Definition scan_each `{ExtensionManagementUtil} `{ExtensionNls}
    (t : LocalExtensionType) (id : string) : M (option ILocalExtension) :=
  catch
    (let! w := get in
     let extensionPath := path_join (root_of t w) id in
     readdir_extension t id;;
     let! (manifest, metadata) := readManifest t id in
     let manifest :=
       match extensionDependencies manifest with
       | Some deps =>
           {| name := name manifest; publisher := publisher manifest;
              version := version manifest; displayName := displayName manifest;
              extensionDependencies := Some (map adoptToGalleryExtensionId deps) |}
       | None => manifest
       end in
     let! o := alloc in
     ret (Some {| oid := o; type := t; id := id; manifest := manifest;
                  metadata := metadata; path := extensionPath |}))
    (fun _ => ret None).

(** [scanExtensions] (lines 457-482) *)
Definition scanExtensions `{ExtensionManagementUtil} `{ExtensionNls}
    (t : LocalExtensionType) : M (list ILocalExtension) :=
  let! extensionIds := scanExtensionFolders t in
  let! result := join (map (scan_each t) extensionIds) in
  ret (flat_map (fun a => match a with Some e => [e] | None => [] end) result).

(** Modelled from the spec: [groupBy] and [values] of
    vs/base/common/collections are not part of the sources at hand.
    The records are grouped by key; the groups come in the order in which
    their keys first occur, and a group keeps the order of the input. *)
Fixpoint group_insert {T} (key : string) (element : T)
    (groups : list (string * list T)) : list (string * list T) :=
  match groups with
  | [] => [(key, [element])]
  | (k, target) :: rest =>
      if String.eqb k key then (k, target ++ [element]) :: rest
      else (k, target) :: group_insert key element rest
  end.

Definition groupBy {T} (data : list T) (groupFn : T → string)
  : list (string * list T) :=
  fold_left (fun result element => group_insert (groupFn element) element result)
    data [].

Definition values {T} (from : list (string * list T)) : list (list T) := from.*2.

(** [Array.prototype.sort] with a comparator that may throw: an
    insertion sort, which is stable.  Every element of an array of two
    or more is compared at least once. *)
Fixpoint sort_insert {T} (cmp : T → T → option comparison) (x : T) (l : list T)
  : option (list T) :=
  match l with
  | [] => Some [x]
  | y :: l' =>
      match cmp x y with
      | Some Gt => match sort_insert cmp x l' with
                   | Some r => Some (y :: r)
                   | None => None
                   end
      | Some _ => Some (x :: l)
      | None => None
      end
  end.

Fixpoint sort {T} (cmp : T → T → option comparison) (l : list T) : option (list T) :=
  match l with
  | [] => Some []
  | x :: l' => match sort cmp l' with
               | Some r => sort_insert cmp x r
               | None => None
               end
  end.

(** The TypeError of [semver] on an invalid version. *)
Definition InvalidVersion : Value :=
  VError {| err_name := "TypeError"; message := "Invalid Version" |}.

(** [p.sort((a, b) => semver.rcompare(a.manifest.version, b.manifest.version))[0]]
    for every group [p]. *)
Fixpoint highest_of_each `{SemVer} (byId : list (list ILocalExtension))
  : option (list ILocalExtension) :=
  match byId with
  | [] => Some []
  | p :: rest =>
      match sort (fun a b => rcompare (version (manifest a)) (version (manifest b))) p,
            highest_of_each rest with
      | Some sorted, Some r => Some (take 1 sorted ++ r)
      | _, _ => None
      end
  end.

(** [scanUserExtensions] (lines 450-455) *)
Definition scanUserExtensions `{ExtensionManagementUtil} `{ExtensionNls} `{SemVer}
  : M (list ILocalExtension) :=
  let! extensions := scanExtensions User in
  let byId := values (groupBy extensions getGalleryExtensionIdFromLocal) in
  match highest_of_each byId with
  | Some r => ret r
  | None => wrapError InvalidVersion
  end.

(** [scanSystemExtensions] (lines 446-448) *)
Definition scanSystemExtensions `{ExtensionManagementUtil} `{ExtensionNls}
  : M (list ILocalExtension) :=
  scanExtensions System.

(** [getInstalled] (lines 432-444) *)
Definition getInstalled `{ExtensionManagementUtil} `{ExtensionNls} `{SemVer}
    (type : option LocalExtensionType) : M (list ILocalExtension) :=
  let promises :=
    (match type with
     | None | Some System => [scanSystemExtensions]
     | _ => []
     end)
    ++ (match type with
        | None | Some User => [scanUserExtensions]
        | _ => []
        end) in
  let! r := join promises in
  ret (concat r).

(** ** Install from the registry (lines 131-232) *)

(** The identifier the batch member will have on disk. *)
Definition local_id_of `{ExtensionManagementUtil} (extension : IGalleryExtension) : string :=
  getLocalExtensionIdFromGallery extension (g_version extension).

(** [onInstallExtensions] (lines 192-197) *)
Fixpoint onInstallExtensions `{ExtensionManagementUtil}
    (extensions : list IGalleryExtension) : M unit :=
  match extensions with
  | [] => ret tt
  | extension :: rest =>
      emit (onInstallExtension (local_id_of extension) (FromGallery extension));;
      onInstallExtensions rest
  end.

(** A rejection reason is truthy unless it is the empty string. *)
Definition Value_truthy (v : Value) : bool :=
  match v with VString s => truthy s | _ => true end.

(** The [forEach] of [onDidInstallExtensions]; [index] is the position
    of the head of [extensions] in the batch.  Reading [local[index]]
    when [local] is [null] throws. *)
Fixpoint fire_onDidInstall `{ExtensionManagementUtil}
    (extensions : list IGalleryExtension) (index : nat)
    (local : option (list ILocalExtension)) (errorCode : option ErrorCode) : M unit :=
  match extensions with
  | [] => ret tt
  | gallery :: rest =>
      let id := local_id_of gallery in
      match errorCode, local with
      | Some code, _ =>
          emit (onDidInstallExtension id (FromGallery gallery) (ResCode code));;
          fire_onDidInstall rest (S index) local errorCode
      | None, Some l =>
          emit (onDidInstallExtension id (FromGallery gallery) (ResLocal (l !! index)));;
          fire_onDidInstall rest (S index) local errorCode
      | None, None =>
          wrapError (VError {| err_name := "TypeError";
                               message := "Cannot read property of null" |})
      end
  end.

(** [onDidInstallExtensions] (lines 199-209).  Every [ErrorCode] is
    taken to be truthy. *)
Definition onDidInstallExtensions `{ExtensionManagementUtil} {A}
    (extensions : list IGalleryExtension) (local : option (list ILocalExtension))
    (errorCode : option ErrorCode) (error : option Value) : M (option A) :=
  fire_onDidInstall extensions 0 local errorCode;;
  match error with
  | Some e =>
      if Value_truthy e
      then wrapError (match e with
                      | VArray errors => VError (joinErrors errors)
                      | _ => e
                      end)
      else ret None
  | None => ret None
  end.

(** [filterDependenciesToInstall] (lines 211-222), on the installed set
    that [getInstalled] gave. *)
Definition dependenciesToInstall `{ExtensionManagementUtil}
    (extension : IGalleryExtension) (dependencies : list IGalleryExtension)
    (local : list ILocalExtension) : list IGalleryExtension :=
  List.filter
    (fun d =>
       if String.eqb (g_uuid extension) (g_uuid d) then false
       else
         let extensionId := getLocalExtensionIdFromGallery d (g_version d) in
         forallb (fun local => negb (String.eqb (id local) extensionId)) local)
    dependencies.

Definition filterDependenciesToInstall
    `{ExtensionManagementUtil} `{ExtensionNls} `{SemVer}
    (extension : IGalleryExtension) (dependencies : list IGalleryExtension)
  : M (list IGalleryExtension) :=
  let! local := getInstalled None in
  ret (dependenciesToInstall extension dependencies local).

(** [collectExtensionsToInstall] (lines 163-168) *)
Definition collectExtensionsToInstall
    `{ExtensionManagementUtil} `{ExtensionNls} `{SemVer} `{IExtensionGalleryService}
    (extension : IGalleryExtension) : M (list IGalleryExtension) :=
  let! extensionToInstall := settled (loadCompatibleVersion extension) in
  let! allDependencies := settled (getAllDependencies extension) in
  let! dependenciesToInstall := filterDependenciesToInstall extension allDependencies in
  ret (extensionToInstall :: dependenciesToInstall).

(** [checkForObsolete] (lines 170-173) *)
Definition checkForObsolete `{ExtensionManagementUtil}
    (extensionsToInstall : list IGalleryExtension) : M (list IGalleryExtension) :=
  let! obsolete := filterObsolete (map local_id_of extensionsToInstall) in
  if Nat.eqb (length obsolete) 0
  then ret extensionsToInstall
  else wrapError (VError (new_Error "Please restart Code before reinstalling.")).

(** [downloadInstallableExtension] (lines 175-184) *)
Definition downloadInstallableExtension
    `{ExtensionManagementUtil} `{IExtensionGalleryService}
    (extension : IGalleryExtension) : M InstallableExtension :=
  let id := local_id_of extension in
  let metadata :=
    {| md_id := g_uuid extension; md_publisherId := g_publisherId extension;
       md_publisherDisplayName := g_publisherDisplayName extension |} in
  let! zipPath := settled (download extension) in
  validate zipPath;;
  ret {| zipPath := zipPath; inst_id := id; inst_metadata := Some metadata |}.

(** [uninstallExtension] (lines 417-422) *)
Definition uninstallExtension (id : string) : M unit :=
  setObsolete id;;
  rimraf_extension id;;
  unsetObsolete id.

(** [getGalleryExtensionForLocalExtension] (lines 229-232) *)
Definition getGalleryExtensionForLocalExtension `{ExtensionManagementUtil}
    (galleryExtensions : list IGalleryExtension) (localExtension : ILocalExtension)
  : option IGalleryExtension :=
  let filtered :=
    List.filter
      (fun galleryExtension => String.eqb (local_id_of galleryExtension) (id localExtension))
      galleryExtensions in
  head filtered.

(** [filterOutUninstalled] (lines 224-227) *)
Definition filterOutUninstalled `{ExtensionManagementUtil} `{ExtensionNls} `{SemVer}
    (extensions : list IGalleryExtension) : M (list ILocalExtension) :=
  let! installed := getInstalled None in
  ret (List.filter
         (fun local =>
            match getGalleryExtensionForLocalExtension extensions local with
            | Some _ => true
            | None => false
            end)
         installed).

(** [rollback] (lines 186-190) *)
Definition rollback `{ExtensionManagementUtil} `{ExtensionNls} `{SemVer}
    (extensions : list IGalleryExtension) : M unit :=
  then2
    (let! installed := filterOutUninstalled extensions in
     join (map (fun local => uninstallExtension (id local)) installed))
    (fun _ => ret tt)
    (fun _ => ret tt).

(** [downloadAndInstallExtensions] (lines 155-161) *)
Definition downloadAndInstallExtensions
    `{ExtensionManagementUtil} `{ExtensionNls} `{SemVer} `{IExtensionGalleryService}
    (extensions : list IGalleryExtension) : M (option (list ILocalExtension)) :=
  then2 (join (map downloadInstallableExtension extensions))
    (fun installableExtensions =>
       then2 (join (map installExtension installableExtensions))
         (fun local => ret (Some local))
         (fun error =>
            rollback extensions;;
            onDidInstallExtensions extensions None (Some LOCAL) (Some error)))
    (fun error => onDidInstallExtensions extensions None (Some GALLERY) (Some error)).

(** [prepareAndCollectExtensionsToInstall] (lines 137-153) *)
Definition prepareAndCollectExtensionsToInstall
    `{ExtensionManagementUtil} `{ExtensionNls} `{SemVer} `{IExtensionGalleryService}
    (extension : IGalleryExtension) : M (option (list IGalleryExtension)) :=
  onInstallExtensions [extension];;
  then2 (collectExtensionsToInstall extension)
    (fun extensionsToInstall =>
       then2 (checkForObsolete extensionsToInstall)
         (fun extensionsToInstall =>
            (if Nat.ltb 1 (length extensionsToInstall)
             then onInstallExtensions (drop 1 extensionsToInstall)
             else ret tt);;
            ret (Some extensionsToInstall))
         (fun error => onDidInstallExtensions [extension] None (Some OBSOLETE) (Some error)))
    (fun error => onDidInstallExtensions [extension] None (Some GALLERY) (Some error)).

(** [installFromGallery] (lines 131-135).  A [null] passed on by a
    handler makes the next step throw on its first property access. *)
Definition installFromGallery
    `{ExtensionManagementUtil} `{ExtensionNls} `{SemVer} `{IExtensionGalleryService}
    (extension : IGalleryExtension) : M (option unit) :=
  let! extensionsToInstall := prepareAndCollectExtensionsToInstall extension in
  match extensionsToInstall with
  | Some extensionsToInstall =>
      let! local := downloadAndInstallExtensions extensionsToInstall in
      onDidInstallExtensions extensionsToInstall local None None
  | None =>
      wrapError (VError {| err_name := "TypeError";
                           message := "Cannot read property of null" |})
  end.

(** ** Uninstall orchestrator (lines 345-430) *)

(** [a === b] on objects. *)
Definition same (a b : ILocalExtension) : bool := Nat.eqb (oid a) (oid b).

(** [array.indexOf(x)], by an equality test. *)
Fixpoint indexOf {A} (eqb : A → A → bool) (l : list A) (x : A) : Z :=
  match l with
  | [] => (-1)%Z
  | y :: l' =>
      if eqb y x then 0%Z
      else match indexOf eqb l' x with
           | Zneg _ => (-1)%Z
           | i => Z.succ i
           end
  end.

(** [getDependents] (lines 396-398) *)
Definition getDependents `{ExtensionManagementUtil}
    (extension : ILocalExtension) (installed : list ILocalExtension)
  : list ILocalExtension :=
  List.filter
    (fun e =>
       match extensionDependencies (manifest e) with
       | Some deps =>
           negb (Z.eqb (indexOf String.eqb deps (getGalleryExtensionIdFromLocal extension))
                   (-1))
       | None => false
       end)
    installed.

(** [array.splice(start, 1)]: the array after the call. *)
Definition splice1 {A} (start : Z) (l : list A) : list A :=
  let len := Z.of_nat (length l) in
  let actualStart :=
    if (start <? 0)%Z then Z.max (len + start) 0 else Z.min start len in
  take (Z.to_nat actualStart) l ++ drop (S (Z.to_nat actualStart)) l.

(** [filterDependents] (lines 383-394): the loop over [i], with
    [result] spliced in place. *)
Definition filterDependents `{ExtensionManagementUtil}
    (extension : ILocalExtension) (dependencies installed : list ILocalExtension)
  : list ILocalExtension :=
  let installed :=
    List.filter
      (fun i =>
         negb (same i extension)
         && match extensionDependencies (manifest i) with
            | Some deps => Nat.ltb 0 (length deps)
            | None => false
            end)
      installed in
  fold_left
    (fun result i =>
       match dependencies !! i with
       | Some dep =>
           let dependents :=
             List.filter (fun e => Z.eqb (indexOf same dependencies e) (-1))
               (getDependents dep installed) in
           if Nat.ltb 0 (length dependents)
           then splice1 (Z.of_nat i
                         - (Z.of_nat (length dependencies) - Z.of_nat (length result)))
                  result
           else result
       | None => result
       end)
    (seq 0 (length dependencies))
    dependencies.

(** [getDependentsErrorMessage] (lines 354-365); [nls.localize] fills
    the placeholders of the message. *)
Definition getDependentsErrorMessage
    (extension : ILocalExtension) (dependents : list ILocalExtension) : string :=
  let shown e := displayName_or_name (manifest e) in
  match dependents with
  | [d0] =>
      "Cannot uninstall extension '" +:+ shown extension +:+ "'. Extension '"
      +:+ shown d0 +:+ "' depends on this."
  | [d0; d1] =>
      "Cannot uninstall extension '" +:+ shown extension +:+ "'. Extensions '"
      +:+ shown d0 +:+ "' and '" +:+ shown d1 +:+ "' depend on this."
  | d0 :: d1 :: _ =>
      "Cannot uninstall extension '" +:+ shown extension +:+ "'. Extensions '"
      +:+ shown d0 +:+ "', '" +:+ shown d1 +:+ "' and others depend on this."
  | [] =>
      (* [dependents[0]] is undefined: not reached, the caller checks the length *)
      ""
  end.

(** [pfs.exists(extensionPath)] *)
Definition exists_extension (id : string) : M bool :=
  fun w => (Resolved (bool_decide (is_Some (userExtensions w !! id))), w).

(** [preUninstallExtension] (lines 410-415) *)
Definition preUninstallExtension (extension : ILocalExtension) : M unit :=
  let! exists_ := exists_extension (id extension) in
  (if exists_ : bool then ret tt
   else wrapError (VError (new_Error "Could not find extension")));;
  emit (onUninstallExtension (id extension)).

(** [postUninstallExtension] (lines 424-430) *)
Definition postUninstallExtension (extension : ILocalExtension)
    (error : option ErrorCode) : M unit :=
  (match error with
   | None =>
       emit (reportStatistic (publisher (manifest extension)) (name (manifest extension))
               (version (manifest extension)))
   | Some _ => ret tt
   end);;
  emit (onDidUninstallExtension (id extension) error).

(** [doUninstall] (lines 400-408) *)
Definition doUninstall (extension : ILocalExtension) : M unit :=
  then2 (preUninstallExtension extension;; uninstallExtension (id extension))
    (fun _ => postUninstallExtension extension None)
    (fun error =>
       (fun w => let '(_, w') := postUninstallExtension extension (Some LOCAL) w in
                 (Resolved tt, w'));;
       wrapError error).

(** The dependents that block the removal (line 347). *)
Definition blockingDependents `{ExtensionManagementUtil}
    (extension : ILocalExtension) (dependenciesToUninstall installed : list ILocalExtension)
  : list ILocalExtension :=
  List.filter
    (fun dependent =>
       negb (same extension dependent)
       && Z.eqb (indexOf same dependenciesToUninstall dependent) (-1))
    (getDependents extension installed).

(** [uninstallWithDependencies] (lines 345-352) *)
Definition uninstallWithDependencies `{ExtensionManagementUtil}
    (extension : ILocalExtension) (dependencies installed : list ILocalExtension)
  : M unit :=
  let dependenciesToUninstall := filterDependents extension dependencies installed in
  let dependents := blockingDependents extension dependenciesToUninstall installed in
  if Nat.ltb 0 (length dependents)
  then wrapError (VError (new_Error (getDependentsErrorMessage extension dependents)))
  else
    join (uninstallExtension (id extension) :: map doUninstall dependenciesToUninstall);;
    ret tt.

(** ** Accesses to the obsolete index in flight *)

(** One access run on its own, as a function of the file: the read,
    then [fn] and the write in one go. *)
Definition access {R} (fn : Obsolete → R * Obsolete) (f : file Obsolete)
  : Outcome R * file Obsolete :=
  match read_raw f with
  | Rejected r => (Rejected r, f)
  | Resolved raw =>
      let '(result, obsolete) := fn (parse_or_empty raw) in
      (Resolved result, persist obsolete)
  end.


Module Serial.
Section Limiter.
(** The results of the callbacks. *)
Context {R : Type}.

(** Where a started access stands: its read is pending, or [fn] has
    run on what was read and the write of [obsolete] is pending. *)
Inductive Phase :=
| Reading
| Writing (result : R) (obsolete : Obsolete).

Record Task := {
  ticket : nat;                          (* position in the order of the calls *)
  fn : Obsolete → R * Obsolete;
  phase : Phase;
}.

(** The index file, the limiter and the outcomes delivered so far.
    Modelled from the spec: [Limiter] of vs/base/common/async is not
    part of the sources at hand.  It is a queue with
    [maxDegreeOfParalellism] slots: a caller waits its turn in
    [outstandingPromises]; a factory is started when a slot is free and
    the slot is freed when its promise settles. *)
Record State := {
  disk : file Obsolete;
  maxDegreeOfParalellism : nat;
  runningPromises : list Task;
  outstandingPromises : list Task;
  delivered : list (nat * Outcome R);
  nextTicket : nat;
}.

(** [new Limiter(max)], over a disk. *)
Definition init (max : nat) (f : file Obsolete) : State :=
  {| disk := f; maxDegreeOfParalellism := max; runningPromises := [];
     outstandingPromises := []; delivered := []; nextTicket := 0 |}.

(** [consume]: start waiting factories while a slot is free. *)
Fixpoint consume (max : nat) (running outstanding : list Task)
  : list Task * list Task :=
  match outstanding with
  | [] => (running, [])
  | t :: rest =>
      if Nat.ltb (length running) max
      then consume max (running ++ [t]) rest
      else (running, outstanding)
  end.

Definition with_consume (s : State) : State :=
  let '(running, outstanding) :=
    consume (maxDegreeOfParalellism s) (runningPromises s) (outstandingPromises s) in
  {| disk := disk s; maxDegreeOfParalellism := maxDegreeOfParalellism s;
     runningPromises := running; outstandingPromises := outstanding;
     delivered := delivered s; nextTicket := nextTicket s |}.

(** [queue(factory)] *)
Definition queue (f : Obsolete → R * Obsolete) (s : State) : State :=
  with_consume
    {| disk := disk s; maxDegreeOfParalellism := maxDegreeOfParalellism s;
       runningPromises := runningPromises s;
       outstandingPromises :=
         outstandingPromises s
         ++ [{| ticket := nextTicket s; fn := f; phase := Reading |}];
       delivered := delivered s; nextTicket := S (nextTicket s) |}.

(** The pending file operation of the [k]-th started access completes.
    A read that fails settles the access; a read that succeeds runs
    [fn] and issues the write; a write settles the access.  Settling
    frees the slot ([consumed]). *)
Definition complete (k : nat) (s : State) : State :=
  match runningPromises s !! k with
  | None => s
  | Some t =>
      match phase t with
      | Reading =>
          match read_raw (disk s) with
          | Rejected r =>
              with_consume
                {| disk := disk s; maxDegreeOfParalellism := maxDegreeOfParalellism s;
                   runningPromises := delete k (runningPromises s);
                   outstandingPromises := outstandingPromises s;
                   delivered := delivered s ++ [(ticket t, Rejected r)];
                   nextTicket := nextTicket s |}
          | Resolved raw =>
              let '(result, obsolete) := fn t (parse_or_empty raw) in
              {| disk := disk s; maxDegreeOfParalellism := maxDegreeOfParalellism s;
                 runningPromises :=
                   <[k := {| ticket := ticket t; fn := fn t;
                             phase := Writing result obsolete |}]> (runningPromises s);
                 outstandingPromises := outstandingPromises s;
                 delivered := delivered s; nextTicket := nextTicket s |}
          end
      | Writing result obsolete =>
          with_consume
            {| disk := persist obsolete;
               maxDegreeOfParalellism := maxDegreeOfParalellism s;
               runningPromises := delete k (runningPromises s);
               outstandingPromises := outstandingPromises s;
               delivered := delivered s ++ [(ticket t, Resolved result)];
               nextTicket := nextTicket s |}
      end
  end.

(** What can happen next: a caller queues an access, or a pending file
    operation completes. *)
Inductive Event :=
| Call (f : Obsolete → R * Obsolete)
| Complete (k : nat).

Definition step (s : State) (e : Event) : State :=
  match e with
  | Call f => queue f s
  | Complete k => complete k s
  end.

Definition run (events : list Event) (s : State) : State :=
  fold_left step events s.








End Limiter.
Arguments State R : clear implicits.
Arguments Task R : clear implicits.
Arguments Event R : clear implicits.
End Serial.

(** ** Statements under test *)

(** The message of the joined error is the messages of [errors] put
    together with [sep] between them. *)
Definition joined_with (sep : string) (errors : list (Error + string)) : Prop :=
  message (joinErrors (map of_sum errors))
  = String.concat sep (map (fun x => message_of (of_sum x)) errors).

(** [e] declares [dep] as a dependency. *)
Definition depends_on `{ExtensionManagementUtil} (e dep : ILocalExtension) : bool :=
  match extensionDependencies (manifest e) with
  | Some deps => existsb (fun d => String.eqb d (getGalleryExtensionIdFromLocal dep)) deps
  | None => false
  end.

(** [e] is one of the objects of [l]. *)
Definition member (l : list ILocalExtension) (e : ILocalExtension) : bool :=
  existsb (fun x => same x e) l.

(** Some installed extension that is neither the target nor in the
    dependency set depends on [dep]. *)
Definition has_outside_dependent `{ExtensionManagementUtil}
    (extension : ILocalExtension) (dependencies installed : list ILocalExtension)
    (dep : ILocalExtension) : bool :=
  existsb
    (fun e => negb (same e extension) && negb (member dependencies e) && depends_on e dep)
    installed.

(** The mapping an access would read from the file. *)
Definition index_of_file (f : file Obsolete) : option Obsolete :=
  match read_raw f with
  | Resolved raw => Some (parse_or_empty raw)
  | Rejected _ => None
  end.

(** The world after an access that leaves [obsolete]. *)
Definition persisted (obsolete : Obsolete) (w : World) : World :=
  set_obsoleteFile (persist obsolete)
    (set_trace (trace w ++ [persist_effect (obsoletePath w) obsolete]) w).

(** Marking and unmarking, and a sequence of them. *)
Inductive IndexOp :=
| Mark (id : string)
| Unmark (id : string).

Definition run_op (op : IndexOp) : M unit :=
  match op with
  | Mark id => setObsolete id
  | Unmark id => unsetObsolete id
  end.

Fixpoint run_ops (ops : list IndexOp) : M unit :=
  match ops with
  | [] => ret tt
  | op :: rest => run_op op;; run_ops rest
  end.

(** The entries of an index the service wrote are all [true]. *)
Definition all_true (obsolete : Obsolete) : Prop :=
  ∀ id b, obsolete !! id = Some b → b = true.

Definition written_by_service (f : file Obsolete) : Prop :=
  match f with
  | Stored (Stringified obsolete) => all_true obsolete
  | _ => True
  end.

(** The effects that [w'] has on top of [w]. *)
Definition effects_since (w w' : World) (suffix : list Effect) : Prop :=
  trace w' = trace w ++ suffix.


(** [w'] has the effects of [w] and possibly more after them. *)
Definition extends (w w' : World) : Prop := ∃ suffix, effects_since w w' suffix.

(** A promise only adds effects. *)
Definition monotone {A} (p : M A) : Prop := ∀ w, extends w (p w).2.

(** ** Instances and data for the examples *)

Module Reference.
(** Modelled from the spec: extensionManagementUtil is not part of the
    sources at hand.  Section 6: the local identifier is a
    deterministic function of publisher, name and version that gives
    the directory name; the identifier without the version is
    publisher.name. *)
Definition util : ExtensionManagementUtil :=
  {| getLocalExtensionIdFromGallery := fun extension version =>
       g_id extension +:+ "-" +:+ version;
     getLocalExtensionIdFromManifest := fun manifest =>
       publisher manifest +:+ "." +:+ name manifest +:+ "-" +:+ version manifest;
     getGalleryExtensionIdFromLocal := fun local =>
       publisher (manifest local) +:+ "." +:+ name (manifest local);
     adoptToGalleryExtensionId := fun id => id |}.

(** No translation is applied. *)
Definition nls : ExtensionNls := {| localizeManifest := fun manifest _ => manifest |}.

Definition example_env : Env :=
  {| extensionsPath := "/home/user/.vscode/extensions";
     SystemExtensionsRoot := "/usr/share/code/extensions" |}.

Definition manifest_of (publisher name version : string) (deps : option (list string))
  : IExtensionManifest :=
  {| name := name; publisher := publisher; version := version;
     displayName := None; extensionDependencies := deps |}.

Definition dir_of (m : IExtensionManifest) : ExtDir :=
  {| packageJson := Stored (Stringified {| pj_manifest := m; __metadata := None |});
     packageNls := NoFile |}.

Definition vsix_of (m : IExtensionManifest) : Vsix :=
  {| extractable := true; content := dir_of m |}.

(** A profile where [pub.ext-1.0.0] is marked obsolete and its package
    waits in [/tmp/ext.vsix]. *)
Definition world_marked : World :=
  {| env := example_env;
     obsoleteFile := Stored (Stringified {[ "pub.ext-1.0.0" := true ]});
     userExtensions := ∅;
     systemExtensions := ∅;
     packages := {[ "/tmp/ext.vsix" := vsix_of (manifest_of "pub" "ext" "1.0.0" None) ]};
     nextOid := 0;
     trace := [] |}.
End Reference.

Module ReferenceWorlds.
Import Reference.

(** A fresh profile: nothing installed, no index file. *)
Definition world_fresh : World :=
  {| env := example_env; obsoleteFile := NoFile; userExtensions := ∅;
     systemExtensions := ∅; packages := ∅; nextOid := 0; trace := [] |}.

(** A profile whose index file was damaged. *)
Definition world_damaged : World :=
  {| env := example_env; obsoleteFile := Stored (Malformed "{pub.ext-1.0.0:");
     userExtensions := {[ "pub.bad-1.0.0" :=
                            {| packageJson := Stored (Malformed "{");
                               packageNls := NoFile |} ]};
     systemExtensions := ∅; packages := ∅; nextOid := 0; trace := [] |}.
End ReferenceWorlds.

(** [a] is sorted no later than [b] by the comparator. *)
Definition before {T} (cmp : T → T → option comparison) (a b : T) : Prop :=
  cmp a b = Some Lt ∨ cmp a b = Some Eq.

(** The first element is sorted no later than any other. *)
Definition headed {T} (cmp : T → T → option comparison) (l : list T) : Prop :=
  match l with [] => True | h :: t => ∀ y, y ∈ t → before cmp h y end.

(** [a] is sorted no later than [b]: [a] is the higher version, or they
    are equal. *)
Definition not_lower `{SemVer} (a b : string) : Prop := before rcompare a b.

(** [semver] orders the valid versions. *)
Definition semver_is_an_order `{SemVer} : Prop :=
  (∀ a b, rcompare a b = Some Gt → rcompare b a = Some Lt)
  ∧ (∀ a b c, not_lower a b → not_lower b c → not_lower a c).

(** A promise leaves a part of the world as it is. *)
Definition keeps {A X} (part : World → X) (p : M A) : Prop :=
  ∀ w, part (p w).2 = part w.

Module ReferenceSemVer.
(** Versions [major.minor.patch] in decimal digits, ordered as numbers
    field by field; any other string is an invalid version. *)
Definition digit_of (c : Ascii.ascii) : option N :=
  let n := Ascii.N_of_ascii c in
  if (48 <=? n)%N && (n <=? 57)%N then Some (n - 48)%N else None.

Fixpoint fields (s : string) (current : option N) : option (list N) :=
  match s with
  | EmptyString =>
      match current with Some n => Some [n] | None => None end
  | String c rest =>
      if (Ascii.N_of_ascii c =? 46)%N (* a dot *)
      then match current, fields rest None with
           | Some n, Some ns => Some (n :: ns)
           | _, _ => None
           end
      else match digit_of c with
           | Some d =>
               fields rest
                 (Some (10 * match current with Some n => n | None => 0 end + d)%N)
           | None => None
           end
  end.

Definition parse (v : string) : option (N * N * N) :=
  match fields v None with
  | Some [major; minor; patch] => Some (major, minor, patch)
  | _ => None
  end.

Definition compare (x y : N * N * N) : comparison :=
  match (x.1.1 ?= y.1.1)%N with
  | Eq => match (x.1.2 ?= y.1.2)%N with
          | Eq => (x.2 ?= y.2)%N
          | c => c
          end
  | c => c
  end.

Definition semver : SemVer :=
  {| rcompare := fun a b =>
       match parse a, parse b with
       | Some x, Some y => Some (compare y x)
       | _, _ => None
       end |}.

(** [x] is at most [y]. *)
Definition lex_le (x y : N * N * N) : Prop :=
  (x.1.1 < y.1.1)%N
  ∨ (x.1.1 = y.1.1 ∧ ((x.1.2 < y.1.2)%N ∨ (x.1.2 = y.1.2 ∧ (x.2 <= y.2)%N))).

(** A user root with two versions of one extension. *)
Definition world_two_versions : World :=
  {| env := Reference.example_env;
     obsoleteFile := NoFile;
     userExtensions :=
       {[ "pub.ext-1.0.0" := Reference.dir_of (Reference.manifest_of "pub" "ext" "1.0.0" None);
          "pub.ext-2.0.0" := Reference.dir_of (Reference.manifest_of "pub" "ext" "2.0.0" None) ]};
     systemExtensions := ∅;
     packages := ∅;
     nextOid := 0;
     trace := [] |}.
End ReferenceSemVer.


(** The events that report a failure against every member of a batch. *)
Definition failure_reports `{ExtensionManagementUtil}
    (extensions : list IGalleryExtension) (code : ErrorCode) : list Effect :=
  map (fun gallery =>
         onDidInstallExtension (local_id_of gallery) (FromGallery gallery) (ResCode code))
    extensions.


Module ReferenceGallery.
Definition gallery_of (uuid publisher_name version : string) : IGalleryExtension :=
  {| g_uuid := uuid; g_id := publisher_name; g_version := version;
     g_publisherId := "publisher-1"; g_publisherDisplayName := "Publisher" |}.

Definition one : IGalleryExtension := gallery_of "uuid-1" "pub.one" "1.0.0".
Definition two : IGalleryExtension := gallery_of "uuid-2" "pub.two" "1.0.0".
Definition three : IGalleryExtension := gallery_of "uuid-3" "pub.three" "1.0.0".

(** A registry where [pub.one] depends on itself, on [pub.two] and on
    [pub.three], and whose downloads land in [/tmp]. *)
Definition gallery : IExtensionGalleryService :=
  {| loadCompatibleVersion := fun extension => Resolved extension;
     getAllDependencies := fun _ => Resolved [one; two; three];
     download := fun extension => Resolved ("/tmp/" +:+ g_id extension +:+ ".vsix") |}.

(** [pub.two-1.0.0] is installed already. *)
Definition world_with_two : World :=
  {| env := Reference.example_env;
     obsoleteFile := NoFile;
     userExtensions :=
       {[ "pub.two-1.0.0" :=
            Reference.dir_of (Reference.manifest_of "pub" "two" "1.0.0" None) ]};
     systemExtensions := ∅;
     packages := ∅;
     nextOid := 0;
     trace := [] |}.

(** The three packages are downloaded; the second cannot be extracted. *)
Definition world_second_broken : World :=
  {| env := Reference.example_env;
     obsoleteFile := NoFile;
     userExtensions := ∅;
     systemExtensions := ∅;
     packages :=
       {[ "/tmp/pub.one.vsix" :=
            Reference.vsix_of (Reference.manifest_of "pub" "one" "1.0.0" None);
          "/tmp/pub.two.vsix" :=
            {| extractable := false;
               content :=
                 Reference.dir_of (Reference.manifest_of "pub" "two" "1.0.0" None) |};
          "/tmp/pub.three.vsix" :=
            Reference.vsix_of (Reference.manifest_of "pub" "three" "1.0.0" None) ]};
     nextOid := 0;
     trace := [] |}.
End ReferenceGallery.

(** ** Uninstall: prompts, the dependency closure and the entry point
    (lines 261-343, 367-381) *)

Module Severity.
(** vs/base/common/severity *)
Inductive t := Ignore | Info | Warning | Error.
End Severity.

(** [IChoiceService]: the answer of the user to a prompt, the index of
    the chosen option, or a rejection. *)
Class IChoiceService := {
  choose : Severity.t → string → list string → Z → bool → Outcome Z;
}.

(** Modelled from the spec: [errors.canceled()] of vs/base/common/errors
    is not part of the sources at hand; section 7 names the error kind
    [Canceled]. *)
Definition canceled : Value :=
  VError {| err_name := "Canceled"; message := "Canceled" |}.

(** Modelled from the spec: [distinct] of vs/base/common/arrays is not
    part of the sources at hand; section 9 asks for a flat set.  An
    element is kept at its first position, elements being compared as
    objects. *)
Fixpoint distinct_from (seen l : list ILocalExtension) : list ILocalExtension :=
  match l with
  | [] => []
  | x :: l' =>
      if existsb (fun y => same y x) seen then distinct_from seen l'
      else x :: distinct_from (seen ++ [x]) l'
  end.

Definition distinct (array : list ILocalExtension) : list ILocalExtension :=
  distinct_from [] array.

(** The installed extensions that the manifest of [extension] names
    (lines 296 and 375). *)
Definition declaredDependencies `{ExtensionManagementUtil}
    (extension : ILocalExtension) (installed : list ILocalExtension)
  : list ILocalExtension :=
  match extensionDependencies (manifest extension) with
  | Some deps =>
      List.filter
        (fun i => negb (Z.eqb (indexOf String.eqb deps (getGalleryExtensionIdFromLocal i))
                          (-1)))
        installed
  | None => []
  end.

(** [hasDependencies] (lines 294-299) *)
Definition hasDependencies `{ExtensionManagementUtil}
    (extension : ILocalExtension) (installed : list ILocalExtension) : bool :=
  match extensionDependencies (manifest extension) with
  | Some deps =>
      if Nat.ltb 0 (length deps)
      then existsb
             (fun i => negb (Z.eqb (indexOf String.eqb deps
                                      (getGalleryExtensionIdFromLocal i)) (-1)))
             installed
      else false
  | None => false
  end.

(** [getDependenciesToUninstallRecursively] (lines 367-381).  The array
    [checked] is shared by all the calls: the function returns its
    result and [checked] as the call leaves it.  [fuel] bounds the depth
    of the recursion; [None] stands for a walk that was cut short. *)
Fixpoint getDependenciesToUninstallRecursively `{ExtensionManagementUtil}
    (fuel : nat) (extension : ILocalExtension) (installed checked : list ILocalExtension)
  : option (list ILocalExtension * list ILocalExtension) :=
  if negb (Z.eqb (indexOf same checked extension) (-1)) then Some ([], checked)
  else
    match fuel with
    | 0 => None
    | S fuel' =>
        let checked := checked ++ [extension] in
        match extensionDependencies (manifest extension) with
        | None => Some ([], checked)
        | Some deps =>
            if Nat.eqb (length deps) 0 then Some ([], checked)
            else
              let dependenciesToUninstall :=
                List.filter
                  (fun i => negb (Z.eqb (indexOf String.eqb deps
                                           (getGalleryExtensionIdFromLocal i)) (-1)))
                  installed in
              match
                (fix loop (todo checked depsOfDeps : list ILocalExtension) :=
                   match todo with
                   | [] => Some (depsOfDeps, checked)
                   | dep :: rest =>
                       match getDependenciesToUninstallRecursively fuel' dep installed
                               checked with
                       | Some (found, checked') => loop rest checked' (depsOfDeps ++ found)
                       | None => None
                       end
                   end) dependenciesToUninstall checked []
              with
              | Some (depsOfDeps, checked') =>
                  Some (dependenciesToUninstall ++ depsOfDeps, checked')
              | None => None
              end
        end
    end.

(** The call of lines 303 and 319: the walk from an empty [checked],
    then [distinct] and the filter that leaves the extension itself out.
    One level of recursion per installed extension and one for
    [extension] is all that a walk can use. *)
Definition dependenciesOf `{ExtensionManagementUtil}
    (extension : ILocalExtension) (installed : list ILocalExtension)
  : list ILocalExtension :=
  let found :=
    match getDependenciesToUninstallRecursively (S (length installed)) extension
            installed [] with
    | Some (found, _) => found
    | None => []
    end in
  List.filter (fun e => negb (same e extension)) (distinct found).

(** [promptForDependenciesAndUninstall] (lines 301-324) *)
Definition promptForDependenciesAndUninstall
    `{ExtensionManagementUtil} `{IChoiceService}
    (extension : ILocalExtension) (installed : list ILocalExtension) (force : bool)
  : M unit :=
  if force
  then uninstallWithDependencies extension (dependenciesOf extension installed) installed
  else
    let message :=
      "Would you like to uninstall '" +:+ displayName_or_name (manifest extension)
      +:+ "' only or its dependencies also?" in
    let options := ["Only"; "All"; "Cancel"] in
    then2 (settled (choose Severity.Info message options 2 true))
      (fun value =>
         if Z.eqb value 0 then uninstallWithDependencies extension [] installed
         else if Z.eqb value 1
              then uninstallWithDependencies extension
                     (dependenciesOf extension installed) installed
              else wrapError canceled)
      (fun error => wrapError canceled).

(** [promptAndUninstall] (lines 326-343) *)
Definition promptAndUninstall `{ExtensionManagementUtil} `{IChoiceService}
    (extension : ILocalExtension) (installed : list ILocalExtension) (force : bool)
  : M unit :=
  if force
  then uninstallWithDependencies extension [] installed
  else
    let message :=
      "Are you sure you want to uninstall '" +:+ displayName_or_name (manifest extension)
      +:+ "'?" in
    let options := ["OK"; "Cancel"] in
    then2 (settled (choose Severity.Info message options 1 true))
      (fun value =>
         if Z.eqb value 0 then uninstallWithDependencies extension [] installed
         else wrapError canceled)
      (fun error => wrapError canceled).

(** [checkForDependenciesAndUninstall] (lines 284-292) *)
Definition checkForDependenciesAndUninstall `{ExtensionManagementUtil} `{IChoiceService}
    (extension : ILocalExtension) (installed : list ILocalExtension) (force : bool)
  : M unit :=
  then2
    (preUninstallExtension extension;;
     if hasDependencies extension installed
     then promptForDependenciesAndUninstall extension installed force
     else promptAndUninstall extension installed force)
    (fun _ => postUninstallExtension extension None)
    (fun error =>
       (fun w => let '(_, w') := postUninstallExtension extension (Some LOCAL) w in
                 (Resolved tt, w'));;
       wrapError error).

(** ** Cleanup (lines 489-526) *)

(** [getIdAndVersionFromLocalExtensionId] of extensionManagementUtil:
    the identifier and, when the folder name ends in a version, the
    version. *)
Class LocalExtensionIdParser := {
  getIdAndVersionFromLocalExtensionId : string → string * option string;
}.

(** [removeExtensions] (lines 507-512) *)
Definition removeExtensions (extensionsIds : list string) : M (list unit) :=
  join (map (fun id => rimraf_extension id;; withObsoleteExtensions (delete_entry id))
          extensionsIds).


(** A folder of an extension with the identifier and version that its
    name parses to (line 518). *)
Record GalleryFolder := {
  folder : string;
  folder_id : string;
  folder_version : string;
}.

(** Lines 517-519: the folders whose names give both an identifier and
    a version. *)
Definition galleryFolders `{LocalExtensionIdParser} (folders : list string)
  : list GalleryFolder :=
  flat_map
    (fun folder =>
       match getIdAndVersionFromLocalExtensionId folder with
       | (id, Some version) =>
           if truthy id && truthy version
           then [{| folder := folder; folder_id := id; folder_version := version |}]
           else []
       | (_, None) => []
       end)
    folders.

(** [p.sort((a, b) => semver.rcompare(a.version, b.version)).slice(1)]
    for every group [p] (line 523). *)
Fixpoint outdated_of_each `{SemVer} (byId : list (list GalleryFolder))
  : option (list (list GalleryFolder)) :=
  match byId with
  | [] => Some []
  | p :: rest =>
      match sort (fun a b => rcompare (folder_version a) (folder_version b)) p,
            outdated_of_each rest with
      | Some sorted, Some r => Some (drop 1 sorted :: r)
      | _, _ => None
      end
  end.

(** [getOutdatedExtensionIds] (lines 514-526) *)
Definition getOutdatedExtensionIds `{LocalExtensionIdParser} `{SemVer} : M (list string) :=
  let! folders := scanExtensionFolders User in
  let byId := values (groupBy (galleryFolders folders) folder_id) in
  match outdated_of_each byId with
  | Some outdated => ret (map folder (concat outdated))
  | None => wrapError InvalidVersion
  end.

(** [removeOutdatedExtensions] (lines 496-499) *)
Definition removeOutdatedExtensions `{LocalExtensionIdParser} `{SemVer} : M (list unit) :=
  let! extensionIds := getOutdatedExtensionIds in
  removeExtensions extensionIds.


(** [uninstall] (lines 261-272).  A [join] is rejected with an array;
    [joinErrors] on anything else has no [reduce] to call. *)
Definition uninstall
    `{ExtensionManagementUtil} `{ExtensionNls} `{SemVer} `{IChoiceService}
    `{LocalExtensionIdParser}
    (extension : ILocalExtension) (force : bool) : M unit :=
  removeOutdatedExtensions;;
  (let! installed := scanUserExtensions in
   let promises :=
     map (fun e => checkForDependenciesAndUninstall e installed force)
       (List.filter
          (fun e =>
             String.eqb (publisher (manifest e)) (publisher (manifest extension))
             && String.eqb (name (manifest e)) (name (manifest extension)))
          installed) in
   then2 (join promises) ret
     (fun errors =>
        match errors with
        | VArray errors => wrapError (VError (joinErrors errors))
        | _ => wrapError (VError {| err_name := "TypeError";
                                    message := "errors.reduce is not a function" |})
        end));;
  ret tt.

(** ** Statements about the dependency closure *)

(** The loop of lines 377-379 on its own: the walk of every extension of
    [todo] in turn, on the shared [checked]. *)
Fixpoint visit_all `{ExtensionManagementUtil} (fuel : nat)
    (installed todo checked depsOfDeps : list ILocalExtension)
  : option (list ILocalExtension * list ILocalExtension) :=
  match todo with
  | [] => Some (depsOfDeps, checked)
  | dep :: rest =>
      match getDependenciesToUninstallRecursively fuel dep installed checked with
      | Some (found, checked') => visit_all fuel installed rest checked' (depsOfDeps ++ found)
      | None => None
      end
  end.

(** [e] is an installed extension that [v] needs, directly or through
    installed extensions. *)
Inductive reaches `{ExtensionManagementUtil} (installed : list ILocalExtension)
  : ILocalExtension → ILocalExtension → Prop :=
| reaches_step v d :
    d ∈ declaredDependencies v installed → reaches installed v d
| reaches_trans v d e :
    d ∈ declaredDependencies v installed → reaches installed d e →
    reaches installed v e.

(** The installed extensions that are not in [checked]. *)
Definition unvisited (installed checked : list ILocalExtension) : list ILocalExtension :=
  List.filter (fun u => negb (member checked u)) installed.

(** What a walk has done when it returns: [new] are the extensions it
    visited. *)
Definition walked `{ExtensionManagementUtil}
    (installed roots checked found checked' : list ILocalExtension) : Prop :=
  ∃ new,
    checked' = checked ++ new
    ∧ (∀ u, u ∈ new → u ∈ installed)
    ∧ (∀ t, t ∈ roots → t ∈ checked')
    ∧ (∀ u d, u ∈ new → d ∈ declaredDependencies u installed → d ∈ checked')
    ∧ (∀ e, e ∈ found ↔ ∃ u, u ∈ new ∧ e ∈ declaredDependencies u installed)
    ∧ (∀ u, u ∈ new → ∃ t, t ∈ roots ∧ (u = t ∨ reaches installed t u)).

Module ReferenceCycle.
(** Three installed extensions: [pub.a] and [pub.b] depend on each
    other, [pub.b] also on [pub.c], and nothing depends on [pub.d]. *)
Definition local_of (o : nat) (name : string) (deps : option (list string))
  : ILocalExtension :=
  {| oid := o; type := User; id := "pub." +:+ name +:+ "-1.0.0";
     manifest := Reference.manifest_of "pub" name "1.0.0" deps;
     metadata := None;
     path := "/home/user/.vscode/extensions/pub." +:+ name +:+ "-1.0.0" |}.

Definition a : ILocalExtension := local_of 0 "a" (Some ["pub.b"]).
Definition b : ILocalExtension := local_of 1 "b" (Some ["pub.a"; "pub.c"]).
Definition c : ILocalExtension := local_of 2 "c" None.
Definition d : ILocalExtension := local_of 3 "d" (Some []).
Definition installed : list ILocalExtension := [a; b; c; d].
End ReferenceCycle.

(** The way [doUninstall] and [checkForDependenciesAndUninstall] end
    (lines 288-291 and 402-407): the completion is reported without an
    error code when the work resolved and with [LOCAL] when it was
    rejected, and the rejection is passed on. *)
Definition reported (extension : ILocalExtension) (work : M unit) : M unit :=
  then2 work
    (fun _ => postUninstallExtension extension None)
    (fun error =>
       (fun w => let '(_, w') := postUninstallExtension extension (Some LOCAL) w in
                 (Resolved tt, w'));;
       wrapError error).

(** The error code that the completion event carries for an outcome. *)
Definition code_of {A} (o : Outcome A) : option ErrorCode :=
  match o with Resolved _ => None | Rejected _ => Some LOCAL end.

(** The answer to the prompt of [promptAndUninstall] or of
    [promptForDependenciesAndUninstall], whichever line 286 chooses. *)
Definition answer `{ExtensionManagementUtil} `{IChoiceService}
    (extension : ILocalExtension) (installed : list ILocalExtension) : Outcome Z :=
  if hasDependencies extension installed
  then choose Severity.Info
         ("Would you like to uninstall '" +:+ displayName_or_name (manifest extension)
          +:+ "' only or its dependencies also?")
         ["Only"; "All"; "Cancel"] 2 true
  else choose Severity.Info
         ("Are you sure you want to uninstall '" +:+ displayName_or_name (manifest extension)
          +:+ "'?")
         ["OK"; "Cancel"] 1 true.

(** The answers that let the removal go on: the first option, and the
    second one where the prompt has three. *)
Definition accepted `{ExtensionManagementUtil} `{IChoiceService}
    (extension : ILocalExtension) (installed : list ILocalExtension) : bool :=
  match answer extension installed with
  | Resolved value =>
      Z.eqb value 0 || (hasDependencies extension installed && Z.eqb value 1)
  | Rejected _ => false
  end.

Module ReferenceChoice.
(** A user who always picks the option that cancels. *)
Definition cancels : IChoiceService :=
  {| choose := fun _ _ _ cancel _ => Resolved cancel |}.
End ReferenceChoice.

(** Lines 470-472 of [scanExtensions]: the dependencies of a manifest
    that was read are adopted to the identifiers of the registry. *)
Definition adopted `{ExtensionManagementUtil} (manifest : IExtensionManifest)
  : IExtensionManifest :=
  match extensionDependencies manifest with
  | Some deps =>
      {| name := name manifest; publisher := publisher manifest;
         version := version manifest; displayName := displayName manifest;
         extensionDependencies := Some (map adoptToGalleryExtensionId deps) |}
  | None => manifest
  end.

(** The manifest of a directory can be read. *)
Definition scannable `{ExtensionNls} (t : LocalExtensionType) (w : World) (id : string)
  : bool :=
  match (readManifest t id w).1 with Resolved _ => true | Rejected _ => false end.


Module ReferenceParser.
(** Modelled from the spec: [getIdAndVersionFromLocalExtensionId] of
    extensionManagementUtil is not part of the sources at hand.  The
    identifier is what stands before the last ['-'] of the folder name
    and the version what stands after it; a name without ['-'] has no
    version. *)
Fixpoint split_last (s : string) : option (string * string) :=
  match s with
  | EmptyString => None
  | String c s' =>
      match split_last s' with
      | Some (before, after) => Some (String c before, after)
      | None =>
          if (Ascii.N_of_ascii c =? 45)%N then Some (EmptyString, s') else None
      end
  end.

Definition parser : LocalExtensionIdParser :=
  {| getIdAndVersionFromLocalExtensionId := fun folder =>
       match split_last folder with
       | Some (id, version) => (id, Some version)
       | None => (folder, None)
       end |}.

(** A profile with two versions of [pub.a] and one of [pub.b]. *)
Definition world_two_versions : World :=
  set_userExtensions
    {[ "pub.a-1.0.0" := Reference.dir_of (Reference.manifest_of "pub" "a" "1.0.0" None);
       "pub.a-2.0.0" := Reference.dir_of (Reference.manifest_of "pub" "a" "2.0.0" None);
       "pub.b-1.0.0" := Reference.dir_of (Reference.manifest_of "pub" "b" "1.0.0" None) ]}
    ReferenceWorlds.world_fresh.
End ReferenceParser.

(** The metadata that [downloadInstallableExtension] attaches (lines
    177-181). *)
Definition metadata_of (extension : IGalleryExtension) : IGalleryMetadata :=
  {| md_id := g_uuid extension; md_publisherId := g_publisherId extension;
     md_publisherDisplayName := g_publisherDisplayName extension |}.

(** The events that report the record installed for each member of a
    batch. *)
Definition success_reports `{ExtensionManagementUtil}
    (extensions : list IGalleryExtension) (local : list ILocalExtension) : list Effect :=
  zip_with
    (fun gallery l =>
       onDidInstallExtension (local_id_of gallery) (FromGallery gallery) (ResLocal (Some l)))
    extensions local.

(** The events that announce the installs of a batch. *)
Definition install_announcements `{ExtensionManagementUtil}
    (extensions : list IGalleryExtension) : list Effect :=
  map (fun gallery => onInstallExtension (local_id_of gallery) (FromGallery gallery))
    extensions.

Module ReferenceBatch.
Import ReferenceGallery.
(** The three packages are downloaded and sound. *)
Definition world_downloaded : World :=
  {| env := Reference.example_env;
     obsoleteFile := NoFile;
     userExtensions := ∅;
     systemExtensions := ∅;
     packages :=
       {[ "/tmp/pub.one.vsix" :=
            Reference.vsix_of (Reference.manifest_of "pub" "one" "1.0.0" None);
          "/tmp/pub.two.vsix" :=
            Reference.vsix_of (Reference.manifest_of "pub" "two" "1.0.0" None);
          "/tmp/pub.three.vsix" :=
            Reference.vsix_of (Reference.manifest_of "pub" "three" "1.0.0" None) ]};
     nextOid := 0;
     trace := [] |}.

(** [pub.three-1.0.0] waits for a restart. *)
Definition world_three_obsolete : World :=
  set_obsoleteFile (Stored (Stringified {[ "pub.three-1.0.0" := true ]})) world_downloaded.
End ReferenceBatch.

Module ReferenceInvalid.
(** A profile where a folder of [pub.a] carries a version that is none. *)
Definition world_invalid_version : World :=
  set_userExtensions
    {[ "pub.a-1.0.0" := Reference.dir_of (Reference.manifest_of "pub" "a" "1.0.0" None);
       "pub.a-next" := Reference.dir_of (Reference.manifest_of "pub" "a" "next" None) ]}
    ReferenceWorlds.world_fresh.


Definition a : ILocalExtension :=
  {| oid := 0; type := User; id := "pub.a-1.0.0";
     manifest := Reference.manifest_of "pub" "a" "1.0.0" None;
     metadata := None;
     path := "/home/user/.vscode/extensions/pub.a-1.0.0" |}.
End ReferenceInvalid.

(** * Theorems *)

(** ** Error aggregation *)

Lemma append_assoc (a b c : string) : (a +:+ b) +:+ c = a +:+ b +:+ c.
Proof.
  induction a as [|ch a IH]; [reflexivity|].
  change (String ch ((a +:+ b) +:+ c) = String ch (a +:+ b +:+ c)).
  now rewrite IH.
Qed.

Lemma truthy_append (a b : string) : truthy a = true → truthy (a +:+ b) = true.
Proof. destruct a; simpl; [discriminate | reflexivity]. Qed.

Lemma falsy_empty (s : string) : truthy s = false → s = "".
Proof. destruct s; simpl; [reflexivity | discriminate]. Qed.

Lemma concat_cons (sep a b : string) (l : list string) :
  String.concat sep (a :: b :: l) = a +:+ sep +:+ String.concat sep (b :: l).
Proof. reflexivity. Qed.

Lemma fold_join_started (l : list Value) (acc : string) :
  truthy acc = true →
  fold_left join_step l (new_Error acc)
  = new_Error (String.concat "," (acc :: map message_of l)).
Proof.
  revert acc. induction l as [|v l IH]; intros acc Hacc.
  - reflexivity.
  - cbn [fold_left map]. unfold join_step at 2. cbn [message new_Error].
    rewrite Hacc, IH by now apply truthy_append.
    f_equal. rewrite (concat_cons "," acc).
    destruct l as [|v' l]; cbn [map].
    + reflexivity.
    + rewrite !concat_cons, !append_assoc. reflexivity.
Qed.

Lemma fold_join_fresh (l : list Value) :
  fold_left join_step l (new_Error "")
  = new_Error (String.concat "," (skip_empty (map message_of l))).
Proof.
  induction l as [|v l IH]; [reflexivity|].
  cbn [fold_left map skip_empty]. unfold join_step at 2. cbn.
  destruct (truthy (message_of v)) eqn:Hv.
  - now apply fold_join_started.
  - rewrite (falsy_empty _ Hv). exact IH.
Qed.

(** When the first message is not empty nothing is skipped. *)
Lemma skip_empty_started (s : string) (l : list string) :
  truthy s = true → skip_empty (s :: l) = s :: l.
Proof. intros H. simpl. now rewrite H. Qed.

(** C9, as stated, fails: the separator the code writes is [","], not
    [", "]; two errors ["a"] and ["b"] are joined into ["a,b"]. *)
Lemma joinErrors_separator_is_not_comma_space :
  ¬ joined_with ", " [inr "a"; inr "b"].
Proof. unfold joined_with. vm_compute. discriminate. Qed.

(** C9 (amended).  A list of one error gives that error itself when it
    is an [Error], and a new [Error] around it when it is a string.  A
    list of two or more gives a new [Error] whose message is the messages
    in order with [","] (no space) between them, where empty messages at
    the front of the list are passed over without a separator. *)
Theorem joinErrors_spec :
  (∀ e : Error, joinErrors (map of_sum [inl e]) = e)
  ∧ (∀ s : string, joinErrors (map of_sum [inr s]) = new_Error s)
  ∧ (∀ (x y : Error + string) (l : list (Error + string)),
       joinErrors (map of_sum (x :: y :: l))
       = new_Error (String.concat ","
                      (skip_empty (map (fun x => message_of (of_sum x)) (x :: y :: l))))).
Proof.
  split; [reflexivity|]. split; [reflexivity|].
  intros x y l.
  change (joinErrors (map of_sum (x :: y :: l)))
    with (fold_left join_step (map of_sum (x :: y :: l)) (new_Error "")).
  rewrite fold_join_fresh, map_map. reflexivity.
Qed.

(** ** Uninstall: the dependent-safety filter *)

Lemma indexOf_nonneg_or_minus1 {A} (eqb : A → A → bool) (l : list A) (x : A) :
  indexOf eqb l x = (-1)%Z ∨ (0 <= indexOf eqb l x)%Z.
Proof.
  induction l as [|y l IH]; simpl; [now left|].
  destruct (eqb y x); [right; lia|].
  destruct IH as [-> | IH]; [now left|].
  destruct (indexOf eqb l x); try lia; right; lia.
Qed.

Lemma indexOf_minus1 {A} (eqb : A → A → bool) (l : list A) (x : A) :
  Z.eqb (indexOf eqb l x) (-1) = negb (existsb (fun y => eqb y x) l).
Proof.
  induction l as [|y l IH]; simpl; [reflexivity|].
  destruct (eqb y x); simpl; [reflexivity|].
  rewrite <- IH.
  destruct (indexOf_nonneg_or_minus1 eqb l x) as [-> | Hge]; [reflexivity|].
  destruct (indexOf eqb l x) eqn:E; try lia; simpl.
  - reflexivity.
  - destruct (Z.succ (Z.pos p)) eqn:E'; try lia; reflexivity.
Qed.

Lemma nonempty_filter {A} (f : A → bool) (l : list A) :
  Nat.ltb 0 (length (List.filter f l)) = existsb f l.
Proof.
  induction l as [|x l IH]; simpl; [reflexivity|].
  destruct (f x); simpl; [reflexivity | exact IH].
Qed.

Lemma filter_filter {A} (f g : A → bool) (l : list A) :
  List.filter f (List.filter g l) = List.filter (fun x => g x && f x) l.
Proof.
  induction l as [|x l IH]; simpl; [reflexivity|].
  destruct (g x); simpl; [destruct (f x)|]; now rewrite IH.
Qed.

Lemma splice1_middle {A} (prefix rest : list A) (x : A) :
  splice1 (Z.of_nat (length prefix)) (prefix ++ x :: rest) = prefix ++ rest.
Proof.
  unfold splice1.
  assert ((Z.of_nat (length prefix) <? 0)%Z = false) as ->
    by (apply Z.ltb_ge; lia).
  rewrite Z.min_l by (rewrite length_app; simpl; lia).
  rewrite Nat2Z.id.
  rewrite take_app_length.
  replace (S (length prefix)) with (length prefix + 1) by lia.
  rewrite <- drop_drop, drop_app_length. reflexivity.
Qed.

(** The loop of [filterDependents] with its index arithmetic, for any
    test [remove] of an element: after [j] rounds the first [j] elements
    are filtered and the others untouched. *)
Lemma splice_loop_prefix {A} (remove : A → bool) (dependencies : list A) (j : nat) :
  (j ≤ length dependencies)%nat →
  fold_left
    (fun result i =>
       match dependencies !! i with
       | Some dep =>
           if remove dep
           then splice1 (Z.of_nat i
                         - (Z.of_nat (length dependencies) - Z.of_nat (length result)))
                  result
           else result
       | None => result
       end)
    (seq 0 j) dependencies
  = List.filter (fun d => negb (remove d)) (take j dependencies) ++ drop j dependencies.
Proof.
  induction j as [|j IH]; intros Hj.
  - reflexivity.
  - rewrite seq_S, fold_left_app, IH by lia. cbn [fold_left plus].
    destruct (dependencies !! j) as [dep|] eqn:Hdep.
    2: { apply lookup_ge_None in Hdep. lia. }
    rewrite (take_S_r _ _ _ Hdep), (drop_S _ _ _ Hdep).
    rewrite List.filter_app. cbn [List.filter].
    set (kept := List.filter (fun d => negb (remove d)) (take j dependencies)).
    destruct (remove dep); cbn [negb].
    + rewrite app_nil_r.
      replace (Z.of_nat j - (Z.of_nat (length dependencies)
                             - Z.of_nat (length (kept ++ dep :: drop (S j) dependencies))))%Z
        with (Z.of_nat (length kept)).
      * apply splice1_middle.
      * rewrite length_app. cbn [length]. rewrite length_drop. lia.
    + now rewrite <- app_assoc.
Qed.

Lemma splice_loop {A} (remove : A → bool) (dependencies : list A) :
  fold_left
    (fun result i =>
       match dependencies !! i with
       | Some dep =>
           if remove dep
           then splice1 (Z.of_nat i
                         - (Z.of_nat (length dependencies) - Z.of_nat (length result)))
                  result
           else result
       | None => result
       end)
    (seq 0 (length dependencies)) dependencies
  = List.filter (fun d => negb (remove d)) dependencies.
Proof.
  rewrite splice_loop_prefix by lia.
  now rewrite firstn_all, drop_all, app_nil_r.
Qed.

Lemma fold_left_pointwise {A B} (f g : A → B → A) (l : list B) (a : A) :
  (∀ a b, f a b = g a b) → fold_left f l a = fold_left g l a.
Proof.
  intros E. revert a. induction l as [|b l IH]; intros a; simpl; [reflexivity|].
  now rewrite E, IH.
Qed.

Lemma existsb_ext_in {A} (f g : A → bool) (l : list A) :
  (∀ x, f x = g x) → existsb f l = existsb g l.
Proof. intros E. induction l as [|x l IH]; simpl; [reflexivity | now rewrite E, IH]. Qed.

Lemma same_sym (a b : ILocalExtension) : same a b = same b a.
Proof. unfold same. apply Nat.eqb_sym. Qed.

Lemma depends_on_indexOf `{ExtensionManagementUtil} (e dep : ILocalExtension) :
  match extensionDependencies (manifest e) with
  | Some deps =>
      negb (Z.eqb (indexOf String.eqb deps (getGalleryExtensionIdFromLocal dep)) (-1))
  | None => false
  end = depends_on e dep.
Proof.
  unfold depends_on. destruct (extensionDependencies (manifest e)); [|reflexivity].
  now rewrite indexOf_minus1, negb_involutive.
Qed.

(** The test the loop applies to a member of the dependency set. *)
Lemma outside_dependents_nonempty `{ExtensionManagementUtil}
    (extension : ILocalExtension) (dependencies installed : list ILocalExtension)
    (dep : ILocalExtension) :
  Nat.ltb 0
    (length
       (List.filter (fun e => Z.eqb (indexOf same dependencies e) (-1))
          (getDependents dep
             (List.filter
                (fun i =>
                   negb (same i extension)
                   && match extensionDependencies (manifest i) with
                      | Some deps => Nat.ltb 0 (length deps)
                      | None => false
                      end)
                installed))))
  = has_outside_dependent extension dependencies installed dep.
Proof.
  unfold getDependents, has_outside_dependent.
  rewrite !filter_filter, nonempty_filter.
  apply existsb_ext_in. intros e.
  rewrite depends_on_indexOf, indexOf_minus1.
  unfold member, depends_on.
  destruct (same e extension); simpl; [reflexivity|].
  destruct (extensionDependencies (manifest e)) as [deps|]; simpl.
  - destruct deps as [|d deps]; simpl; [now rewrite andb_false_r|].
    now rewrite andb_comm.
  - now rewrite andb_false_r.
Qed.

(** C4.  The dependent-safety filter removes from the dependency set
    exactly the members on which some installed extension depends that is
    neither the target nor a member of the dependency set; the other
    members are kept, in their order. *)
Theorem filterDependents_removes_exactly_needed `{ExtensionManagementUtil}
    (extension : ILocalExtension) (dependencies installed : list ILocalExtension) :
  filterDependents extension dependencies installed
  = List.filter
      (fun dep => negb (has_outside_dependent extension dependencies installed dep))
      dependencies.
Proof.
  unfold filterDependents.
  rewrite <- (splice_loop
                (fun dep => has_outside_dependent extension dependencies installed dep)).
  apply fold_left_pointwise. intros result i.
  destruct (dependencies !! i) as [dep|]; [|reflexivity].
  now rewrite outside_dependents_nonempty.
Qed.

(** ** Facts about promises *)

Lemma settle_all_resolves {A} (ps : list (M A)) (w : World) :
  ∃ os w', settle_all ps w = (Resolved os, w') ∧ length os = length ps.
Proof.
  revert w. induction ps as [|p ps IH]; intros w; simpl.
  - now exists [], w.
  - destruct (p w) as [o w1]. destruct (IH w1) as (os & w2 & E & L).
    rewrite E. exists (o :: os), w2. simpl. now rewrite L.
Qed.

(** A [join] is rejected with an array only. *)
Lemma join_rejected_is_array {A} (ps : list (M A)) (w w' : World) (r : Value) :
  join ps w = (Rejected r, w') → ∃ errors, r = VArray errors ∧ errors ≠ [].
Proof.
  unfold join, bind. destruct (settle_all_resolves ps w) as (os & w1 & -> & _).
  destruct (rejected_of os) as [|e errors] eqn:E; unfold ret, wrapError.
  - discriminate.
  - intros [= <- <-]. now exists (e :: errors).
Qed.

(** ** Uninstall: the dependents that block *)

(** C6.  The dependents that block an uninstall are the installed
    extensions that depend on the target and are neither the target nor
    in the batch left by the dependent-safety filter.  With none of them
    the removals are run and the operation is not rejected with an
    [Error] of its own; with one, two, or more, the operation is rejected
    before anything is touched, with a message that names the one, the
    two, or the first two followed by "and others". *)
Theorem uninstall_names_blocking_dependents `{ExtensionManagementUtil}
    (extension : ILocalExtension) (dependencies installed : list ILocalExtension)
    (w : World) :
  let batch := filterDependents extension dependencies installed in
  let shown e := displayName_or_name (manifest e) in
  blockingDependents extension batch installed
  = List.filter
      (fun e => depends_on e extension && (negb (same extension e) && negb (member batch e)))
      installed
  ∧ match blockingDependents extension batch installed with
    | [] =>
        uninstallWithDependencies extension dependencies installed w
        = (join (uninstallExtension (id extension) :: map doUninstall batch);; ret tt) w
        ∧ ∀ e : Error,
            (uninstallWithDependencies extension dependencies installed w).1
            ≠ Rejected (VError e)
    | [d0] =>
        uninstallWithDependencies extension dependencies installed w
        = (Rejected
             (VError
                (new_Error
                   ("Cannot uninstall extension '" +:+ shown extension
                    +:+ "'. Extension '" +:+ shown d0 +:+ "' depends on this."))), w)
    | [d0; d1] =>
        uninstallWithDependencies extension dependencies installed w
        = (Rejected
             (VError
                (new_Error
                   ("Cannot uninstall extension '" +:+ shown extension
                    +:+ "'. Extensions '" +:+ shown d0 +:+ "' and '" +:+ shown d1
                    +:+ "' depend on this."))), w)
    | d0 :: d1 :: _ :: _ =>
        uninstallWithDependencies extension dependencies installed w
        = (Rejected
             (VError
                (new_Error
                   ("Cannot uninstall extension '" +:+ shown extension
                    +:+ "'. Extensions '" +:+ shown d0 +:+ "', '" +:+ shown d1
                    +:+ "' and others depend on this."))), w)
    end.
Proof.
  intros batch shown. split.
  - unfold blockingDependents, getDependents. rewrite filter_filter.
    apply List.filter_ext. intros e.
    now rewrite depends_on_indexOf, indexOf_minus1.
  - unfold uninstallWithDependencies. fold batch.
    destruct (blockingDependents extension batch installed) as [|d0 [|d1 [|d2 ds]]];
      cbn [length Nat.ltb Nat.leb]; try reflexivity.
    split; [reflexivity|].
    intros e. unfold bind at 1.
    destruct (join _ w) as [[a|r] w'] eqn:E; cbn; [discriminate|].
    apply join_rejected_is_array in E as (errors & -> & _). discriminate.
Qed.

(** ** Install from the registry: what is installed *)



(** ** The obsolete index *)

Lemma withObsoleteExtensions_access {T} (fn : Obsolete → T * Obsolete) (w : World) :
  withObsoleteExtensions fn w
  = match read_raw (obsoleteFile w) with
    | Rejected r => (Rejected r, w)
    | Resolved raw =>
        (Resolved (fn (parse_or_empty raw)).1, persisted (fn (parse_or_empty raw)).2 w)
    end.
Proof.
  unfold withObsoleteExtensions, bind, ret.
  destruct (read_raw (obsoleteFile w)) as [raw|r]; [|reflexivity].
  now destruct (fn (parse_or_empty raw)) as [result obsolete].
Qed.

(** The pure core [access] is what [withObsoleteExtensions] does to the
    file. *)
Lemma withObsoleteExtensions_file {T} (fn : Obsolete → T * Obsolete) (w : World) :
  (withObsoleteExtensions fn w).1 = (access fn (obsoleteFile w)).1
  ∧ obsoleteFile (withObsoleteExtensions fn w).2 = (access fn (obsoleteFile w)).2.
Proof.
  rewrite withObsoleteExtensions_access. unfold access.
  destruct (read_raw (obsoleteFile w)) as [raw|r]; [|now split].
  now destruct (fn (parse_or_empty raw)) as [result obsolete].
Qed.

Lemma keys_empty (obsolete : Obsolete) :
  Nat.eqb (length (Object_keys obsolete)) 0 = true ↔ obsolete = ∅.
Proof.
  unfold Object_keys. rewrite Nat.eqb_eq, length_fmap. split.
  - intros L. apply map_to_list_empty_iff. now apply nil_length_inv.
  - intros ->. now rewrite map_to_list_empty.
Qed.

Lemma persist_empty : persist ∅ = NoFile.
Proof. reflexivity. Qed.

Lemma persist_nonempty (obsolete : Obsolete) :
  obsolete ≠ ∅ → persist obsolete = Stored (JSON_stringify obsolete).
Proof.
  intros Hne. unfold persist.
  destruct (Nat.eqb (length (Object_keys obsolete)) 0) eqn:E; [|reflexivity].
  now apply keys_empty in E.
Qed.

Lemma persist_NoFile (obsolete : Obsolete) : persist obsolete = NoFile ↔ obsolete = ∅.
Proof.
  split; [|intros ->; reflexivity].
  unfold persist. destruct (Nat.eqb (length (Object_keys obsolete)) 0) eqn:E;
    [intros _; now apply keys_empty | discriminate].
Qed.

(** What is written is what the next access reads. *)
Lemma index_of_persist (obsolete : Obsolete) :
  index_of_file (persist obsolete) = Some obsolete.
Proof.
  unfold persist. destruct (Nat.eqb (length (Object_keys obsolete)) 0) eqn:E.
  - apply keys_empty in E as ->. reflexivity.
  - reflexivity.
Qed.

Lemma persist_effect_empty (path : string) : persist_effect path ∅ = fs_rimraf path.
Proof. reflexivity. Qed.

Lemma persist_effect_nonempty (path : string) (obsolete : Obsolete) :
  obsolete ≠ ∅ → persist_effect path obsolete = fs_writeFile path.
Proof.
  intros Hne. unfold persist_effect.
  destruct (Nat.eqb (length (Object_keys obsolete)) 0) eqn:E; [|reflexivity].
  now apply keys_empty in E.
Qed.

Lemma all_true_insert (id : string) (obsolete : Obsolete) :
  all_true obsolete → all_true (<[id := true]> obsolete).
Proof.
  intros Hall i b. rewrite lookup_insert. case_decide; [congruence | apply Hall].
Qed.

Lemma all_true_delete (id : string) (obsolete : Obsolete) :
  all_true obsolete → all_true (delete id obsolete).
Proof.
  intros Hall i b. rewrite lookup_delete. case_decide; [discriminate | apply Hall].
Qed.

Lemma all_true_unmarked_empty (obsolete : Obsolete) :
  all_true obsolete → (∀ id, marked obsolete id = false) → obsolete = ∅.
Proof.
  intros Hall Hnone. apply map_eq. intros i. rewrite lookup_empty.
  specialize (Hnone i). unfold marked in Hnone.
  destruct (obsolete !! i) as [b|] eqn:E; [|reflexivity].
  rewrite (Hall _ _ E) in Hnone. discriminate.
Qed.

Lemma written_by_service_read (f : file Obsolete) (obsolete : Obsolete) :
  written_by_service f → index_of_file f = Some obsolete → all_true obsolete.
Proof.
  destruct f as [| |[chars|m]]; cbn; intros Hw [= <-]; try assumption;
    intros i b; rewrite lookup_empty; discriminate.
Qed.

Lemma written_by_service_persist (obsolete : Obsolete) :
  all_true obsolete → written_by_service (persist obsolete).
Proof.
  intros Hall. unfold persist.
  destruct (Nat.eqb (length (Object_keys obsolete)) 0); [exact I | exact Hall].
Qed.

(** One mark or unmark that resolves: the file is the persisted form of
    a mapping with [true] entries only. *)
Lemma run_op_resolved (op : IndexOp) (w w' : World) :
  written_by_service (obsoleteFile w) →
  run_op op w = (Resolved tt, w') →
  ∃ obsolete, all_true obsolete ∧ obsoleteFile w' = persist obsolete.
Proof.
  intros Hw. destruct op as [i|i]; cbn [run_op]; unfold setObsolete, unsetObsolete;
    rewrite withObsoleteExtensions_access;
    destruct (read_raw (obsoleteFile w)) as [raw|r] eqn:E; try discriminate;
    intros [= <-]; cbn [fst snd];
    assert (all_true (parse_or_empty raw)) as Hall
      by (apply (written_by_service_read (obsoleteFile w)); [assumption|];
          unfold index_of_file; now rewrite E).
  - exists (<[i := true]> (parse_or_empty raw)). split; [now apply all_true_insert|reflexivity].
  - exists (delete i (parse_or_empty raw)). split; [now apply all_true_delete|reflexivity].
Qed.

Lemma run_ops_resolved (ops : list IndexOp) (w w' : World) :
  ops ≠ [] →
  written_by_service (obsoleteFile w) →
  run_ops ops w = (Resolved tt, w') →
  ∃ obsolete, all_true obsolete ∧ obsoleteFile w' = persist obsolete.
Proof.
  revert w. induction ops as [|op ops IH]; intros w Hne Hw; [contradiction|].
  cbn [run_ops]. unfold bind at 1.
  destruct (run_op op w) as [[[]|r] w1] eqn:E1; [|discriminate].
  destruct (run_op_resolved _ _ _ Hw E1) as (m1 & Hall1 & Hf1).
  destruct ops as [|op' ops].
  - cbn. intros [= <-]. now exists m1.
  - intros Hrun. apply (IH w1); [discriminate| |assumption].
    rewrite Hf1. now apply written_by_service_persist.
Qed.

(** C7.  After an access to the obsolete index that completes, the file
    exists exactly when the mapping the access leaves is not empty: an
    empty mapping makes the access delete the file instead of writing it,
    otherwise the mapping is written, and a missing file is read as the
    empty mapping.  After a non-empty sequence of marks and unmarks on an
    index the service wrote, if no identifier is marked any more the file
    does not exist. *)
Theorem obsolete_file_exists_iff_nonempty :
  (∀ (T : Type) (fn : Obsolete → T * Obsolete) (w w' : World) (result : T),
     withObsoleteExtensions fn w = (Resolved result, w') →
     ∃ before after : Obsolete,
       index_of_file (obsoleteFile w) = Some before
       ∧ (obsoleteFile w = NoFile → before = ∅)
       ∧ fn before = (result, after)
       ∧ index_of_file (obsoleteFile w') = Some after
       ∧ (obsoleteFile w' ≠ NoFile ↔ after ≠ ∅)
       ∧ (after = ∅ → effects_since w w' [fs_rimraf (obsoletePath w)])
       ∧ (after ≠ ∅ →
          obsoleteFile w' = Stored (JSON_stringify after)
          ∧ effects_since w w' [fs_writeFile (obsoletePath w)]))
  ∧ (∀ (ops : list IndexOp) (w w' : World) (left : Obsolete),
       ops ≠ [] →
       written_by_service (obsoleteFile w) →
       run_ops ops w = (Resolved tt, w') →
       index_of_file (obsoleteFile w') = Some left →
       (∀ id, marked left id = false) →
       obsoleteFile w' = NoFile).
Proof.
  split.
  - intros T fn w w' result. rewrite withObsoleteExtensions_access.
    destruct (read_raw (obsoleteFile w)) as [raw|r] eqn:E; [|discriminate].
    intros [= <- <-].
    exists (parse_or_empty raw), (fn (parse_or_empty raw)).2.
    split; [unfold index_of_file; now rewrite E|].
    split.
    { intros Hno. rewrite Hno in E. cbn in E. injection E as <-. reflexivity. }
    split; [now destruct (fn (parse_or_empty raw))|].
    cbn [persisted set_obsoleteFile obsoleteFile].
    split; [apply index_of_persist|].
    split; [rewrite persist_NoFile; tauto|].
    unfold effects_since. cbn [persisted set_obsoleteFile set_trace trace].
    split.
    + intros ->. reflexivity.
    + intros Hne. rewrite persist_nonempty, persist_effect_nonempty by assumption.
      now split.
  - intros ops w w' left Hne Hw Hrun Hleft Hnone.
    destruct (run_ops_resolved _ _ _ Hne Hw Hrun) as (m & Hall & Hf).
    rewrite Hf, index_of_persist in Hleft. injection Hleft as <-.
    rewrite Hf. apply persist_NoFile. now apply all_true_unmarked_empty.
Qed.

(** C10.  When the index file exists and its text is not valid JSON, an
    access does not fail: [fn] is run on the empty mapping, whatever was
    marked is forgotten, and what [fn] leaves is persisted.  The readers
    of [package.json] and [package.nls.json] pass the same failure on as
    a rejection. *)
Theorem malformed_index_reads_as_empty `{ExtensionNls}
    {T} (fn : Obsolete → T * Obsolete) (w : World) (chars : string) :
  obsoleteFile w = Stored (Malformed chars) →
  withObsoleteExtensions fn w = (Resolved (fn ∅).1, persisted (fn ∅).2 w)
  ∧ index_of_file (obsoleteFile w) = Some ∅
  ∧ index_of_file (obsoleteFile (persisted (fn ∅).2 w)) = Some (fn ∅).2
  ∧ parseManifest (Malformed chars) w
    = (Rejected (VError (new_Error "Extension invalid: package.json is not a JSON file.")),
       w)
  ∧ (∀ t id dir,
       dirs_of t w !! id = Some dir →
       packageJson dir = Stored (Malformed chars) ∨ packageNls dir = Stored (Malformed chars) →
       ∃ reason, readManifest t id w = (Rejected reason, w)).
Proof.
  intros Hfile.
  split; [rewrite withObsoleteExtensions_access, Hfile; reflexivity|].
  split; [rewrite Hfile; reflexivity|].
  split; [apply index_of_persist|].
  split; [reflexivity|].
  intros t i dir Hdir Hbad.
  destruct dir as [pj nls]. cbn in Hbad.
  unfold readManifest, readFile_in, bind.
  destruct Hbad as [-> | ->].
  - destruct nls as [| |[c|translations]]; cbn; repeat (rewrite Hdir; cbn);
      eexists; reflexivity.
  - destruct pj as [| |[c|[manifest metadata]]]; cbn; repeat (rewrite Hdir; cbn);
      eexists; reflexivity.
Qed.

(** ** Effects only accumulate *)

Lemma extends_refl (w : World) : extends w w.
Proof. exists []. unfold effects_since. now rewrite app_nil_r. Qed.

Lemma extends_trans (w1 w2 w3 : World) : extends w1 w2 → extends w2 w3 → extends w1 w3.
Proof.
  intros [s1 E1] [s2 E2]. exists (s1 ++ s2). unfold effects_since in *.
  now rewrite E2, E1, app_assoc.
Qed.

Lemma extends_set_trace (w : World) (l : list Effect) :
  extends w (set_trace (trace w ++ l) w).
Proof. now exists l. Qed.

Lemma monotone_ret {A} (a : A) : monotone (ret a).
Proof. intros w. apply extends_refl. Qed.

Lemma monotone_wrapError {A} (r : Value) : monotone (@wrapError A r).
Proof. intros w. apply extends_refl. Qed.

Lemma monotone_get : monotone get.
Proof. intros w. apply extends_refl. Qed.

Lemma monotone_settled {A} (o : Outcome A) : monotone (settled o).
Proof. intros w. apply extends_refl. Qed.

Lemma monotone_emit (e : Effect) : monotone (emit e).
Proof. intros w. apply extends_set_trace. Qed.

Lemma monotone_alloc : monotone alloc.
Proof. intros w. exists []. unfold effects_since. cbn. now rewrite app_nil_r. Qed.

Lemma monotone_then2 {A B} (p : M A) (k : A → M B) (h : Value → M B) :
  monotone p → (∀ a, monotone (k a)) → (∀ r, monotone (h r)) → monotone (then2 p k h).
Proof.
  intros Hp Hk Hh w. unfold then2. specialize (Hp w).
  destruct (p w) as [[a|r] w1]; cbn in Hp.
  - exact (extends_trans _ _ _ Hp (Hk a w1)).
  - exact (extends_trans _ _ _ Hp (Hh r w1)).
Qed.

Lemma monotone_bind {A B} (p : M A) (k : A → M B) :
  monotone p → (∀ a, monotone (k a)) → monotone (bind p k).
Proof.
  intros Hp Hk w. unfold bind. specialize (Hp w).
  destruct (p w) as [[a|r] w1]; cbn in Hp.
  - exact (extends_trans _ _ _ Hp (Hk a w1)).
  - exact Hp.
Qed.

Lemma monotone_catch {A} (p : M A) (h : Value → M A) :
  monotone p → (∀ r, monotone (h r)) → monotone (catch p h).
Proof. intros. apply monotone_then2; auto using @monotone_ret. Qed.

Lemma monotone_settle_all {A} (ps : list (M A)) :
  Forall monotone ps → monotone (settle_all ps).
Proof.
  induction 1 as [|p ps Hp _ IH]; intros w; cbn.
  - apply extends_refl.
  - specialize (Hp w). destruct (p w) as [o w1]. specialize (IH w1).
    destruct (settle_all ps w1) as [[os|r] w2]; cbn in *;
      exact (extends_trans _ _ _ Hp IH).
Qed.

Lemma monotone_join {A} (ps : list (M A)) : Forall monotone ps → monotone (join ps).
Proof.
  intros H. unfold join. apply monotone_bind; [now apply monotone_settle_all|].
  intros os. destruct (rejected_of os); [apply monotone_ret | apply monotone_wrapError].
Qed.

Lemma monotone_withObsoleteExtensions {T} (fn : Obsolete → T * Obsolete) :
  monotone (withObsoleteExtensions fn).
Proof.
  intros w. rewrite withObsoleteExtensions_access.
  destruct (read_raw (obsoleteFile w)); cbn; [|apply extends_refl].
  now eexists.
Qed.

Lemma monotone_readFile_in {T} (t : LocalExtensionType) (i : string)
    (member : ExtDir → file T) : monotone (readFile_in t i member).
Proof.
  intros w. unfold readFile_in. destruct (dirs_of t w !! i) as [dir|];
    [destruct (pfs_readFile (member dir))|]; apply extends_refl.
Qed.

Lemma monotone_parseManifest (raw : text PackageJson) : monotone (parseManifest raw).
Proof.
  unfold parseManifest. destruct (JSON_parse raw);
    [apply monotone_ret | apply monotone_wrapError].
Qed.

(** Reading a manifest leaves the world as it is. *)
Lemma readManifest_world `{ExtensionNls} (t : LocalExtensionType) (i : string) (w : World) :
  (readManifest t i w).2 = w.
Proof.
  unfold readManifest, readFile_in, bind, parseManifest, ret, wrapError.
  destruct (dirs_of t w !! i) as [[pj nls]|] eqn:Hd.
  - destruct pj as [| |[c|[m md]]]; cbn; rewrite Hd; cbn;
      destruct nls as [| |[c'|tr]]; reflexivity.
  - cbn. rewrite Hd. reflexivity.
Qed.

Lemma monotone_readManifest `{ExtensionNls} (t : LocalExtensionType) (i : string) :
  monotone (readManifest t i).
Proof. intros w. rewrite readManifest_world. apply extends_refl. Qed.

Lemma monotone_rimraf_extension (i : string) : monotone (rimraf_extension i).
Proof. intros w. now eexists. Qed.

Lemma monotone_extract (zp i : string) : monotone (extract zp i).
Proof.
  intros w. unfold extract. destruct (packages w !! zp) as [zip|];
    [destruct (extractable zip)|]; now eexists.
Qed.

Lemma monotone_readdir_extension (t : LocalExtensionType) (i : string) :
  monotone (readdir_extension t i).
Proof.
  intros w. unfold readdir_extension. destruct (dirs_of t w !! i); apply extends_refl.
Qed.

Lemma monotone_writeFile_manifest (i : string) (raw : text PackageJson) :
  monotone (writeFile_manifest i raw).
Proof.
  intros w. unfold writeFile_manifest. destruct (userExtensions w !! i); now eexists.
Qed.

Create HintDb monotone.
#[global] Hint Resolve monotone_ret monotone_wrapError monotone_get monotone_settled
  monotone_emit monotone_alloc monotone_withObsoleteExtensions monotone_readFile_in
  monotone_parseManifest monotone_rimraf_extension monotone_extract
  monotone_readdir_extension monotone_writeFile_manifest : monotone.
#[global] Hint Extern 1 (monotone (readManifest _ _)) => apply monotone_readManifest
  : monotone.

(** Splits a composed promise into its steps. *)
Ltac monotone_steps :=
  repeat first
    [ apply monotone_bind; [|intros ?]
    | apply monotone_then2; [|intros ?|intros ?]
    | apply monotone_catch; [|intros ?]
    | match goal with |- monotone (let '(_, _) := ?x in _) => destruct x end
    | match goal with |- monotone (match ?x with _ => _ end) => destruct x end
    | solve [auto with monotone] ].

Lemma monotone_installExtension `{ExtensionNls} (x : InstallableExtension) :
  monotone (installExtension x).
Proof. unfold installExtension. monotone_steps. Qed.

(** ** Local install and the obsolete index *)

Lemma isObsolete_read (i : string) (w : World) (obsolete : Obsolete) :
  index_of_file (obsoleteFile w) = Some obsolete →
  isObsolete i w = (Resolved (marked obsolete i), persisted obsolete w).
Proof.
  unfold index_of_file, isObsolete, filterObsolete, bind.
  rewrite withObsoleteExtensions_access.
  destruct (read_raw (obsoleteFile w)) as [raw|r]; [|discriminate].
  intros [= <-]. cbn. now destruct (marked (parse_or_empty raw) i).
Qed.

Lemma unsetObsolete_read (i : string) (w : World) (obsolete : Obsolete) :
  index_of_file (obsoleteFile w) = Some obsolete →
  unsetObsolete i w = (Resolved tt, persisted (delete i obsolete) w).
Proof.
  unfold index_of_file, unsetObsolete. rewrite withObsoleteExtensions_access.
  destruct (read_raw (obsoleteFile w)) as [raw|r]; [|discriminate].
  now intros [= <-].
Qed.

Lemma setObsolete_read (i : string) (w : World) (obsolete : Obsolete) :
  index_of_file (obsoleteFile w) = Some obsolete →
  setObsolete i w = (Resolved tt, persisted (<[i := true]> obsolete) w).
Proof.
  unfold index_of_file, setObsolete. rewrite withObsoleteExtensions_access.
  destruct (read_raw (obsoleteFile w)) as [raw|r]; [|discriminate].
  now intros [= <-].
Qed.

Lemma index_of_persisted (obsolete : Obsolete) (w : World) :
  index_of_file (obsoleteFile (persisted obsolete w)) = Some obsolete.
Proof. apply index_of_persist. Qed.

(** Validation reads the package only. *)
Lemma validate_packages (zp : string) (w w' : World) :
  packages w = packages w' →
  (validate zp w').1 = (validate zp w).1 ∧ (validate zp w').2 = w'.
Proof.
  intros E. unfold validate, zip_buffer, bind, parseManifest, ret, wrapError.
  rewrite <- E.
  destruct (packages w !! zp) as [zip|]; [|now split].
  destruct (pfs_readFile (packageJson (content zip))) as [code|[c|pj]]; now split.
Qed.










Lemma obsolete_file_exists_iff_nonempty_witness :
  (∃ before after : Obsolete,
     index_of_file (obsoleteFile Reference.world_marked) = Some before
     ∧ (obsoleteFile Reference.world_marked = NoFile → before = ∅)
     ∧ (tt, delete "pub.ext-1.0.0" before) = (tt, after)
     ∧ index_of_file (obsoleteFile (persisted ∅ Reference.world_marked)) = Some after
     ∧ (obsoleteFile (persisted ∅ Reference.world_marked) ≠ NoFile ↔ after ≠ ∅)
     ∧ (after = ∅ →
        effects_since Reference.world_marked (persisted ∅ Reference.world_marked)
          [fs_rimraf (obsoletePath Reference.world_marked)])
     ∧ (after ≠ ∅ →
        obsoleteFile (persisted ∅ Reference.world_marked) = Stored (JSON_stringify after)
        ∧ effects_since Reference.world_marked (persisted ∅ Reference.world_marked)
            [fs_writeFile (obsoletePath Reference.world_marked)]))
  ∧ obsoleteFile
      (run_ops [Mark "pub.a-1.0.0"; Mark "pub.b-1.0.0"; Unmark "pub.a-1.0.0";
                Unmark "pub.b-1.0.0"] ReferenceWorlds.world_fresh).2
    = NoFile.
Proof.
  split.
  - exact (proj1 obsolete_file_exists_iff_nonempty unit
             (fun obsolete => (tt, delete "pub.ext-1.0.0" obsolete))
             Reference.world_marked (persisted ∅ Reference.world_marked) tt eq_refl).
  - apply (proj2 obsolete_file_exists_iff_nonempty
             [Mark "pub.a-1.0.0"; Mark "pub.b-1.0.0"; Unmark "pub.a-1.0.0";
              Unmark "pub.b-1.0.0"]
             ReferenceWorlds.world_fresh _ ∅).
    + discriminate.
    + exact I.
    + vm_compute. reflexivity.
    + vm_compute. reflexivity.
    + intros i. reflexivity.
Defined.

Lemma malformed_index_reads_as_empty_witness :
  obsoleteFile ReferenceWorlds.world_damaged = Stored (Malformed "{pub.ext-1.0.0:")
  ∧ setObsolete "pub.new-1.0.0" ReferenceWorlds.world_damaged
    = (Resolved tt, persisted {[ "pub.new-1.0.0" := true ]} ReferenceWorlds.world_damaged).
Proof.
  split; [reflexivity|].
  exact (proj1 (@malformed_index_reads_as_empty Reference.nls unit
                  (fun obsolete => (tt, <["pub.new-1.0.0" := true]> obsolete))
                  ReferenceWorlds.world_damaged "{pub.ext-1.0.0:" eq_refl)).
Defined.

(** ** Accesses to the obsolete index are serialized *)

Section SingleSlot.
Import Serial.
Context {R : Type}.
Implicit Types (s : State R) (t : Task R) (f : file Obsolete).





















End SingleSlot.



Lemma marked_insert (obsolete : Obsolete) (i j : string) :
  marked (<[j := true]> obsolete) i = if decide (j = i) then true else marked obsolete i.
Proof. unfold marked. rewrite lookup_insert. now case_decide. Qed.


(** With two slots the model does lose an update: two marks whose reads
    both complete before either write leave only the second mark. *)
Example two_slots_lose_an_update :
  Serial.disk
    (Serial.run
       [Serial.Call (assign_true "pub.a-1.0.0"); Serial.Call (assign_true "pub.b-1.0.0");
        Serial.Complete 0; Serial.Complete 1; Serial.Complete 0; Serial.Complete 0]
       (Serial.init 2 NoFile))
  = Stored (Stringified {[ "pub.b-1.0.0" := true ]}).
Proof. reflexivity. Qed.



(** ** What a promise leaves alone *)

Lemma keeps_ret {A X} (part : World → X) (a : A) : keeps part (ret a).
Proof. now intros w. Qed.

Lemma keeps_wrapError {A X} (part : World → X) (r : Value) : keeps part (@wrapError A r).
Proof. now intros w. Qed.

Lemma keeps_get {X} (part : World → X) : keeps part get.
Proof. now intros w. Qed.

Lemma keeps_then2 {A B X} (part : World → X) (p : M A) (k : A → M B) (h : Value → M B) :
  keeps part p → (∀ a, keeps part (k a)) → (∀ r, keeps part (h r)) →
  keeps part (then2 p k h).
Proof.
  intros Hp Hk Hh w. unfold then2. specialize (Hp w).
  destruct (p w) as [[a|r] w1]; cbn in Hp; [rewrite Hk | rewrite Hh]; exact Hp.
Qed.

Lemma keeps_bind {A B X} (part : World → X) (p : M A) (k : A → M B) :
  keeps part p → (∀ a, keeps part (k a)) → keeps part (bind p k).
Proof.
  intros Hp Hk w. unfold bind. specialize (Hp w).
  destruct (p w) as [[a|r] w1]; cbn in Hp; [rewrite Hk|]; exact Hp.
Qed.

Lemma keeps_catch {A X} (part : World → X) (p : M A) (h : Value → M A) :
  keeps part p → (∀ r, keeps part (h r)) → keeps part (catch p h).
Proof. intros. apply keeps_then2; auto using @keeps_ret. Qed.

Lemma keeps_settle_all {A X} (part : World → X) (ps : list (M A)) :
  Forall (keeps part) ps → keeps part (settle_all ps).
Proof.
  induction 1 as [|p ps Hp _ IH]; intros w; cbn; [reflexivity|].
  specialize (Hp w). destruct (p w) as [o w1]. specialize (IH w1).
  destruct (settle_all ps w1) as [[os|r] w2]; cbn in *; congruence.
Qed.

Lemma keeps_join {A X} (part : World → X) (ps : list (M A)) :
  Forall (keeps part) ps → keeps part (join ps).
Proof.
  intros H. unfold join. apply keeps_bind; [now apply keeps_settle_all|].
  intros os. destruct (rejected_of os); [apply keeps_ret | apply keeps_wrapError].
Qed.

Lemma keeps_readManifest `{ExtensionNls} {X} (part : World → X)
    (t : LocalExtensionType) (i : string) : keeps part (readManifest t i).
Proof. intros w. now rewrite readManifest_world. Qed.

Lemma keeps_readdir_extension {X} (part : World → X) (t : LocalExtensionType) (i : string) :
  keeps part (readdir_extension t i).
Proof. intros w. unfold readdir_extension. now destruct (dirs_of t w !! i). Qed.

(** The scanner reads the directories and does not change them. *)
Lemma keeps_dirs_withObsoleteExtensions {T} (t : LocalExtensionType)
    (fn : Obsolete → T * Obsolete) : keeps (dirs_of t) (withObsoleteExtensions fn).
Proof.
  intros w. rewrite withObsoleteExtensions_access.
  destruct (read_raw (obsoleteFile w)); now destruct t.
Qed.

Lemma keeps_dirs_alloc (t : LocalExtensionType) : keeps (dirs_of t) alloc.
Proof. intros w. now destruct t. Qed.

Lemma keeps_dirs_scan_each `{ExtensionManagementUtil} `{ExtensionNls}
    (t t' : LocalExtensionType) (i : string) : keeps (dirs_of t') (scan_each t i).
Proof.
  unfold scan_each. apply keeps_catch; [|intros; apply keeps_ret].
  apply keeps_bind; [apply keeps_get | intros w0].
  apply keeps_bind; [apply keeps_readdir_extension | intros _].
  apply keeps_bind; [apply keeps_readManifest | intros [manifest metadata]].
  apply keeps_bind; [apply keeps_dirs_alloc | intros o; apply keeps_ret].
Qed.

Lemma keeps_dirs_scanExtensions `{ExtensionManagementUtil} `{ExtensionNls}
    (t t' : LocalExtensionType) : keeps (dirs_of t') (scanExtensions t).
Proof.
  unfold scanExtensions, scanExtensionFolders.
  apply keeps_bind.
  - apply keeps_bind; [apply keeps_dirs_withObsoleteExtensions | intros obsolete].
    apply keeps_bind; [apply keeps_get | intros w0; apply keeps_ret].
  - intros ids. apply keeps_bind; [|intros; apply keeps_ret].
    apply keeps_join, List.Forall_forall. intros p Hp.
    apply in_map_iff in Hp as (i & <- & _). apply keeps_dirs_scan_each.
Qed.

(** ** Grouping and sorting *)

Section Grouping.
Context {T : Type} (key : T → string).

Lemma group_insert_keys (k : string) (x : T) (gs : list (string * list T)) :
  (group_insert k x gs).*1 = gs.*1
  ∨ ((k ∉ gs.*1) ∧ (group_insert k x gs).*1 = gs.*1 ++ [k]).
Proof.
  induction gs as [|[k0 g0] gs IH]; cbn.
  - right. split; [apply not_elem_of_nil | reflexivity].
  - destruct (String.eqb_spec k0 k) as [->|Hne]; cbn; [now left|].
    destruct IH as [-> | [Hk ->]]; [now left|right].
    split; [|reflexivity]. rewrite not_elem_of_cons. split; [congruence | assumption].
Qed.

Lemma elem_of_keys (k : string) (g : list T) (gs : list (string * list T)) :
  (k, g) ∈ gs → k ∈ gs.*1.
Proof. intros Hin. apply list_elem_of_fmap. now exists (k, g). Qed.

Lemma group_insert_elem (k : string) (x : T) (gs : list (string * list T))
    (k' : string) (g' : list T) :
  NoDup gs.*1 →
  (k', g') ∈ group_insert k x gs →
  (k' ≠ k ∧ (k', g') ∈ gs)
  ∨ (k' = k ∧ (g' = [x] ∨ ∃ g, (k, g) ∈ gs ∧ g' = g ++ [x])).
Proof.
  induction gs as [|[k0 g0] gs IH]; cbn; intros Hnd.
  - rewrite list_elem_of_singleton. intros [= -> ->]. right. split; [reflexivity|now left].
  - apply NoDup_cons in Hnd as [Hfresh Hnd].
    destruct (String.eqb_spec k0 k) as [->|Hne]; rewrite elem_of_cons.
    + intros [[= -> ->] | Hin].
      * right. split; [reflexivity|]. right. exists g0. split; [left|reflexivity].
      * left. split; [|now right].
        intros ->. apply Hfresh. now apply (elem_of_keys _ g').
    + intros [[= -> ->] | Hin].
      * left. split; [assumption | left].
      * destruct (IH Hnd Hin) as [[Hk Hg] | [-> [-> | (g & Hg & ->)]]].
        -- left. split; [assumption | now right].
        -- right. split; [reflexivity | now left].
        -- right. split; [reflexivity|]. right. exists g. split; [now right | reflexivity].
Qed.

Lemma group_insert_other (k : string) (x : T) (gs : list (string * list T))
    (k' : string) (g' : list T) :
  k' ≠ k → (k', g') ∈ gs → (k', g') ∈ group_insert k x gs.
Proof.
  intros Hne. induction gs as [|[k0 g0] gs IH]; cbn; [easy|].
  rewrite elem_of_cons. intros [[= <- <-] | Hin].
  - destruct (String.eqb_spec k' k); [contradiction | left].
  - destruct (String.eqb k0 k); right; [assumption | now apply IH].
Qed.

Lemma group_insert_here (k : string) (x : T) (gs : list (string * list T)) :
  NoDup gs.*1 →
  ∃ g', (k, g') ∈ group_insert k x gs ∧ x ∈ g'
        ∧ ∀ g y, (k, g) ∈ gs → y ∈ g → y ∈ g'.
Proof.
  induction gs as [|[k0 g0] gs IH]; cbn; intros Hnd.
  - exists [x]. split; [left|]. split; [left|]. intros g y Hin. now apply elem_of_nil in Hin.
  - apply NoDup_cons in Hnd as [Hfresh Hnd].
    destruct (String.eqb_spec k0 k) as [->|Hne].
    + exists (g0 ++ [x]). split; [left|]. split; [apply elem_of_app; right; left|].
      intros g y Hin Hy. apply elem_of_cons in Hin as [[= ->] | Hin].
      * apply elem_of_app. now left.
      * exfalso. apply Hfresh. now apply (elem_of_keys _ g).
    + destruct (IH Hnd) as (g' & Hg' & Hx & Hincl).
      exists g'. split; [now right|]. split; [assumption|].
      intros g y Hin Hy. apply elem_of_cons in Hin as [[= -> ->] | Hin]; [contradiction|].
      now apply (Hincl g).
Qed.

Lemma groupBy_snoc (data : list T) (x : T) :
  groupBy (data ++ [x]) key = group_insert (key x) x (groupBy data key).
Proof. unfold groupBy. now rewrite fold_left_app. Qed.

(** The groups have distinct keys; a group is not empty and holds
    records of the input with the key of the group; every record of the
    input is in the group of its key. *)
Lemma groupBy_spec (data : list T) :
  NoDup (groupBy data key).*1
  ∧ (∀ k g, (k, g) ∈ groupBy data key → g ≠ [] ∧ ∀ y, y ∈ g → key y = k ∧ y ∈ data)
  ∧ (∀ y, y ∈ data → ∃ g, (key y, g) ∈ groupBy data key ∧ y ∈ g).
Proof.
  induction data as [|x data (Hnd & Hin & Hall)] using rev_ind.
  - split; [constructor|]. split.
    + intros k g H. now apply elem_of_nil in H.
    + intros y H. now apply elem_of_nil in H.
  - rewrite groupBy_snoc. split; [|split].
    + destruct (group_insert_keys (key x) x (groupBy data key)) as [-> | [Hk ->]];
        [assumption|].
      apply NoDup_app. split; [assumption|]. split; [|apply NoDup_singleton].
      intros k Hk' ->%list_elem_of_singleton. contradiction.
    + intros k g Hg.
      destruct (group_insert_elem _ _ _ _ _ Hnd Hg)
        as [[Hk Hg'] | [-> [-> | (g0 & Hg0 & ->)]]].
      * destruct (Hin _ _ Hg') as [Hne Hmem]. split; [assumption|].
        intros y Hy. destruct (Hmem y Hy). split; [assumption|].
        apply elem_of_app. now left.
      * split; [discriminate|]. intros y ->%list_elem_of_singleton.
        split; [reflexivity|]. apply elem_of_app. right. left.
      * destruct (Hin _ _ Hg0) as [Hne Hmem]. split.
        { intros E. now apply app_eq_nil in E as [_ ?]. }
        intros y [Hy | ->%list_elem_of_singleton]%elem_of_app.
        -- destruct (Hmem y Hy). split; [assumption|]. apply elem_of_app. now left.
        -- split; [reflexivity|]. apply elem_of_app. right. left.
    + intros y [Hy | ->%list_elem_of_singleton]%elem_of_app.
      * destruct (Hall y Hy) as (g & Hg & Hyg).
        destruct (decide (key y = key x)) as [E|Hne].
        -- destruct (group_insert_here (key x) x (groupBy data key) Hnd)
             as (g' & Hg' & _ & Hincl).
           exists g'. rewrite E. split; [assumption|].
           apply (Hincl g); [now rewrite <- E | assumption].
        -- exists g. split; [now apply group_insert_other | assumption].
      * destruct (group_insert_here (key x) x (groupBy data key) Hnd)
          as (g' & Hg' & Hx & _).
        now exists g'.
Qed.
End Grouping.

Section Sorting.
Context {T : Type} (cmp : T → T → option comparison).

Hypothesis cmp_Gt : ∀ a b, cmp a b = Some Gt → cmp b a = Some Lt.
Hypothesis before_trans : ∀ a b c, before cmp a b → before cmp b c → before cmp a c.

Lemma sort_insert_elem (x : T) (l r : list T) :
  sort_insert cmp x l = Some r → ∀ y, y ∈ r ↔ y = x ∨ y ∈ l.
Proof.
  revert r. induction l as [|z l IH]; cbn; intros r.
  - intros [= <-] y. rewrite list_elem_of_singleton, elem_of_nil. tauto.
  - destruct (cmp x z) as [[]|]; try discriminate.
    + intros [= <-] y. now rewrite elem_of_cons.
    + intros [= <-] y. now rewrite elem_of_cons.
    + destruct (sort_insert cmp x l) as [r'|]; [|discriminate].
      intros [= <-] y. rewrite !elem_of_cons, (IH r' eq_refl). tauto.
Qed.

Lemma sort_elem (l r : list T) : sort cmp l = Some r → ∀ y, y ∈ r ↔ y ∈ l.
Proof.
  revert r. induction l as [|x l IH]; cbn; intros r.
  - now intros [= <-].
  - destruct (sort cmp l) as [r'|]; [|discriminate].
    intros Hins y. rewrite (sort_insert_elem _ _ _ Hins), elem_of_cons, (IH r' eq_refl).
    tauto.
Qed.

Lemma sort_insert_headed (x : T) (l r : list T) :
  headed cmp l → sort_insert cmp x l = Some r → headed cmp r.
Proof.
  destruct l as [|z l]; cbn.
  - intros _ [= <-] y Hy. now apply elem_of_nil in Hy.
  - intros Hz. destruct (cmp x z) as [[]|] eqn:E; try discriminate.
    + intros [= <-] y [-> | Hy]%elem_of_cons; [now right|].
      apply (before_trans _ z); [now right | now apply Hz].
    + intros [= <-] y [-> | Hy]%elem_of_cons; [now left|].
      apply (before_trans _ z); [now left | now apply Hz].
    + destruct (sort_insert cmp x l) as [r'|] eqn:Er; [|discriminate].
      intros [= <-] y Hy. apply (sort_insert_elem _ _ _ Er) in Hy as [-> | Hy].
      * left. now apply cmp_Gt.
      * now apply Hz.
Qed.

Lemma sort_headed (l r : list T) : sort cmp l = Some r → headed cmp r.
Proof.
  revert r. induction l as [|x l IH]; cbn; intros r.
  - now intros [= <-].
  - destruct (sort cmp l) as [r'|]; [|discriminate].
    apply sort_insert_headed. now apply IH.
Qed.

(** The element a sorted, non-empty array starts with. *)
Lemma sort_first (l r : list T) :
  sort cmp l = Some r → l ≠ [] →
  ∃ h, take 1 r = [h] ∧ h ∈ l ∧ ∀ y, y ∈ l → y = h ∨ before cmp h y.
Proof.
  intros Hs Hne. pose proof (sort_elem _ _ Hs) as Hel.
  pose proof (sort_headed _ _ Hs) as Hh.
  destruct r as [|h t].
  - destruct l as [|x l]; [contradiction|].
    exfalso. apply (elem_of_nil x), Hel. left.
  - exists h. split; [reflexivity|]. split; [apply Hel; left|].
    intros y Hy. apply Hel, elem_of_cons in Hy as [-> | Hy]; [now left|].
    right. now apply Hh.
Qed.
End Sorting.

(** ** The scanner keeps the highest version *)

Lemma highest_of_each_spec `{SemVer} (key : ILocalExtension → string)
    (groups : list (string * list ILocalExtension)) (result : list ILocalExtension) :
  semver_is_an_order →
  (∀ k g, (k, g) ∈ groups → g ≠ [] ∧ ∀ y, y ∈ g → key y = k) →
  highest_of_each groups.*2 = Some result →
  key <$> result = groups.*1
  ∧ (∀ k g, (k, g) ∈ groups →
       ∃ r, r ∈ result ∧ r ∈ g
            ∧ ∀ e, e ∈ g → e = r ∨ not_lower (version (manifest r)) (version (manifest e)))
  ∧ (∀ r, r ∈ result → ∃ k g, (k, g) ∈ groups ∧ r ∈ g).
Proof.
  intros [Hgt Htrans]. revert result.
  induction groups as [|[k g] groups IH]; intros result Hgroups; cbn.
  - intros [= <-]. split; [reflexivity|]. split.
    + intros k g Hin. now apply elem_of_nil in Hin.
    + intros r Hin. now apply elem_of_nil in Hin.
  - destruct (sort _ g) as [sorted|] eqn:Hsort; [|discriminate].
    destruct (highest_of_each groups.*2) as [rest|] eqn:Hrest; [|discriminate].
    intros [= <-].
    destruct (Hgroups k g) as [Hne Hkey]; [left|].
    destruct (sort_first
                (fun a b => rcompare (version (manifest a)) (version (manifest b)))
                (fun a b => Hgt _ _) (fun a b c => Htrans _ _ _)
                g sorted Hsort Hne) as (h & -> & Hh & Hmax).
    destruct (IH rest) as (IHkeys & IHcover & IHfrom); [|reflexivity|].
    { intros k' g' Hin. apply Hgroups. now right. }
    cbn. split; [now rewrite IHkeys, (proj2 (Hgroups k g ltac:(left)) h Hh)|].
    split.
    + intros k' g' [[= -> ->] | Hin]%elem_of_cons.
      * exists h. split; [left|]. split; [assumption|]. exact Hmax.
      * destruct (IHcover _ _ Hin) as (r & Hr & Hrg & Hrmax).
        exists r. split; [now right|]. now split.
    + intros r [-> | Hr]%elem_of_cons.
      * exists k, g. split; [left | assumption].
      * destruct (IHfrom r Hr) as (k' & g' & Hin & Hrg).
        exists k', g'. split; [now right | assumption].
Qed.

Lemma scanUserExtensions_result
    `{ExtensionManagementUtil} `{ExtensionNls} `{SemVer}
    (w w' : World) (result : list ILocalExtension) :
  semver_is_an_order →
  scanUserExtensions w = (Resolved result, w') →
  ∃ scanned : list ILocalExtension,
    scanExtensions User w = (Resolved scanned, w')
    ∧ NoDup (getGalleryExtensionIdFromLocal <$> result)
    ∧ (∀ r, r ∈ result → r ∈ scanned)
    ∧ (∀ e, e ∈ scanned →
         ∃ r, r ∈ result
              ∧ getGalleryExtensionIdFromLocal r = getGalleryExtensionIdFromLocal e
              ∧ (e = r ∨ not_lower (version (manifest r)) (version (manifest e))))
    ∧ userExtensions w' = userExtensions w.
Proof.
  intros Horder. unfold scanUserExtensions, bind.
  pose proof (keeps_dirs_scanExtensions User User w) as Hdirs.
  destruct (scanExtensions User w) as [[scanned|r] w1]; [|discriminate].
  unfold values.
  destruct (highest_of_each _) as [res|] eqn:Hres; [|discriminate].
  intros [= <- <-]. exists scanned. split; [reflexivity|].
  destruct (groupBy_spec getGalleryExtensionIdFromLocal scanned) as (Hnd & Hin & Hall).
  destruct (highest_of_each_spec getGalleryExtensionIdFromLocal _ _ Horder
              (fun k g Hg => conj (proj1 (Hin k g Hg))
                               (fun y Hy => proj1 (proj2 (Hin k g Hg) y Hy)))
              Hres) as (Hkeys & Hcover & Hfrom).
  split; [now rewrite Hkeys|]. split; [|split].
  - intros r Hr. destruct (Hfrom r Hr) as (k & g & Hg & Hrg).
    now apply (proj2 (Hin k g Hg)).
  - intros e He. destruct (Hall e He) as (g & Hg & Heg).
    destruct (Hcover _ _ Hg) as (r & Hr & Hrg & Hmax).
    exists r. split; [assumption|]. split; [|now apply Hmax].
    now apply (proj2 (Hin _ g Hg)).
  - exact Hdirs.
Qed.

Lemma sort_insert_total {T} (cmp : T → T → option comparison) (x : T) (l : list T) :
  (∀ y, y ∈ l → cmp x y ≠ None) → ∃ r, sort_insert cmp x l = Some r.
Proof.
  induction l as [|y l IH]; cbn; intros Hc; [now eexists|].
  destruct (cmp x y) as [[]|] eqn:E.
  - now eexists.
  - now eexists.
  - destruct IH as [r ->]; [|now eexists].
    intros z Hz. apply Hc. now right.
  - exfalso. apply (Hc y); [left | assumption].
Qed.

Lemma sort_total {T} (cmp : T → T → option comparison) (l : list T) :
  (∀ a b, a ∈ l → b ∈ l → cmp a b ≠ None) → ∃ r, sort cmp l = Some r.
Proof.
  induction l as [|x l IH]; cbn; intros Hc; [now eexists|].
  destruct IH as [r Hr].
  { intros a b Ha Hb. apply Hc; now right. }
  rewrite Hr. apply sort_insert_total. intros y Hy.
  apply Hc; [left|]. right. now apply (sort_elem cmp l r Hr).
Qed.

Lemma highest_of_each_total `{SemVer} (byId : list (list ILocalExtension)) :
  (∀ g a b, g ∈ byId → a ∈ g → b ∈ g →
     rcompare (version (manifest a)) (version (manifest b)) ≠ None) →
  ∃ result, highest_of_each byId = Some result.
Proof.
  induction byId as [|g byId IH]; cbn; intros Hc; [now eexists|].
  destruct (sort_total
              (fun a b => rcompare (version (manifest a)) (version (manifest b))) g)
    as [sorted ->].
  { intros a b. apply Hc. left. }
  destruct IH as [rest ->]; [|now eexists].
  intros g' a b Hg'. apply Hc. now right.
Qed.

Lemma scan_each_resolves `{ExtensionManagementUtil} `{ExtensionNls}
    (t : LocalExtensionType) (i : string) (w : World) :
  ∃ o w', scan_each t i w = (Resolved o, w').
Proof.
  unfold scan_each, catch, then2.
  match goal with |- context [match ?p w with _ => _ end] =>
    destruct (p w) as [[o|r] w1] end; cbn; eauto.
Qed.

Lemma settle_all_resolved {A} (ps : list (M A)) (w : World) :
  Forall (fun p => ∀ w, ∃ a w', p w = (Resolved a, w')) ps →
  ∃ os w', settle_all ps w = (Resolved os, w') ∧ rejected_of os = [].
Proof.
  intros Hall. revert w. induction Hall as [|p ps Hp _ IH]; intros w; cbn.
  - now exists [], w.
  - destruct (Hp w) as (a & w1 & ->). destruct (IH w1) as (os & w2 & -> & Hos).
    exists (Resolved a :: os), w2. split; [reflexivity|]. exact Hos.
Qed.

Lemma join_resolves {A} (ps : list (M A)) (w : World) :
  Forall (fun p => ∀ w, ∃ a w', p w = (Resolved a, w')) ps →
  ∃ l w', join ps w = (Resolved l, w').
Proof.
  intros Hall. destruct (settle_all_resolved ps w Hall) as (os & w' & E & Hos).
  unfold join, bind. rewrite E, Hos. now eexists _, _.
Qed.

(** The scan of a root gives a result whenever the index can be read. *)
Lemma scanExtensions_resolves `{ExtensionManagementUtil} `{ExtensionNls}
    (t : LocalExtensionType) (w : World) (obsolete : Obsolete) :
  index_of_file (obsoleteFile w) = Some obsolete →
  ∃ scanned w', scanExtensions t w = (Resolved scanned, w').
Proof.
  intros Hread. unfold scanExtensions, scanExtensionFolders, getObsoleteExtensions.
  unfold bind at 1 2. rewrite withObsoleteExtensions_access.
  unfold index_of_file in Hread.
  destruct (read_raw (obsoleteFile w)) as [raw|r]; [|discriminate].
  cbn [fst snd]. unfold bind at 1. cbn [get ret]. unfold bind at 1.
  match goal with |- context [join ?ps ?w0] =>
    destruct (join_resolves ps w0) as (l & w' & ->) end.
  - apply List.Forall_forall. intros p Hp. apply in_map_iff in Hp as (i & <- & _).
    intros w0. apply scan_each_resolves.
  - now eexists _, _.
Qed.

(** C3.  Provided the index can be read, the directories of the user
    root are scanned; provided the versions met are valid, the scan of
    the user extensions gives a result.  A result has at most one record
    for an identifier; its records are records of the scanned
    directories; every scanned record is represented by the record of its
    identifier, which is that record or one whose version is not lower;
    and no directory is removed from the disk. *)
Theorem scanUserExtensions_keeps_highest
    `{ExtensionManagementUtil} `{ExtensionNls} `{SemVer} (w : World) :
  semver_is_an_order →
  (∀ obsolete : Obsolete,
     index_of_file (obsoleteFile w) = Some obsolete →
     ∃ (scanned : list ILocalExtension) (w1 : World),
       scanExtensions User w = (Resolved scanned, w1)
       ∧ ((∀ a b, a ∈ scanned → b ∈ scanned →
             rcompare (version (manifest a)) (version (manifest b)) ≠ None) →
          ∃ result, scanUserExtensions w = (Resolved result, w1)))
  ∧ (∀ (result : list ILocalExtension) (w' : World),
       scanUserExtensions w = (Resolved result, w') →
       ∃ scanned : list ILocalExtension,
         scanExtensions User w = (Resolved scanned, w')
         ∧ NoDup (getGalleryExtensionIdFromLocal <$> result)
         ∧ (∀ r, r ∈ result → r ∈ scanned)
         ∧ (∀ e, e ∈ scanned →
              ∃ r, r ∈ result
                   ∧ getGalleryExtensionIdFromLocal r = getGalleryExtensionIdFromLocal e
                   ∧ (e = r ∨ not_lower (version (manifest r)) (version (manifest e))))
         ∧ userExtensions w' = userExtensions w).
Proof.
  intros Horder. split.
  - intros obsolete Hread.
    destruct (scanExtensions_resolves User w obsolete Hread) as (scanned & w1 & Hscan).
    exists scanned, w1. split; [assumption|]. intros Hvalid.
    unfold scanUserExtensions, bind. rewrite Hscan.
    destruct (groupBy_spec getGalleryExtensionIdFromLocal scanned) as (_ & Hin & _).
    destruct (highest_of_each_total
                (values (groupBy scanned getGalleryExtensionIdFromLocal)))
      as [result ->]; [|now eexists].
    intros g a b Hg Ha Hb. unfold values in Hg.
    apply list_elem_of_fmap in Hg as ([k g'] & -> & Hg).
    apply Hvalid; now apply (proj2 (Hin k g' Hg)).
  - intros result w'. now apply scanUserExtensions_result.
Qed.

Lemma reference_compare_before (x y : N * N * N) :
  (ReferenceSemVer.compare x y = Lt ∨ ReferenceSemVer.compare x y = Eq)
  ↔ ReferenceSemVer.lex_le x y.
Proof.
  unfold ReferenceSemVer.compare, ReferenceSemVer.lex_le.
  destruct (N.compare_spec x.1.1 y.1.1), (N.compare_spec x.1.2 y.1.2),
    (N.compare_spec x.2 y.2); split; intros; try lia; try tauto;
    intuition (try discriminate; try lia).
Qed.

Lemma reference_compare_Gt (x y : N * N * N) :
  ReferenceSemVer.compare x y = Gt → ReferenceSemVer.compare y x = Lt.
Proof.
  unfold ReferenceSemVer.compare.
  rewrite (N.compare_antisym x.1.1), (N.compare_antisym x.1.2), (N.compare_antisym x.2).
  destruct (x.1.1 ?= y.1.1)%N, (x.1.2 ?= y.1.2)%N, (x.2 ?= y.2)%N; cbn; congruence.
Qed.

Lemma reference_semver_is_an_order : @semver_is_an_order ReferenceSemVer.semver.
Proof.
  split.
  - intros a b. cbn. destruct (ReferenceSemVer.parse a), (ReferenceSemVer.parse b);
      try discriminate.
    intros [= E]. f_equal. now apply reference_compare_Gt.
  - intros a b c. unfold not_lower, before. cbn.
    destruct (ReferenceSemVer.parse a) as [x|], (ReferenceSemVer.parse b) as [y|],
      (ReferenceSemVer.parse c) as [z|]; try (intros [|]; discriminate);
      try (intros _ [|]; discriminate).
    intros Hab Hbc.
    assert (ReferenceSemVer.lex_le y x) as Hyx
      by (apply reference_compare_before; destruct Hab as [[= ->]|[= ->]]; auto).
    assert (ReferenceSemVer.lex_le z y) as Hzy
      by (apply reference_compare_before; destruct Hbc as [[= ->]|[= ->]]; auto).
    assert (ReferenceSemVer.lex_le z x) as Hzx
      by (unfold ReferenceSemVer.lex_le in *; lia).
    apply reference_compare_before in Hzx as [-> | ->]; auto.
Qed.

Lemma scanUserExtensions_keeps_highest_witness :
  ∃ (result : list ILocalExtension) (w' : World),
    @scanUserExtensions Reference.util Reference.nls ReferenceSemVer.semver
      ReferenceSemVer.world_two_versions = (Resolved result, w')
    ∧ (fun r => version (manifest r)) <$> result = ["2.0.0"]
    ∧ ∃ scanned : list ILocalExtension,
        @scanExtensions Reference.util Reference.nls User
          ReferenceSemVer.world_two_versions = (Resolved scanned, w')
        ∧ NoDup (@getGalleryExtensionIdFromLocal Reference.util <$> result)
        ∧ (∀ r, r ∈ result → r ∈ scanned)
        ∧ (∀ e, e ∈ scanned →
             ∃ r, r ∈ result
                  ∧ @getGalleryExtensionIdFromLocal Reference.util r
                    = @getGalleryExtensionIdFromLocal Reference.util e
                  ∧ (e = r
                     ∨ @not_lower ReferenceSemVer.semver
                         (version (manifest r)) (version (manifest e))))
        ∧ userExtensions w' = userExtensions ReferenceSemVer.world_two_versions.
Proof.
  eexists _, _. split; [vm_compute; reflexivity|]. split; [reflexivity|].
  apply (proj2 (@scanUserExtensions_keeps_highest Reference.util Reference.nls
                  ReferenceSemVer.semver ReferenceSemVer.world_two_versions
                  reference_semver_is_an_order)).
  vm_compute. reflexivity.
Defined.


(** ** Install from the registry: rollback *)












Lemma fire_onDidInstall_code `{ExtensionManagementUtil}
    (extensions : list IGalleryExtension) (index : nat)
    (local : option (list ILocalExtension)) (code : ErrorCode) (w : World) :
  fire_onDidInstall extensions index local (Some code) w
  = (Resolved tt, set_trace (trace w ++ failure_reports extensions code) w).
Proof.
  revert index w. induction extensions as [|gallery rest IH]; intros index w; cbn.
  - unfold ret. rewrite app_nil_r. now destruct w.
  - unfold bind, emit. rewrite IH. cbn. now rewrite <- app_assoc.
Qed.



(** In the example the rollback leaves no directory behind. *)
Example batch_install_leaves_nothing :
  userExtensions
    (@downloadAndInstallExtensions Reference.util Reference.nls ReferenceSemVer.semver
       ReferenceGallery.gallery
       [ReferenceGallery.one; ReferenceGallery.two; ReferenceGallery.three]
       ReferenceGallery.world_second_broken).2
  = ∅.
Proof. vm_compute. reflexivity. Qed.

(** ** The dependency closure offered for removal *)

Lemma filter_length_le {A} (f g : A → bool) (l : list A) :
  (∀ x, f x = true → g x = true) →
  (length (List.filter f l) ≤ length (List.filter g l))%nat.
Proof.
  intros Himp. induction l as [|x l IH]; cbn; [lia|].
  destruct (f x) eqn:Ef.
  - rewrite (Himp x Ef). cbn. lia.
  - destruct (g x); cbn; lia.
Qed.

Lemma filter_length_lt {A} (f g : A → bool) (l : list A) (x : A) :
  (∀ y, f y = true → g y = true) → In x l → g x = true → f x = false →
  (length (List.filter f l) < length (List.filter g l))%nat.
Proof.
  intros Himp Hin Hg Hf. induction l as [|y l IH]; [contradiction|].
  cbn. destruct Hin as [-> | Hin].
  - rewrite Hf, Hg. cbn. pose proof (filter_length_le f g l Himp). lia.
  - specialize (IH Hin). destruct (f y) eqn:Ef.
    + rewrite (Himp y Ef). cbn. lia.
    + destruct (g y); cbn; lia.
Qed.

Lemma filter_none {A} (f : A → bool) (l : list A) :
  (∀ x, f x = false) → List.filter f l = [].
Proof.
  intros Hf. induction l as [|x l IH]; cbn; [reflexivity|]. now rewrite Hf.
Qed.

Lemma member_app (c n : list ILocalExtension) (u : ILocalExtension) :
  member (c ++ n) u = member c u || member n u.
Proof. unfold member. apply existsb_app. Qed.

Lemma same_refl (u : ILocalExtension) : same u u = true.
Proof. unfold same. apply Nat.eqb_refl. Qed.

Lemma unvisited_app_le (installed c n : list ILocalExtension) :
  (length (unvisited installed (c ++ n)) ≤ length (unvisited installed c))%nat.
Proof.
  apply filter_length_le. intros u. rewrite member_app.
  destruct (member c u); [discriminate | reflexivity].
Qed.

Lemma unvisited_push_lt (installed c : list ILocalExtension) (v : ILocalExtension) :
  In v installed → member c v = false →
  (length (unvisited installed (c ++ [v])) < length (unvisited installed c))%nat.
Proof.
  intros Hin Hv. apply (filter_length_lt _ _ _ v); [|assumption| |].
  - intros u. rewrite member_app. destruct (member c u); [discriminate | reflexivity].
  - now rewrite Hv.
  - rewrite member_app, Hv. cbn. now rewrite same_refl.
Qed.

Section Closure.
Context `{ExtensionManagementUtil} (installed : list ILocalExtension).
Hypothesis distinct_objects : NoDup (oid <$> installed).

Lemma same_installed (a b : ILocalExtension) :
  a ∈ installed → b ∈ installed → same a b = true → a = b.
Proof.
  intros Ha Hb Hs. apply Nat.eqb_eq in Hs.
  clear -distinct_objects Ha Hb Hs. induction installed as [|x l IH]; [now apply elem_of_nil in Ha|].
  cbn in distinct_objects. apply NoDup_cons in distinct_objects as [Hx Hl].
  apply elem_of_cons in Ha as [-> | Ha], Hb as [-> | Hb].
  - reflexivity.
  - exfalso. apply Hx. rewrite Hs. apply list_elem_of_fmap. now exists b.
  - exfalso. apply Hx. rewrite <- Hs. apply list_elem_of_fmap. now exists a.
  - now apply IH.
Qed.

Lemma member_elem (c : list ILocalExtension) (u : ILocalExtension) :
  (∀ x, x ∈ c → x ∈ installed) → u ∈ installed →
  member c u = true ↔ u ∈ c.
Proof.
  intros Hc Hu. unfold member. rewrite existsb_exists. split.
  - intros (x & Hx & Hs). apply list_elem_of_In in Hx.
    now rewrite <- (same_installed x u (Hc x Hx) Hu Hs).
  - intros Hin. exists u. split; [now apply list_elem_of_In | apply same_refl].
Qed.

Lemma declared_installed (v d : ILocalExtension) :
  d ∈ declaredDependencies v installed → d ∈ installed.
Proof.
  unfold declaredDependencies. destruct (extensionDependencies (manifest v));
    [|intros Hd; now apply elem_of_nil in Hd].
  intros Hd. apply list_elem_of_In, filter_In in Hd as [Hd _].
  now apply list_elem_of_In.
Qed.

Lemma reaches_installed (v e : ILocalExtension) : reaches installed v e → e ∈ installed.
Proof. induction 1; [now apply (declared_installed v) | assumption]. Qed.

Lemma reaches_snoc (v u e : ILocalExtension) :
  reaches installed v u → e ∈ declaredDependencies u installed → reaches installed v e.
Proof.
  induction 1 as [v d Hd | v d u Hd Hr IH]; intros He.
  - apply (reaches_trans _ v d); [assumption | now apply reaches_step].
  - apply (reaches_trans _ v d); [assumption | now apply IH].
Qed.

Lemma loop_visit_all (fuel : nat) (todo c acc : list ILocalExtension) :
  (fix loop (todo checked depsOfDeps : list ILocalExtension) :=
     match todo with
     | [] => Some (depsOfDeps, checked)
     | dep :: rest =>
         match getDependenciesToUninstallRecursively fuel dep installed checked with
         | Some (found, checked') => loop rest checked' (depsOfDeps ++ found)
         | None => None
         end
     end) todo c acc
  = visit_all fuel installed todo c acc.
Proof.
  revert c acc. induction todo as [|dep rest IH]; intros c acc; [reflexivity|].
  cbn [visit_all].
  destruct (getDependenciesToUninstallRecursively fuel dep installed c)
    as [[found c']|]; [apply IH | reflexivity].
Qed.

(** The recursive call, unfolded once. *)
Lemma walk_unfold (fuel : nat) (v : ILocalExtension) (checked : list ILocalExtension) :
  getDependenciesToUninstallRecursively (S fuel) v installed checked
  = if member checked v then Some ([], checked)
    else match visit_all fuel installed (declaredDependencies v installed)
                 (checked ++ [v]) [] with
         | Some (depsOfDeps, checked') =>
             Some (declaredDependencies v installed ++ depsOfDeps, checked')
         | None => None
         end.
Proof.
  cbn [getDependenciesToUninstallRecursively]. rewrite indexOf_minus1, negb_involutive.
  fold (member checked v). destruct (member checked v); [reflexivity|].
  unfold declaredDependencies.
  destruct (extensionDependencies (manifest v)) as [deps|]; [|reflexivity].
  destruct deps as [|dep0 deps].
  { cbn [length Nat.eqb]. rewrite filter_none; [reflexivity|]. now intros i. }
  cbn [length Nat.eqb]. now rewrite loop_visit_all.
Qed.

Lemma walk_zero (v : ILocalExtension) (checked : list ILocalExtension) :
  getDependenciesToUninstallRecursively 0 v installed checked
  = if member checked v then Some ([], checked) else None.
Proof.
  cbn [getDependenciesToUninstallRecursively]. rewrite indexOf_minus1, negb_involutive.
  reflexivity.
Qed.

Lemma walk_spec (fuel : nat) :
  ∀ (v : ILocalExtension) (checked : list ILocalExtension),
    v ∈ installed → (∀ x, x ∈ checked → x ∈ installed) →
    (length (unvisited installed checked) ≤ fuel)%nat →
    ∃ found checked',
      getDependenciesToUninstallRecursively fuel v installed checked
      = Some (found, checked')
      ∧ walked installed [v] checked found checked'.
Proof.
  induction fuel as [|fuel IH]; intros v checked Hv Hc Hfuel.
  - rewrite walk_zero. destruct (member checked v) eqn:Hm.
    + exists [], checked. split; [reflexivity|]. exists [].
      rewrite app_nil_r.
      split; [reflexivity|]. split; [intros u Hu; now apply elem_of_nil in Hu|].
      split.
      { intros t ->%list_elem_of_singleton. now apply member_elem. }
      split; [intros u d Hu; now apply elem_of_nil in Hu|].
      split.
      { intros e. split; [intros He; now apply elem_of_nil in He|].
        intros (u & Hu & _). now apply elem_of_nil in Hu. }
      intros u Hu. now apply elem_of_nil in Hu.
    + exfalso.
      assert (length (unvisited installed checked) ≠ 0) as Hnz; [|lia].
      intros Hz. apply length_zero_iff_nil in Hz.
      assert (In v (unvisited installed checked)) as Hin
        by (apply filter_In; split; [now apply list_elem_of_In | now rewrite Hm]).
      rewrite Hz in Hin. contradiction.
  - rewrite walk_unfold. destruct (member checked v) eqn:Hm.
    + exists [], checked. split; [reflexivity|]. exists [].
      rewrite app_nil_r.
      split; [reflexivity|]. split; [intros u Hu; now apply elem_of_nil in Hu|].
      split.
      { intros t ->%list_elem_of_singleton. now apply member_elem. }
      split; [intros u d Hu; now apply elem_of_nil in Hu|].
      split.
      { intros e. split; [intros He; now apply elem_of_nil in He|].
        intros (u & Hu & _). now apply elem_of_nil in Hu. }
      intros u Hu. now apply elem_of_nil in Hu.
    + (* the loop over the declared dependencies *)
      assert (∀ (todo c acc : list ILocalExtension),
                (∀ t, t ∈ todo → t ∈ installed) →
                (∀ x, x ∈ c → x ∈ installed) →
                (length (unvisited installed c) ≤ fuel)%nat →
                ∃ acc' c',
                  visit_all fuel installed todo c acc = Some (acc', c')
                  ∧ ∃ new,
                      c' = c ++ new
                      ∧ (∀ u, u ∈ new → u ∈ installed)
                      ∧ (∀ t, t ∈ todo → t ∈ c')
                      ∧ (∀ u d, u ∈ new → d ∈ declaredDependencies u installed → d ∈ c')
                      ∧ (∀ e, e ∈ acc'
                              ↔ e ∈ acc
                                ∨ ∃ u, u ∈ new ∧ e ∈ declaredDependencies u installed)
                      ∧ (∀ u, u ∈ new →
                              ∃ t, t ∈ todo ∧ (u = t ∨ reaches installed t u))) as Hloop.
      { induction todo as [|dep rest IHtodo]; intros c acc Htodo Hcin Hcf.
        - exists acc, c. split; [reflexivity|]. exists [].
          split; [now rewrite app_nil_r|].
          split; [intros u Hu; now apply elem_of_nil in Hu|].
          split; [intros t Ht; now apply elem_of_nil in Ht|].
          split; [intros u d Hu; now apply elem_of_nil in Hu|].
          split.
          { intros e. split; [now left|]. intros [He | (u & Hu & _)]; [assumption|].
            now apply elem_of_nil in Hu. }
          intros u Hu. now apply elem_of_nil in Hu.
        - cbn [visit_all].
          destruct (IH dep c (Htodo dep ltac:(left)) Hcin Hcf)
            as (found & c1 & -> & new1 & -> & Hn1 & Hr1 & Hcl1 & Hf1 & Hre1).
          destruct (IHtodo (c ++ new1) (acc ++ found)) as
            (acc' & c2 & -> & new2 & -> & Hn2 & Hr2 & Hcl2 & Hf2 & Hre2).
          { intros t Ht. apply Htodo. now right. }
          { intros x [Hx | Hx]%elem_of_app; [now apply Hcin | now apply Hn1]. }
          { pose proof (unvisited_app_le installed c new1). lia. }
          exists acc', ((c ++ new1) ++ new2). split; [reflexivity|].
          exists (new1 ++ new2). split; [now rewrite app_assoc|].
          split.
          { intros u [Hu | Hu]%elem_of_app; [now apply Hn1 | now apply Hn2]. }
          split.
          { intros t [-> | Ht]%elem_of_cons.
            - apply elem_of_app. left. apply Hr1. left.
            - now apply Hr2. }
          split.
          { intros u d [Hu | Hu]%elem_of_app Hd.
            - apply elem_of_app. left. now apply (Hcl1 u).
            - now apply (Hcl2 u). }
          split.
          { intros e. rewrite Hf2, elem_of_app, Hf1. split.
            - intros [[He | (u & Hu & He)] | (u & Hu & He)].
              + now left.
              + right. exists u. split; [apply elem_of_app; now left | assumption].
              + right. exists u. split; [apply elem_of_app; now right | assumption].
            - intros [He | (u & [Hu | Hu]%elem_of_app & He)].
              + left. now left.
              + left. right. now exists u.
              + right. now exists u. }
          intros u [Hu | Hu]%elem_of_app.
          + destruct (Hre1 u Hu) as (t & ->%list_elem_of_singleton & Ht).
            exists dep. split; [left | assumption].
          + destruct (Hre2 u Hu) as (t & Ht & Hut).
            exists t. split; [now right | assumption]. }
      destruct (Hloop (declaredDependencies v installed) (checked ++ [v]) [])
        as (dod & c' & -> & new & -> & Hn & Hr & Hcl & Hf & Hre).
      { intros t. apply declared_installed. }
      { intros x [Hx | ->%list_elem_of_singleton]%elem_of_app; [now apply Hc | assumption]. }
      { pose proof (unvisited_push_lt installed checked v
                      (proj1 (list_elem_of_In _ _) Hv) Hm). lia. }
      exists (declaredDependencies v installed ++ dod), ((checked ++ [v]) ++ new).
      split; [reflexivity|]. exists (v :: new).
      split; [now rewrite <- app_assoc|].
      split.
      { intros u [-> | Hu]%elem_of_cons; [assumption | now apply Hn]. }
      split.
      { intros t ->%list_elem_of_singleton.
        apply elem_of_app. left. apply elem_of_app. right. left. }
      split.
      { intros u d [-> | Hu]%elem_of_cons Hd; [now apply Hr | now apply (Hcl u)]. }
      split.
      { intros e. rewrite elem_of_app, Hf. split.
        - intros [He | [He | (u & Hu & He)]].
          + exists v. split; [left | assumption].
          + now apply elem_of_nil in He.
          + exists u. split; [now right | assumption].
        - intros (u & [-> | Hu]%elem_of_cons & He); [now left|].
          right. right. now exists u. }
      intros u [-> | Hu]%elem_of_cons.
      * exists v. split; [left | now left].
      * destruct (Hre u Hu) as (t & Ht & [-> | Htu]).
        -- exists v. split; [left|]. right. now apply reaches_step.
        -- exists v. split; [left|]. right. now apply (reaches_trans _ v t).
Qed.
End Closure.

Lemma walk_from_the_extension `{ExtensionManagementUtil}
    (installed : list ILocalExtension) (extension : ILocalExtension) :
  NoDup (oid <$> installed) →
  extension ∈ installed →
  ∃ found checked,
    getDependenciesToUninstallRecursively (S (length installed)) extension installed []
    = Some (found, checked)
    ∧ ∀ e, e ∈ found ↔ reaches installed extension e.
Proof.
  intros Hnd Hext.
  destruct (walk_spec installed Hnd (S (length installed)) extension [] Hext)
    as (found & checked & Hrun & new & Hnew & Hin & Hroot & Hclosed & Hfound & Hfrom).
  { intros x Hx. now apply elem_of_nil in Hx. }
  { unfold unvisited. pose proof (List.filter_length_le
                                    (fun u => negb (member [] u)) installed). lia. }
  cbn in Hnew. subst checked.
  exists found, new. split; [assumption|].
  intros e. rewrite Hfound. split.
  - intros (u & Hu & He).
    destruct (Hfrom u Hu) as (t & ->%list_elem_of_singleton & [-> | Hreach]).
    + now apply reaches_step.
    + now apply (reaches_snoc installed extension u).
  - intros Hreach.
    assert (∀ v, reaches installed v e → v ∈ new →
                 ∃ u, u ∈ new ∧ e ∈ declaredDependencies u installed) as Hvisited.
    { clear -Hclosed. induction 1 as [v d Hd | v d e Hd Hreach IH]; intros Hv.
      - now exists v.
      - apply IH. now apply (Hclosed v). }
    apply (Hvisited extension Hreach). apply Hroot. left.
Qed.

Lemma distinct_from_elem (seen l : list ILocalExtension) (e : ILocalExtension) :
  e ∈ distinct_from seen l → e ∈ l ∧ member seen e = false.
Proof.
  revert seen. induction l as [|x l IH]; intros seen; cbn.
  - intros He. now apply elem_of_nil in He.
  - fold (member seen x). destruct (member seen x) eqn:Hx.
    + intros He. destruct (IH _ He). split; [now right | assumption].
    + intros [-> | He]%elem_of_cons; [split; [left | assumption]|].
      destruct (IH _ He) as [Hl Hm]. split; [now right|].
      rewrite member_app in Hm. now apply orb_false_iff in Hm as [? _].
Qed.

Lemma distinct_from_NoDup (seen l : list ILocalExtension) : NoDup (distinct_from seen l).
Proof.
  revert seen. induction l as [|x l IH]; intros seen; cbn; [constructor|].
  fold (member seen x). destruct (member seen x); [apply IH|].
  apply NoDup_cons. split; [|apply IH].
  intros Hx. apply distinct_from_elem in Hx as [_ Hm].
  rewrite member_app in Hm. apply orb_false_iff in Hm as [_ Hm].
  cbn in Hm. now rewrite same_refl in Hm.
Qed.

Lemma distinct_from_keeps (installed seen l : list ILocalExtension) (e : ILocalExtension) :
  NoDup (oid <$> installed) → (∀ x, x ∈ l → x ∈ installed) →
  e ∈ l → member seen e = false → e ∈ distinct_from seen l.
Proof.
  intros Hnd. revert seen. induction l as [|x l IH]; intros seen Hl He Hm.
  - now apply elem_of_nil in He.
  - cbn. fold (member seen x).
    apply elem_of_cons in He as [-> | He].
    + rewrite Hm. left.
    + destruct (member seen x) eqn:Hx.
      * apply IH; [intros y Hy; apply Hl; now right | assumption | assumption].
      * destruct (same x e) eqn:Hs.
        -- rewrite (same_installed installed Hnd x e); [left| | |assumption];
             apply Hl; [left | now right].
        -- right. apply IH; [intros y Hy; apply Hl; now right | assumption|].
           rewrite member_app, Hm. cbn. now rewrite Hs.
Qed.

Lemma NoDup_List_filter {A} (f : A → bool) (l : list A) :
  NoDup l → NoDup (List.filter f l).
Proof.
  induction 1 as [|x l Hx Hl IH]; cbn; [constructor|].
  destruct (f x); [|assumption]. constructor; [|assumption].
  intros Hin. apply Hx. apply list_elem_of_In, filter_In in Hin as [Hin _].
  now apply list_elem_of_In.
Qed.

(** X1.  The dependencies that "uninstall all" and a forced uninstall
    take along are the installed extensions that the extension needs,
    directly or through others, without the extension itself, each of
    them once. *)
Theorem dependenciesOf_is_the_closure `{ExtensionManagementUtil}
    (installed : list ILocalExtension) (extension : ILocalExtension) :
  NoDup (oid <$> installed) →
  extension ∈ installed →
  NoDup (dependenciesOf extension installed)
  ∧ ∀ e, e ∈ dependenciesOf extension installed
         ↔ reaches installed extension e ∧ e ≠ extension.
Proof.
  intros Hnd Hext. unfold dependenciesOf.
  destruct (walk_from_the_extension installed extension Hnd Hext)
    as (found & checked & -> & Hfound).
  split.
  - apply NoDup_List_filter, distinct_from_NoDup.
  - intros e. rewrite list_elem_of_In, filter_In, <- list_elem_of_In. split.
    + intros [He Hne]. apply distinct_from_elem in He as [He _].
      apply Hfound in He. split; [assumption|].
      intros ->. now rewrite same_refl in Hne.
    + intros [Hreach Hne]. split.
      * apply (distinct_from_keeps installed); [assumption| | |reflexivity].
        -- intros x Hx. apply Hfound in Hx. now apply (reaches_installed installed extension).
        -- now apply Hfound.
      * destruct (same e extension) eqn:Hs; [|reflexivity].
        exfalso. apply Hne. apply (same_installed installed Hnd); [|assumption..].
        now apply (reaches_installed installed extension).
Qed.

Lemma reference_cycle_distinct : NoDup (oid <$> ReferenceCycle.installed).
Proof.
  change (NoDup [0; 1; 2; 3]).
  repeat (apply NoDup_cons; split;
          [rewrite ?elem_of_cons, elem_of_nil; intuition discriminate|]).
  constructor.
Qed.

(** X2.  The walk over the declared dependencies returns, also when the
    dependencies form cycles: one level of recursion for each installed
    extension is enough.  What it returns are exactly the installed
    extensions that the extension needs, directly or through others. *)
Theorem dependency_walk_is_the_closure `{ExtensionManagementUtil}
    (installed : list ILocalExtension) (extension : ILocalExtension) :
  NoDup (oid <$> installed) →
  extension ∈ installed →
  ∃ found checked,
    getDependenciesToUninstallRecursively (S (length installed)) extension installed []
    = Some (found, checked)
    ∧ ∀ e, e ∈ found ↔ reaches installed extension e.
Proof. apply walk_from_the_extension. Qed.

Lemma dependency_walk_is_the_closure_witness :
  ∃ found checked,
    @getDependenciesToUninstallRecursively Reference.util
      (S (length ReferenceCycle.installed)) ReferenceCycle.a ReferenceCycle.installed []
    = Some (found, checked)
    ∧ found = [ReferenceCycle.b; ReferenceCycle.a; ReferenceCycle.c]
    ∧ ∀ e, e ∈ found ↔ @reaches Reference.util ReferenceCycle.installed ReferenceCycle.a e.
Proof.
  destruct (@dependency_walk_is_the_closure Reference.util ReferenceCycle.installed
              ReferenceCycle.a reference_cycle_distinct ltac:(left))
    as (found & checked & Hrun & Hfound).
  exists found, checked. split; [assumption|]. split; [|assumption].
  vm_compute in Hrun. now injection Hrun as <- _.
Defined.

Lemma dependenciesOf_is_the_closure_witness :
  @dependenciesOf Reference.util ReferenceCycle.a ReferenceCycle.installed
  = [ReferenceCycle.b; ReferenceCycle.c]
  ∧ NoDup (@dependenciesOf Reference.util ReferenceCycle.a ReferenceCycle.installed)
  ∧ ∀ e, e ∈ @dependenciesOf Reference.util ReferenceCycle.a ReferenceCycle.installed
         ↔ @reaches Reference.util ReferenceCycle.installed ReferenceCycle.a e
           ∧ e ≠ ReferenceCycle.a.
Proof.
  split; [vm_compute; reflexivity|].
  exact (@dependenciesOf_is_the_closure Reference.util ReferenceCycle.installed
           ReferenceCycle.a reference_cycle_distinct ltac:(left)).
Defined.

(** ** Removal of directories *)



(** [doUninstall] on a readable index: whether the directory was there
    or not, afterwards it is not, and nothing else is removed. *)
Lemma preUninstallExtension_run (d : ILocalExtension) (w : World) :
  preUninstallExtension d w
  = match userExtensions w !! id d with
    | Some _ => (Resolved tt, set_trace (trace w ++ [onUninstallExtension (id d)]) w)
    | None => (Rejected (VError (new_Error "Could not find extension")), w)
    end.
Proof.
  unfold preUninstallExtension, exists_extension, bind.
  destruct (userExtensions w !! id d) as [dir|] eqn:Hdir.
  - now rewrite bool_decide_eq_true_2 by eauto.
  - now rewrite bool_decide_eq_false_2 by (intros [? ?]; discriminate).
Qed.








(** ** The events of an uninstall *)

Lemma monotone_uninstallExtension (i : string) : monotone (uninstallExtension i).
Proof.
  unfold uninstallExtension, setObsolete, unsetObsolete.
  apply monotone_bind; [apply monotone_withObsoleteExtensions|]. intros _.
  apply monotone_bind; [apply monotone_rimraf_extension|]. intros _.
  apply monotone_withObsoleteExtensions.
Qed.

Lemma monotone_postUninstallExtension (e : ILocalExtension) (c : option ErrorCode) :
  monotone (postUninstallExtension e c).
Proof. unfold postUninstallExtension. monotone_steps. Qed.

Lemma monotone_preUninstallExtension (e : ILocalExtension) :
  monotone (preUninstallExtension e).
Proof.
  intros w. rewrite preUninstallExtension_run.
  destruct (userExtensions w !! id e); [apply extends_set_trace | apply extends_refl].
Qed.

Lemma reported_run (extension : ILocalExtension) (work : M unit) (w : World) :
  let '(o, w1) := work w in
  reported extension work w
  = (o, set_trace
          (trace w1
             ++ match o with
                | Resolved _ =>
                    [reportStatistic (publisher (manifest extension))
                       (name (manifest extension)) (version (manifest extension));
                     onDidUninstallExtension (id extension) None]
                | Rejected _ => [onDidUninstallExtension (id extension) (Some LOCAL)]
                end) w1).
Proof.
  unfold reported, then2. destruct (work w) as [[[]|r] w1]; cbn.
  - unfold emit. cbn. now rewrite <- app_assoc.
  - reflexivity.
Qed.

Lemma reported_ends (extension : ILocalExtension) (work : M unit) (w : World) :
  monotone work →
  ∃ between,
    effects_since w (reported extension work w).2
      (between ++ [onDidUninstallExtension (id extension)
                     (code_of (reported extension work w).1)])
    ∧ (reported extension work w).1 = (work w).1.
Proof.
  intros Hwork. pose proof (reported_run extension work w) as Hrun.
  destruct (Hwork w) as [suffix Hsuffix]. destruct (work w) as [[[]|r] w1];
    rewrite Hrun; unfold effects_since in *; cbn in *; rewrite Hsuffix.
  - exists (suffix ++ [reportStatistic (publisher (manifest extension))
                         (name (manifest extension)) (version (manifest extension))]).
    split; [|reflexivity]. now rewrite <- !app_assoc.
  - exists suffix. split; [|reflexivity]. now rewrite <- !app_assoc.
Qed.

Lemma monotone_reported (extension : ILocalExtension) (work : M unit) :
  monotone work → monotone (reported extension work).
Proof.
  intros Hwork w. destruct (reported_ends extension work w Hwork) as (b & Hb & _).
  eexists. exact Hb.
Qed.

Lemma monotone_doUninstall (d : ILocalExtension) : monotone (doUninstall d).
Proof.
  apply (monotone_reported d). apply monotone_bind;
    [apply monotone_preUninstallExtension | intros _; apply monotone_uninstallExtension].
Qed.

Lemma monotone_uninstallWithDependencies `{ExtensionManagementUtil}
    (extension : ILocalExtension) (dependencies installed : list ILocalExtension) :
  monotone (uninstallWithDependencies extension dependencies installed).
Proof.
  unfold uninstallWithDependencies.
  destruct (Nat.ltb _ _); [apply monotone_wrapError|].
  apply monotone_bind; [|intros; apply monotone_ret].
  apply monotone_join. constructor; [apply monotone_uninstallExtension|].
  apply Forall_fmap, Forall_forall. intros d _. apply monotone_doUninstall.
Qed.

Lemma monotone_prompts `{ExtensionManagementUtil} `{IChoiceService}
    (extension : ILocalExtension) (installed : list ILocalExtension) (force : bool) :
  monotone (if hasDependencies extension installed
            then promptForDependenciesAndUninstall extension installed force
            else promptAndUninstall extension installed force).
Proof.
  unfold promptForDependenciesAndUninstall, promptAndUninstall.
  destruct (hasDependencies extension installed), force;
    try apply monotone_uninstallWithDependencies;
    (apply monotone_then2;
     [apply monotone_settled
     | intros value; repeat destruct (Z.eqb value _);
       first [apply monotone_uninstallWithDependencies | apply monotone_wrapError]
     | intros; apply monotone_wrapError]).
Qed.

(** X5.  However an uninstall goes, its last effect is the completion
    event of the extension: without an error code when the operation
    resolved, with [LOCAL] when it was rejected.  This holds for the
    removal of a dependency ([doUninstall]) and for the operation as a
    whole ([checkForDependenciesAndUninstall]), whatever the user answers
    and whether or not the directory exists.  The report of the
    statistic that precedes the event of a success is an effect that
    settles, as [postUninstallExtension] is embedded. *)
Theorem uninstall_always_reports_its_end `{ExtensionManagementUtil} `{IChoiceService}
    (extension : ILocalExtension) (installed : list ILocalExtension) (force : bool)
    (w : World) :
  (∃ between,
     effects_since w (checkForDependenciesAndUninstall extension installed force w).2
       (between
          ++ [onDidUninstallExtension (id extension)
                (code_of (checkForDependenciesAndUninstall extension installed force w).1)]))
  ∧ (∃ between,
       effects_since w (doUninstall extension w).2
         (between
            ++ [onDidUninstallExtension (id extension)
                  (code_of (doUninstall extension w).1)])).
Proof.
  split.
  - destruct (reported_ends extension
                (preUninstallExtension extension;;
                 if hasDependencies extension installed
                 then promptForDependenciesAndUninstall extension installed force
                 else promptAndUninstall extension installed force) w)
      as (between & Hends & _).
    { apply monotone_bind; [apply monotone_preUninstallExtension|].
      intros _. apply monotone_prompts. }
    now exists between.
  - destruct (reported_ends extension
                (preUninstallExtension extension;; uninstallExtension (id extension)) w)
      as (between & Hends & _).
    { apply monotone_bind; [apply monotone_preUninstallExtension|].
      intros _. apply monotone_uninstallExtension. }
    now exists between.
Qed.

(** X6.  An uninstall of an extension whose directory is not there is
    rejected with "Could not find extension": the start is not
    announced, nothing is removed, and the only effect is the completion
    event with [LOCAL]. *)
Theorem uninstall_of_missing_directory `{ExtensionManagementUtil} `{IChoiceService}
    (extension : ILocalExtension) (installed : list ILocalExtension) (force : bool)
    (w : World) :
  userExtensions w !! id extension = None →
  let failed :=
    (Rejected (VError (new_Error "Could not find extension")),
     set_trace (trace w ++ [onDidUninstallExtension (id extension) (Some LOCAL)]) w) in
  checkForDependenciesAndUninstall extension installed force w = failed
  ∧ doUninstall extension w = failed.
Proof.
  intros Hmissing failed. split.
  - pose proof (reported_run extension
                  (preUninstallExtension extension;;
                   if hasDependencies extension installed
                   then promptForDependenciesAndUninstall extension installed force
                   else promptAndUninstall extension installed force) w) as Hrun.
    unfold bind at 1 in Hrun. rewrite preUninstallExtension_run, Hmissing in Hrun.
    exact Hrun.
  - pose proof (reported_run extension
                  (preUninstallExtension extension;; uninstallExtension (id extension)) w)
      as Hrun.
    unfold bind at 1 in Hrun. rewrite preUninstallExtension_run, Hmissing in Hrun.
    exact Hrun.
Qed.

Lemma uninstall_of_missing_directory_witness :
  let failed :=
    (Rejected (VError (new_Error "Could not find extension")),
     set_trace (trace ReferenceWorlds.world_fresh
                  ++ [onDidUninstallExtension (id ReferenceCycle.a) (Some LOCAL)])
       ReferenceWorlds.world_fresh) in
  @checkForDependenciesAndUninstall Reference.util ReferenceChoice.cancels
    ReferenceCycle.a ReferenceCycle.installed false ReferenceWorlds.world_fresh = failed
  ∧ doUninstall ReferenceCycle.a ReferenceWorlds.world_fresh = failed.
Proof.
  apply (@uninstall_of_missing_directory Reference.util ReferenceChoice.cancels).
  vm_compute. reflexivity.
Defined.

(** X7.  When the directory is there, the removal is not forced and the
    user does not pick an option that goes on (the prompt is dismissed,
    fails, or "Cancel" is chosen), the uninstall is rejected with
    [Canceled]: the start and the completion with [LOCAL] are announced
    and nothing else happens, no directory is removed and the index is
    not touched. *)
Theorem declined_uninstall_removes_nothing `{ExtensionManagementUtil} `{IChoiceService}
    (extension : ILocalExtension) (installed : list ILocalExtension) (w : World) :
  userExtensions w !! id extension ≠ None →
  accepted extension installed = false →
  checkForDependenciesAndUninstall extension installed false w
  = (Rejected canceled,
     set_trace (trace w ++ [onUninstallExtension (id extension);
                            onDidUninstallExtension (id extension) (Some LOCAL)]) w).
Proof.
  intros Hdir Hdeclined.
  assert (Hwork :
    (preUninstallExtension extension;;
     if hasDependencies extension installed
     then promptForDependenciesAndUninstall extension installed false
     else promptAndUninstall extension installed false) w
    = (Rejected canceled, set_trace (trace w ++ [onUninstallExtension (id extension)]) w)).
  { unfold bind at 1. rewrite preUninstallExtension_run.
    destruct (userExtensions w !! id extension) as [dir|]; [clear Hdir | congruence].
    unfold accepted, answer in Hdeclined.
    unfold promptForDependenciesAndUninstall, promptAndUninstall, then2, settled.
    destruct (hasDependencies extension installed);
      destruct (choose _ _ _ _ _) as [value|r]; cbn; try reflexivity;
      destruct (Z.eqb value 0); try discriminate; cbn in Hdeclined;
      rewrite ?Hdeclined; reflexivity. }
  pose proof (reported_run extension
                (preUninstallExtension extension;;
                 if hasDependencies extension installed
                 then promptForDependenciesAndUninstall extension installed false
                 else promptAndUninstall extension installed false) w) as Hrun.
  rewrite Hwork in Hrun.
  etransitivity; [exact Hrun|]. cbn. now rewrite <- app_assoc.
Qed.

Lemma declined_uninstall_removes_nothing_witness :
  let w :=
    set_userExtensions
      {[ "pub.a-1.0.0" := Reference.dir_of (manifest ReferenceCycle.a) ]}
      ReferenceWorlds.world_fresh in
  @checkForDependenciesAndUninstall Reference.util ReferenceChoice.cancels
    ReferenceCycle.a ReferenceCycle.installed false w
  = (Rejected canceled,
     set_trace (trace w ++ [onUninstallExtension (id ReferenceCycle.a);
                            onDidUninstallExtension (id ReferenceCycle.a) (Some LOCAL)]) w).
Proof.
  intros w.
  apply (@declined_uninstall_removes_nothing Reference.util ReferenceChoice.cancels).
  - vm_compute. discriminate.
  - vm_compute. reflexivity.
Defined.

(** ** Marks in the index, read back *)

Lemma getObsoleteExtensions_read (w : World) (obsolete : Obsolete) :
  index_of_file (obsoleteFile w) = Some obsolete →
  getObsoleteExtensions w = (Resolved obsolete, persisted obsolete w).
Proof.
  unfold index_of_file, getObsoleteExtensions. rewrite withObsoleteExtensions_access.
  destruct (read_raw (obsoleteFile w)) as [raw|r]; [|discriminate].
  now intros [= <-].
Qed.

(** X8.  Marks go through the index file and come back: after
    [setObsolete i] the identifier [i] is reported obsolete, after
    [unsetObsolete i] it is not, and either way every other identifier is
    reported as before; the index after marking and then unmarking [i] is
    the one before without [i]; and asking ([isObsolete]) leaves the
    mapping as it is. *)
Theorem obsolete_marks_round_trip (i j : string) (w : World) (obsolete : Obsolete) :
  index_of_file (obsoleteFile w) = Some obsolete →
  ((setObsolete i;; isObsolete j) w).1
  = Resolved (if decide (i = j) then true else marked obsolete j)
  ∧ ((unsetObsolete i;; isObsolete j) w).1
    = Resolved (if decide (i = j) then false else marked obsolete j)
  ∧ ((setObsolete i;; unsetObsolete i;; getObsoleteExtensions) w).1
    = Resolved (delete i obsolete)
  ∧ index_of_file (obsoleteFile (isObsolete j w).2) = Some obsolete.
Proof.
  intros Hread. unfold bind.
  rewrite (setObsolete_read _ _ _ Hread), (unsetObsolete_read _ _ _ Hread).
  rewrite (isObsolete_read j _ _ (index_of_persisted _ _)).
  rewrite (isObsolete_read j _ _ (index_of_persisted _ _)).
  rewrite (unsetObsolete_read i _ _ (index_of_persisted _ _)).
  rewrite (getObsoleteExtensions_read _ _ (index_of_persisted _ _)).
  rewrite (isObsolete_read j _ _ Hread). cbn [fst snd].
  rewrite marked_insert, delete_insert_eq.
  repeat split; [|apply index_of_persisted].
  unfold marked. destruct (decide (i = j)) as [->|Hne].
  - now rewrite lookup_delete_eq.
  - now rewrite lookup_delete_ne.
Qed.

Lemma obsolete_marks_round_trip_witness :
  index_of_file (obsoleteFile Reference.world_marked) = Some {[ "pub.ext-1.0.0" := true ]}
  ∧ ((setObsolete "pub.old-0.1.0";; isObsolete "pub.ext-1.0.0") Reference.world_marked).1
    = Resolved true
  ∧ ((unsetObsolete "pub.ext-1.0.0";; isObsolete "pub.ext-1.0.0")
       Reference.world_marked).1
    = Resolved false.
Proof.
  split; [reflexivity|].
  split.
  - exact (proj1 (obsolete_marks_round_trip "pub.old-0.1.0" "pub.ext-1.0.0"
                    Reference.world_marked {[ "pub.ext-1.0.0" := true ]} eq_refl)).
  - exact (proj1 (proj2 (obsolete_marks_round_trip "pub.ext-1.0.0" "pub.ext-1.0.0"
                           Reference.world_marked {[ "pub.ext-1.0.0" := true ]} eq_refl))).
Defined.

(** ** Cleanup *)








(** ** What an install leaves on disk *)

Lemma installExtension_run `{ExtensionNls}
    (x : InstallableExtension) (w w' : World) (local : ILocalExtension) :
  installExtension x w = (Resolved local, w') →
  id local = inst_id x ∧ type local = User ∧ metadata local = inst_metadata x
  ∧ oid local = nextOid w
  ∧ path local = path_join (extensionsPath (env w)) (inst_id x)
  ∧ (∃ dir m, userExtensions w' !! inst_id x = Some dir
              ∧ packageJson dir
                = Stored (Stringified {| pj_manifest := m;
                                         __metadata := inst_metadata x |}))
  ∧ readManifest User (inst_id x) w' = (Resolved (manifest local, inst_metadata x), w')
  ∧ (∀ j, j ≠ inst_id x → userExtensions w' !! j = userExtensions w !! j)
  ∧ systemExtensions w' = systemExtensions w
  ∧ obsoleteFile w' = obsoleteFile w.
Proof.
  unfold installExtension, bind, get, rimraf_extension, extract, readManifest,
    readdir_extension, alloc, readFile_in, parseManifest, writeFile_manifest,
    ret, wrapError, bind.
  cbn [packages set_trace set_userExtensions set_nextOid userExtensions dirs_of
       trace env nextOid systemExtensions obsoleteFile].
  destruct (packages w !! zipPath x) as [[ok [pj nls]]|]; [|discriminate].
  cbn [extractable content]. destruct ok; [|discriminate].
  cbn. repeat (rewrite lookup_insert_eq; cbn).
  destruct pj as [| |[c|[m md]]]; cbn; repeat (rewrite lookup_insert_eq; cbn);
    destruct nls as [| |[c'|tr]]; cbn; repeat (rewrite lookup_insert_eq; cbn);
    try discriminate;
    intros [= <- <-]; cbn; repeat (rewrite lookup_insert_eq; cbn);
    (repeat (split; [reflexivity|]));
    (split; [eexists _, m; split; reflexivity|]);
    (split; [reflexivity|]);
    (split; [|split; reflexivity]);
    intros j Hj; now rewrite !lookup_insert_ne, lookup_delete_ne by congruence.
Qed.

(** X10.  When [installExtension] resolves, the record it gives carries
    the identifier and the metadata it was given and is of type [User];
    the directory of that identifier exists, its [package.json] holds the
    metadata, and reading the manifest back from disk gives the manifest
    of the record together with that metadata.  Every other directory,
    the system root and the index file are as before. *)
Theorem installExtension_round_trip `{ExtensionNls}
    (x : InstallableExtension) (w w' : World) (local : ILocalExtension) :
  installExtension x w = (Resolved local, w') →
  id local = inst_id x ∧ type local = User ∧ metadata local = inst_metadata x
  ∧ oid local = nextOid w
  ∧ path local = path_join (extensionsPath (env w)) (inst_id x)
  ∧ (∃ dir m, userExtensions w' !! inst_id x = Some dir
              ∧ packageJson dir
                = Stored (Stringified {| pj_manifest := m;
                                         __metadata := inst_metadata x |}))
  ∧ readManifest User (inst_id x) w' = (Resolved (manifest local, inst_metadata x), w')
  ∧ (∀ j, j ≠ inst_id x → userExtensions w' !! j = userExtensions w !! j)
  ∧ systemExtensions w' = systemExtensions w
  ∧ obsoleteFile w' = obsoleteFile w.
Proof. apply installExtension_run. Qed.

Lemma installExtension_round_trip_witness :
  let x := {| zipPath := "/tmp/ext.vsix"; inst_id := "pub.ext-1.0.0";
              inst_metadata := Some {| md_id := "uuid-1"; md_publisherId := "p-1";
                                       md_publisherDisplayName := "Pub" |} |} in
  ∃ local w',
    @installExtension Reference.nls x Reference.world_marked = (Resolved local, w')
    ∧ id local = inst_id x
    ∧ @readManifest Reference.nls User (inst_id x) w'
      = (Resolved (manifest local, inst_metadata x), w').
Proof.
  intros x.
  assert (Hrun : ∃ local w',
            @installExtension Reference.nls x Reference.world_marked
            = (Resolved local, w'))
    by (eexists _, _; vm_compute; reflexivity).
  destruct Hrun as (local & w' & Hrun). exists local, w'. split; [exact Hrun|].
  destruct (@installExtension_round_trip Reference.nls x _ _ _ Hrun)
    as (Hid & _ & _ & _ & _ & _ & Hread & _).
  now split.
Defined.

(** X11.  A local install that passes the check of the index is
    announced once, right after the check, and its last effect is the
    completion event of the same identifier and package: with the record
    installed (whose directory exists) when the install resolves, with
    the error when it is rejected, in which case that error is also the
    rejection passed to the caller. *)
Theorem install_reports_its_end `{ExtensionManagementUtil} `{ExtensionNls}
    (zp : string) (w : World) (manifest : IExtensionManifest) (obsolete : Obsolete) :
  (validate zp w).1 = Resolved manifest →
  index_of_file (obsoleteFile w) = Some obsolete →
  marked obsolete (getLocalExtensionIdFromManifest manifest) = false →
  let identifier := getLocalExtensionIdFromManifest manifest in
  ∃ between result,
    effects_since w (install zp w).2
      ([persist_effect (obsoletePath w) obsolete; onInstallExtension identifier (FromZip zp)]
         ++ between ++ [onDidInstallExtension identifier (FromZip zp) result])
    ∧ match (install zp w).1 with
      | Resolved _ =>
          ∃ local, result = ResLocal (Some local)
                   ∧ id local = identifier
                   ∧ is_Some (userExtensions (install zp w).2 !! identifier)
      | Rejected error => result = ResError error
      end.
Proof.
  intros Hvalid Hread Hmarked i.
  set (x := {| zipPath := zp; inst_id := i; inst_metadata := None |}).
  set (w1 := set_trace (trace (persisted obsolete w) ++ [onInstallExtension i (FromZip zp)])
               (persisted obsolete w)).
  assert (Hrun : install zp w
                 = then2 (installExtension x)
                     (fun local =>
                        emit (onDidInstallExtension i (FromZip zp) (ResLocal (Some local))))
                     (fun error =>
                        emit (onDidInstallExtension i (FromZip zp) (ResError error));;
                        wrapError error) w1).
  { destruct (validate_packages zp w w eq_refl) as [_ Hworld].
    unfold install. unfold bind at 1.
    destruct (validate zp w) as [o w0]. cbn in Hvalid, Hworld. subst o w0.
    unfold bind at 1. rewrite (isObsolete_read _ _ _ Hread), Hmarked.
    reflexivity. }
  rewrite Hrun. unfold then2.
  pose proof (monotone_installExtension x w1) as [suffix Hsuffix].
  pose proof (installExtension_run x w1) as Hround.
  destruct (installExtension x w1) as [[local|error] w2]; cbn in Hsuffix.
  - destruct (Hround w2 local eq_refl) as (Hid & _ & _ & _ & _ & (dir & _ & Hdir & _) & _).
    exists suffix, (ResLocal (Some local)). split.
    + unfold effects_since in *. cbn. rewrite Hsuffix. unfold w1. cbn.
      rewrite <- !app_assoc. reflexivity.
    + cbn. exists local. split; [reflexivity|]. split; [exact Hid|]. eauto.
  - exists suffix, (ResError error). split; [|reflexivity].
    unfold effects_since in *. cbn. rewrite Hsuffix. unfold w1. cbn.
    rewrite <- !app_assoc. reflexivity.
Qed.

Lemma install_reports_its_end_witness :
  let w := persisted ∅ Reference.world_marked in
  ∃ between result,
    effects_since w (@install Reference.util Reference.nls "/tmp/ext.vsix" w).2
      ([persist_effect (obsoletePath w) ∅;
        onInstallExtension "pub.ext-1.0.0" (FromZip "/tmp/ext.vsix")]
         ++ between
         ++ [onDidInstallExtension "pub.ext-1.0.0" (FromZip "/tmp/ext.vsix") result])
    ∧ match (@install Reference.util Reference.nls "/tmp/ext.vsix" w).1 with
      | Resolved _ =>
          ∃ local, result = ResLocal (Some local)
                   ∧ id local = "pub.ext-1.0.0"
                   ∧ is_Some (userExtensions
                                (@install Reference.util Reference.nls "/tmp/ext.vsix" w).2
                              !! "pub.ext-1.0.0")
      | Rejected error => result = ResError error
      end.
Proof.
  intros w.
  apply (@install_reports_its_end Reference.util Reference.nls "/tmp/ext.vsix" w
           (Reference.manifest_of "pub" "ext" "1.0.0" None) ∅).
  - vm_compute. reflexivity.
  - vm_compute. reflexivity.
  - reflexivity.
Defined.

(** X12.  A local install of a package that cannot be read or whose
    manifest is not JSON is rejected with the error of the validation,
    and an install that finds the index unreadable is rejected too: in
    both cases the world is left exactly as it was, nothing is announced
    and nothing is written. *)
Theorem install_fails_early_without_effect `{ExtensionManagementUtil} `{ExtensionNls}
    (zp : string) (w : World) :
  (∃ reason, (validate zp w).1 = Rejected reason)
  ∨ index_of_file (obsoleteFile w) = None →
  ∃ reason, install zp w = (Rejected reason, w)
            ∧ ∀ r, (validate zp w).1 = Rejected r → reason = r.
Proof.
  intros Hfails. destruct (validate_packages zp w w eq_refl) as [_ Hworld].
  unfold install. unfold bind at 1.
  destruct (validate zp w) as [[manifest|r] w0]; cbn in Hworld; subst w0.
  - destruct Hfails as [[reason Hr]|Hindex]; [discriminate|].
    unfold bind at 1. unfold isObsolete, filterObsolete. unfold bind at 1.
    rewrite withObsoleteExtensions_access. unfold index_of_file in Hindex.
    destruct (read_raw (obsoleteFile w)) as [raw|reason]; [discriminate|].
    exists reason. split; [reflexivity|]. intros r Hr. discriminate.
  - exists r. split; [reflexivity|]. now intros r' [= <-].
Qed.

Lemma install_fails_early_without_effect_witness :
  ∃ reason,
    @install Reference.util Reference.nls "/tmp/missing.vsix" Reference.world_marked
    = (Rejected reason, Reference.world_marked)
    ∧ ∀ r, (validate "/tmp/missing.vsix" Reference.world_marked).1 = Rejected r →
           reason = r.
Proof.
  apply (@install_fails_early_without_effect Reference.util Reference.nls).
  left. eexists. vm_compute. reflexivity.
Defined.

(** ** The scan of a root *)

Lemma readManifest_dirs `{ExtensionNls} (t : LocalExtensionType) (i : string)
    (w w0 : World) :
  dirs_of t w = dirs_of t w0 → (readManifest t i w).1 = (readManifest t i w0).1.
Proof.
  intros Hdirs. unfold readManifest, readFile_in, bind, parseManifest, ret, wrapError.
  rewrite Hdirs.
  destruct (dirs_of t w0 !! i) as [[pj nls]|] eqn:Hd.
  - destruct pj as [| |[c|[m md]]]; cbn; rewrite ?Hdirs, Hd; cbn;
      destruct nls as [| |[c'|tr]]; reflexivity.
  - cbn. rewrite Hdirs, Hd. reflexivity.
Qed.

Lemma readManifest_needs_directory `{ExtensionNls} (t : LocalExtensionType) (i : string)
    (w : World) :
  dirs_of t w !! i = None → ∃ r, (readManifest t i w).1 = Rejected r.
Proof.
  intros Hd. unfold readManifest, readFile_in, bind, parseManifest, ret, wrapError.
  rewrite Hd. cbn. rewrite Hd. cbn. eauto.
Qed.

Lemma scan_each_run `{ExtensionManagementUtil} `{ExtensionNls}
    (t : LocalExtensionType) (i : string) (w : World) :
  scan_each t i w
  = match (readManifest t i w).1 with
    | Resolved (m, md) =>
        (Resolved (Some {| oid := nextOid w; type := t; id := i; manifest := adopted m;
                           metadata := md; path := path_join (root_of t w) i |}),
         set_nextOid (S (nextOid w)) w)
    | Rejected _ => (Resolved None, w)
    end.
Proof.
  unfold scan_each, catch, then2. unfold bind at 1. cbn [get]. unfold bind at 1.
  unfold readdir_extension.
  destruct (dirs_of t w !! i) as [dir|] eqn:Hd.
  - unfold bind at 1. pose proof (readManifest_world t i w) as Hw.
    destruct (readManifest t i w) as [[[m md]|r] w1]; cbn in Hw; subst w1; reflexivity.
  - destruct (readManifest_needs_directory t i w Hd) as [r ->]. reflexivity.
Qed.

Lemma scan_all_run `{ExtensionManagementUtil} `{ExtensionNls}
    (t : LocalExtensionType) (ids : list string) (w : World) :
  ∃ found w',
    join (map (scan_each t) ids) w = (Resolved found, w')
    ∧ dirs_of t w' = dirs_of t w ∧ env w' = env w
    ∧ (nextOid w ≤ nextOid w')%nat
    ∧ let scanned := flat_map (fun a => match a with Some e => [e] | None => [] end) found in
      id <$> scanned = List.filter (scannable t w) ids
      ∧ (∀ e, e ∈ scanned →
           type e = t ∧ path e = path_join (root_of t w) (id e)
           ∧ (nextOid w ≤ oid e < nextOid w')%nat
           ∧ ∃ m, (readManifest t (id e) w).1 = Resolved (m, metadata e)
                  ∧ manifest e = adopted m)
      ∧ NoDup (oid <$> scanned).
Proof.
  assert (Hgen : ∃ os w',
    settle_all (map (scan_each t) ids) w = (Resolved (map Resolved os), w')
    ∧ dirs_of t w' = dirs_of t w ∧ env w' = env w
    ∧ (nextOid w ≤ nextOid w')%nat
    ∧ let scanned := flat_map (fun a => match a with Some e => [e] | None => [] end) os in
      id <$> scanned = List.filter (scannable t w) ids
      ∧ (∀ e, e ∈ scanned →
           type e = t ∧ path e = path_join (root_of t w) (id e)
           ∧ (nextOid w ≤ oid e < nextOid w')%nat
           ∧ ∃ m, (readManifest t (id e) w).1 = Resolved (m, metadata e)
                  ∧ manifest e = adopted m)
      ∧ NoDup (oid <$> scanned)).
  { revert w. induction ids as [|i ids IH]; intros w.
    - exists [], w. split; [reflexivity|]. split; [reflexivity|].
      split; [reflexivity|]. split; [lia|]. cbn. split; [reflexivity|].
      split; [|constructor]. intros e He. now apply elem_of_nil in He.
    - cbn [map settle_all List.filter]. rewrite scan_each_run.
      assert (Hsc : scannable t w i
                    = match (readManifest t i w).1 with
                      | Resolved _ => true
                      | Rejected _ => false
                      end) by reflexivity.
      rewrite Hsc. clear Hsc.
      destruct (readManifest t i w) as [[[m md]|r] w0] eqn:Hread; cbn [fst].
      + destruct (IH (set_nextOid (S (nextOid w)) w))
          as (os & w' & -> & Hd & He & Hn & Hids & Hall & Hnd).
        cbn in Hd, He, Hn.
        eexists (Some _ :: os), w'. split; [reflexivity|].
        split; [exact Hd|]. split; [exact He|]. split; [lia|].
        cbn [flat_map app fmap list_fmap]. split; [|split].
        * cbn. f_equal. etransitivity; [exact Hids|].
          apply filter_ext_in. intros j _. unfold scannable.
          now rewrite (readManifest_dirs t j (set_nextOid (S (nextOid w)) w) w).
        * intros e [->|Hin]%elem_of_cons.
          -- cbn. split; [reflexivity|]. split; [reflexivity|]. split; [lia|].
             exists m. rewrite Hread. now split.
          -- destruct (Hall e Hin) as (Ht & Hp & Ho & m' & Hm & Hm').
             split; [exact Ht|]. split; [exact Hp|]. cbn in Ho. split; [lia|].
             exists m'. split; [|exact Hm'].
             now rewrite <- (readManifest_dirs t (id e) (set_nextOid (S (nextOid w)) w) w).
        * cbn. apply NoDup_cons. split; [|exact Hnd].
          intros (e & Hoid & Hin)%list_elem_of_fmap.
          destruct (Hall e Hin) as (_ & _ & Ho & _). cbn in Ho. lia.
      + destruct (IH w) as (os & w' & -> & Hd & He & Hn & Hids & Hall & Hnd).
        exists (None :: os), w'. split; [reflexivity|].
        split; [exact Hd|]. split; [exact He|]. split; [exact Hn|].
        split; [exact Hids|]. split; [exact Hall | exact Hnd]. }
  destruct Hgen as (os & w' & Hsettle & Hrest). exists os, w'.
  split; [|exact Hrest]. unfold join, bind. rewrite Hsettle.
  assert (rejected_of (map (@Resolved (option ILocalExtension)) os) = []) as ->
    by (clear; now induction os).
  assert (resolved_of (map (@Resolved (option ILocalExtension)) os) = os) as ->
    by (clear; induction os as [|o os IH]; [reflexivity|];
        cbn [map resolved_of flat_map app]; f_equal; exact IH).
  reflexivity.
Qed.



(** The records of a scan are fresh objects: their numbers are taken
    from the allocator during the scan. *)
Lemma scanExtensions_fresh `{ExtensionManagementUtil} `{ExtensionNls}
    (t : LocalExtensionType) (w w' : World) (scanned : list ILocalExtension) :
  scanExtensions t w = (Resolved scanned, w') →
  NoDup (oid <$> scanned)
  ∧ (nextOid w ≤ nextOid w')%nat
  ∧ ∀ e, e ∈ scanned → type e = t ∧ (nextOid w ≤ oid e < nextOid w')%nat.
Proof.
  unfold scanExtensions, scanExtensionFolders, getObsoleteExtensions.
  unfold bind at 1 2. rewrite withObsoleteExtensions_access.
  destruct (read_raw (obsoleteFile w)) as [raw|r]; [|discriminate].
  cbn [fst snd]. unfold bind at 1. cbn [get ret]. unfold bind at 1.
  match goal with |- context [join (map (scan_each t) ?ids) ?w0] =>
    destruct (scan_all_run t ids w0) as (found & w1 & -> & _ & _ & Hn & _ & Hall & Hnd) end.
  intros [= <- <-]. cbn in Hn, Hall. split; [exact Hnd|]. split; [exact Hn|].
  intros e He. destruct (Hall e He) as (Ht & _ & Ho & _). cbn in Ho. now split.
Qed.

Lemma highest_of_each_picks `{SemVer} {K} (key : ILocalExtension → K)
    (groups : list (K * list ILocalExtension)) (result : list ILocalExtension) :
  (∀ k g, (k, g) ∈ groups → ∀ y, y ∈ g → key y = k) →
  highest_of_each groups.*2 = Some result →
  (∀ r, r ∈ result → ∃ k g, (k, g) ∈ groups ∧ r ∈ g)
  ∧ (NoDup groups.*1 → NoDup (key <$> result)).
Proof.
  revert result. induction groups as [|[k g] groups IH]; intros result Hkey; cbn.
  - intros [= <-]. split; [|constructor]. intros r Hr. now apply elem_of_nil in Hr.
  - destruct (sort _ g) as [sorted|] eqn:Hsort; [|discriminate].
    destruct (highest_of_each groups.*2) as [rest|] eqn:Hrest; [|discriminate].
    intros [= <-]. destruct (IH rest) as [Hmem Hnd]; [|reflexivity|].
    { intros k' g' Hin. apply Hkey. now right. }
    assert (Hhead : ∀ h, h ∈ take 1 sorted → h ∈ g).
    { intros h Hh. apply (sort_elem _ _ _ Hsort).
      destruct sorted as [|s sorted]; [now apply elem_of_nil in Hh|].
      cbn in Hh. apply list_elem_of_singleton in Hh as ->. left. }
    split.
    + intros r [Hr|Hr]%elem_of_app.
      * exists k, g. split; [left | now apply Hhead].
      * destruct (Hmem r Hr) as (k' & g' & Hin & Hrg). exists k', g'. split; [now right|].
        exact Hrg.
    + intros [Hk Hks]%NoDup_cons. rewrite fmap_app. apply NoDup_app.
      split; [|split; [|now apply Hnd]].
      * destruct sorted as [|s sorted]; cbn; [constructor|]. apply NoDup_singleton.
      * intros i (h & -> & Hh)%list_elem_of_fmap (r & Hi & Hr)%list_elem_of_fmap.
        destruct (Hmem r Hr) as (k' & g' & Hin & Hrg).
        apply Hk. apply list_elem_of_fmap. exists (k', g'). split; [|exact Hin]. cbn.
        rewrite <- (Hkey k g (ltac:(left)) h (Hhead h Hh)), Hi.
        apply (Hkey k' g'); [now right | exact Hrg].
Qed.

Lemma NoDup_fmap_within {A B} (f : A → B) (l s : list A) :
  NoDup l → (∀ x, x ∈ l → x ∈ s) → NoDup (f <$> s) → NoDup (f <$> l).
Proof.
  intros Hl Hsub Hs. induction Hl as [|x l Hx Hl IH]; cbn; [constructor|].
  apply NoDup_cons. split.
  - intros (y & Hxy & Hy)%list_elem_of_fmap. apply Hx.
    assert (x = y) as ->; [|exact Hy].
    assert (Hinj : ∀ a b, a ∈ s → b ∈ s → f a = f b → a = b).
    { clear -Hs. induction s as [|c s IH]; cbn in Hs.
      - intros a b Ha. now apply elem_of_nil in Ha.
      - apply NoDup_cons in Hs as [Hc Hs].
        intros a b [->|Ha]%elem_of_cons [->|Hb]%elem_of_cons Hab.
        + reflexivity.
        + exfalso. apply Hc. rewrite Hab. now apply list_elem_of_fmap_2.
        + exfalso. apply Hc. rewrite <- Hab. now apply list_elem_of_fmap_2.
        + now apply IH. }
    apply Hinj; [apply Hsub; left | apply Hsub; now right | exact Hxy].
  - apply IH. intros y Hy. apply Hsub. now right.
Qed.

Lemma scanUserExtensions_fresh `{ExtensionManagementUtil} `{ExtensionNls} `{SemVer}
    (w w' : World) (result : list ILocalExtension) :
  scanUserExtensions w = (Resolved result, w') →
  NoDup (oid <$> result)
  ∧ (nextOid w ≤ nextOid w')%nat
  ∧ ∀ e, e ∈ result → type e = User ∧ (nextOid w ≤ oid e < nextOid w')%nat.
Proof.
  unfold scanUserExtensions, bind.
  destruct (scanExtensions User w) as [[scanned|r] w1] eqn:Hscan; [|discriminate].
  destruct (highest_of_each _) as [picked|] eqn:Hpick; [|discriminate].
  intros [= <- <-].
  destruct (scanExtensions_fresh User w w1 scanned Hscan) as (Hnd & Hn & Hall).
  destruct (groupBy_spec getGalleryExtensionIdFromLocal scanned) as (Hkeys & Hgroups & _).
  destruct (highest_of_each_picks getGalleryExtensionIdFromLocal _ _
              (fun k g Hin y Hy => proj1 (proj2 (Hgroups k g Hin) y Hy)) Hpick)
    as [Hmem Hnd'].
  assert (Hsub : ∀ r, r ∈ picked → r ∈ scanned).
  { intros r Hr. destruct (Hmem r Hr) as (k & g & Hin & Hrg).
    now apply (proj2 (Hgroups k g Hin) r Hrg). }
  split; [|split; [exact Hn|]].
  - apply (NoDup_fmap_within oid picked scanned); [|exact Hsub | exact Hnd].
    apply (NoDup_fmap_1 getGalleryExtensionIdFromLocal). now apply Hnd'.
  - intros e He. apply Hall, Hsub, He.
Qed.

(** X14.  The records that [getInstalled] gives are distinct objects
    made during the call, whether one root is asked for or both; asked
    for one type it gives records of that type only. *)
Theorem getInstalled_gives_distinct_records
    `{ExtensionManagementUtil} `{ExtensionNls} `{SemVer}
    (kind : option LocalExtensionType) (w w' : World) (installed : list ILocalExtension) :
  getInstalled kind w = (Resolved installed, w') →
  NoDup (oid <$> installed)
  ∧ (∀ e, e ∈ installed → (nextOid w ≤ oid e < nextOid w')%nat)
  ∧ (∀ t e, kind = Some t → e ∈ installed → type e = t).
Proof.
  unfold getInstalled, scanSystemExtensions, join, bind.
  destruct kind as [[]|]; cbn [app settle_all].
  - destruct (scanExtensions System w) as [[sys|r] w1] eqn:Hsys; cbn; [|discriminate].
    intros [= <- <-]. rewrite app_nil_r.
    destruct (scanExtensions_fresh System w w1 sys Hsys) as (Hnd & Hn & Hall).
    split; [exact Hnd|]. split.
    + intros e He. apply Hall, He.
    + intros t e [= <-] He. apply Hall, He.
  - destruct (scanUserExtensions w) as [[usr|r] w1] eqn:Husr; cbn; [|discriminate].
    intros [= <- <-]. rewrite app_nil_r.
    destruct (scanUserExtensions_fresh w w1 usr Husr) as (Hnd & Hn & Hall).
    split; [exact Hnd|]. split.
    + intros e He. apply Hall, He.
    + intros t e [= <-] He. apply Hall, He.
  - destruct (scanExtensions System w) as [[sys|r] w1] eqn:Hsys;
      destruct (scanUserExtensions w1) as [[usr|r'] w2] eqn:Husr; cbn;
      try discriminate.
    intros [= <- <-]. rewrite app_nil_r.
    destruct (scanExtensions_fresh System w w1 sys Hsys) as (Hnd1 & Hn1 & Hall1).
    destruct (scanUserExtensions_fresh w1 w2 usr Husr) as (Hnd2 & Hn2 & Hall2).
    split; [|split].
    + rewrite fmap_app. apply NoDup_app. split; [exact Hnd1|]. split; [|exact Hnd2].
      intros o (a & -> & Ha)%list_elem_of_fmap (b & Hab & Hb)%list_elem_of_fmap.
      destruct (Hall1 a Ha) as [_ Hoa]. destruct (Hall2 b Hb) as [_ Hob]. lia.
    + intros e [He|He]%elem_of_app.
      * destruct (Hall1 e He) as [_ Ho]. lia.
      * destruct (Hall2 e He) as [_ Ho]. lia.
    + intros t e [=].
Qed.

Lemma getInstalled_gives_distinct_records_witness :
  let w :=
    set_userExtensions
      {[ "pub.a-1.0.0" := Reference.dir_of (manifest ReferenceCycle.a);
         "pub.b-1.0.0" := Reference.dir_of (manifest ReferenceCycle.b) ]}
      ReferenceWorlds.world_fresh in
  ∃ installed w',
    @getInstalled Reference.util Reference.nls ReferenceSemVer.semver None w
    = (Resolved installed, w')
    ∧ length installed = 2
    ∧ NoDup (oid <$> installed).
Proof.
  intros w.
  assert (Hrun : ∃ installed w',
            @getInstalled Reference.util Reference.nls ReferenceSemVer.semver None w
            = (Resolved installed, w') ∧ length installed = 2)
    by (eexists _, _; split; vm_compute; reflexivity).
  destruct Hrun as (installed & w' & Hrun & Hlen). exists installed, w'.
  split; [exact Hrun|]. split; [exact Hlen|].
  exact (proj1 (@getInstalled_gives_distinct_records Reference.util Reference.nls
                  ReferenceSemVer.semver None w w' installed Hrun)).
Defined.

(** ** Outdated folders *)







Lemma scanExtensionFolders_read (t : LocalExtensionType) (w : World) (obsolete : Obsolete) :
  index_of_file (obsoleteFile w) = Some obsolete →
  scanExtensionFolders t w
  = (Resolved (List.filter (fun id => negb (marked obsolete id))
                 (map_to_list (dirs_of t w)).*1),
     persisted obsolete w).
Proof.
  intros Hread. unfold scanExtensionFolders. unfold bind at 1.
  rewrite (getObsoleteExtensions_read _ _ Hread). unfold bind, get, ret.
  now destruct t.
Qed.

Lemma NoDup_fmap_inj_on {A B} (f : A → B) (l : list A) (a b : A) :
  NoDup (f <$> l) → a ∈ l → b ∈ l → f a = f b → a = b.
Proof.
  induction l as [|c l IH]; cbn; intros Hnd Ha Hb Hab.
  - now apply elem_of_nil in Ha.
  - apply NoDup_cons in Hnd as [Hc Hnd].
    apply elem_of_cons in Ha as [->|Ha]; apply elem_of_cons in Hb as [->|Hb].
    + reflexivity.
    + exfalso. apply Hc. rewrite Hab. now apply list_elem_of_fmap_2.
    + exfalso. apply Hc. rewrite <- Hab. now apply list_elem_of_fmap_2.
    + now apply IH.
Qed.





Lemma getOutdatedExtensionIds_rejected `{LocalExtensionIdParser} `{SemVer}
    (w w' : World) (obsolete : Obsolete) (reason : Value) :
  index_of_file (obsoleteFile w) = Some obsolete →
  getOutdatedExtensionIds w = (Rejected reason, w') →
  w' = persisted obsolete w.
Proof.
  intros Hread. unfold getOutdatedExtensionIds. unfold bind at 1.
  rewrite (scanExtensionFolders_read User w obsolete Hread).
  destruct (outdated_of_each _); [discriminate|]. now intros [= _ <-].
Qed.






(** ** Install from the registry *)

Lemma downloadInstallableExtension_world
    `{ExtensionManagementUtil} `{IExtensionGalleryService}
    (extension : IGalleryExtension) : keeps (fun w => w) (downloadInstallableExtension extension).
Proof.
  intros w. unfold downloadInstallableExtension, bind, settled.
  destruct (download extension) as [zp|r]; [|reflexivity].
  destruct (validate_packages zp w w eq_refl) as [_ Hw].
  destruct (validate zp w) as [[m|r] w1]; cbn in Hw; now subst w1.
Qed.

Lemma downloads_world `{ExtensionManagementUtil} `{IExtensionGalleryService}
    (extensions : list IGalleryExtension) :
  keeps (fun w => w) (join (map downloadInstallableExtension extensions)).
Proof.
  apply keeps_join, Forall_fmap, Forall_forall. intros e _.
  apply downloadInstallableExtension_world.
Qed.

(** X18.  When a download or the validation of a downloaded package
    fails, nothing is installed and nothing on disk changes: the failure
    [GALLERY] is reported against every member of the batch, in order,
    and the caller is given the joined error. *)
Theorem download_failure_installs_nothing
    `{ExtensionManagementUtil} `{ExtensionNls} `{SemVer} `{IExtensionGalleryService}
    (extensions : list IGalleryExtension) (w w1 : World) (reason : Value) :
  join (map downloadInstallableExtension extensions) w = (Rejected reason, w1) →
  ∃ errors,
    reason = VArray errors
    ∧ downloadAndInstallExtensions extensions w
      = (Rejected (VError (joinErrors errors)),
         set_trace (trace w ++ failure_reports extensions GALLERY) w).
Proof.
  intros Hdownload.
  destruct (join_rejected_is_array _ _ _ _ Hdownload) as (errors & -> & _).
  pose proof (downloads_world extensions w) as Hw. rewrite Hdownload in Hw.
  cbn in Hw. subst w1. exists errors. split; [reflexivity|].
  unfold downloadAndInstallExtensions, then2. rewrite Hdownload.
  unfold onDidInstallExtensions, bind. now rewrite fire_onDidInstall_code.
Qed.

Lemma download_failure_installs_nothing_witness :
  ∃ reason w1 errors,
    join (map (@downloadInstallableExtension Reference.util ReferenceGallery.gallery)
            [ReferenceGallery.one; ReferenceGallery.two])
      ReferenceGallery.world_with_two = (Rejected reason, w1)
    ∧ reason = VArray errors
    ∧ @downloadAndInstallExtensions Reference.util Reference.nls ReferenceSemVer.semver
        ReferenceGallery.gallery [ReferenceGallery.one; ReferenceGallery.two]
        ReferenceGallery.world_with_two
      = (Rejected (VError (joinErrors errors)),
         set_trace (trace ReferenceGallery.world_with_two
                      ++ @failure_reports Reference.util
                           [ReferenceGallery.one; ReferenceGallery.two] GALLERY)
           ReferenceGallery.world_with_two).
Proof.
  assert (Hrun : ∃ reason w1,
            join (map (@downloadInstallableExtension Reference.util
                         ReferenceGallery.gallery)
                    [ReferenceGallery.one; ReferenceGallery.two])
              ReferenceGallery.world_with_two = (Rejected reason, w1))
    by (eexists _, _; vm_compute; reflexivity).
  destruct Hrun as (reason & w1 & Hrun).
  destruct (@download_failure_installs_nothing Reference.util Reference.nls
              ReferenceSemVer.semver ReferenceGallery.gallery _ _ _ _ Hrun)
    as (errors & Hreason & Hall).
  exists reason, w1, errors. split; [exact Hrun|]. split; [exact Hreason | exact Hall].
Defined.

Lemma settle_all_Forall2 {A B} (f : B → M A) (R : B → A → Prop) (xs : list B) :
  (∀ x w a w', f x w = (Resolved a, w') → R x a) →
  ∀ w os w', settle_all (map f xs) w = (Resolved os, w') →
             Forall2 (fun x o => ∀ a, o = Resolved a → R x a) xs os.
Proof.
  intros Hf. induction xs as [|x xs IH]; intros w os w'; cbn.
  - intros [= <- _]. constructor.
  - destruct (f x w) as [o w1] eqn:Hx.
    destruct (settle_all (map f xs) w1) as [[os'|r] w2] eqn:Hrest; [|discriminate].
    intros [= <- <-]. constructor; [|now apply (IH w1 os' w2)].
    intros a ->. now apply (Hf x w a w1).
Qed.

Lemma join_Forall2 {A B} (f : B → M A) (R : B → A → Prop) (xs : list B) :
  (∀ x w a w', f x w = (Resolved a, w') → R x a) →
  ∀ w l w', join (map f xs) w = (Resolved l, w') → Forall2 R xs l.
Proof.
  intros Hf w l w'. unfold join, bind.
  destruct (settle_all (map f xs) w) as [[os|r] w1] eqn:Hsettle; [|discriminate].
  pose proof (settle_all_Forall2 f R xs Hf w os w1 Hsettle) as Hall.
  destruct (rejected_of os) eqn:Hnone; [|discriminate].
  intros [= <- _]. clear Hsettle. induction Hall as [|x o xs os Hx _ IH]; [constructor|].
  destruct o as [a|r]; [|discriminate]. cbn. constructor; [now apply Hx|].
  apply IH. exact Hnone.
Qed.

Lemma fire_onDidInstall_locals `{ExtensionManagementUtil}
    (extensions : list IGalleryExtension) (before local : list ILocalExtension)
    (w : World) :
  length extensions = length local →
  fire_onDidInstall extensions (length before) (Some (before ++ local)) None w
  = (Resolved tt, set_trace (trace w ++ success_reports extensions local) w).
Proof.
  revert before local w. induction extensions as [|gallery rest IH];
    intros before [|l local] w Hlen; try discriminate; cbn.
  - unfold ret. rewrite app_nil_r. now destruct w.
  - unfold bind, emit. injection Hlen as Hlen.
    replace (before ++ l :: local) with ((before ++ [l]) ++ local)
      by now rewrite <- app_assoc.
    replace (S (length before)) with (length (before ++ [l]))
      by (rewrite length_app; cbn; lia).
    rewrite (IH (before ++ [l]) local _ Hlen). cbn. rewrite <- !app_assoc. cbn.
    rewrite (list_lookup_middle before local l (length before) eq_refl). reflexivity.
Qed.

Lemma Forall2_compose {A B C} (R1 : A → B → Prop) (R2 : B → C → Prop)
    (R : A → C → Prop) (xs : list A) (ys : list B) (zs : list C) :
  (∀ x y z, R1 x y → R2 y z → R x z) →
  Forall2 R1 xs ys → Forall2 R2 ys zs → Forall2 R xs zs.
Proof.
  intros HR H1. revert zs. induction H1 as [|x y xs ys Hxy _ IH]; intros zs H2.
  - apply Forall2_nil_inv_l in H2 as ->. constructor.
  - apply Forall2_cons_inv_l in H2 as (z & zs' & Hyz & H2 & ->).
    constructor; [now apply (HR x y z) | now apply IH].
Qed.

(** X19.  When the batch is collected, every package is downloaded and
    every install step resolves, [installFromGallery] ends by reporting,
    for each member of the batch in order, the record that was installed
    for that member: the record whose identifier is the local identifier
    of the member, of type [User], carrying the registry metadata of the
    member. *)
Theorem installFromGallery_reports_each_record
    `{ExtensionManagementUtil} `{ExtensionNls} `{SemVer} `{IExtensionGalleryService}
    (extension : IGalleryExtension) (extensions : list IGalleryExtension)
    (installables : list InstallableExtension) (local : list ILocalExtension)
    (w w1 w2 w3 : World) :
  prepareAndCollectExtensionsToInstall extension w = (Resolved (Some extensions), w1) →
  join (map downloadInstallableExtension extensions) w1 = (Resolved installables, w2) →
  join (map installExtension installables) w2 = (Resolved local, w3) →
  installFromGallery extension w
  = (Resolved None, set_trace (trace w3 ++ success_reports extensions local) w3)
  ∧ Forall2
      (fun gallery l =>
         id l = local_id_of gallery ∧ type l = User
         ∧ metadata l = Some (metadata_of gallery))
      extensions local.
Proof.
  intros Hprepare Hdownload Hinstall.
  assert (Hpairs : Forall2
            (fun gallery l =>
               id l = local_id_of gallery ∧ type l = User
               ∧ metadata l = Some (metadata_of gallery))
            extensions local).
  { apply (Forall2_compose
             (fun gallery x => inst_id x = local_id_of gallery
                               ∧ inst_metadata x = Some (metadata_of gallery))
             (fun x l => id l = inst_id x ∧ type l = User ∧ metadata l = inst_metadata x)
             _ extensions installables local).
    - intros gallery x l [Hid Hmd] (Hid' & Ht & Hmd'). repeat split; congruence.
    - apply (join_Forall2 downloadInstallableExtension _ extensions) with (w := w1)
        (w' := w2); [|exact Hdownload].
      intros gallery w0 x w0'. unfold downloadInstallableExtension, bind, settled, ret.
      destruct (download gallery) as [zp|r]; [|discriminate].
      destruct (validate zp w0) as [[m|r] w0'']; [|discriminate].
      intros [= <- _]. now split.
    - apply (join_Forall2 installExtension _ installables) with (w := w2) (w' := w3);
        [|exact Hinstall].
      intros x w0 l w0' Hrun.
      destruct (installExtension_run x w0 w0' l Hrun) as (Hid & Ht & Hmd & _).
      now repeat split. }
  split; [|exact Hpairs].
  unfold installFromGallery. unfold bind at 1. rewrite Hprepare.
  unfold downloadAndInstallExtensions, then2. unfold bind at 1.
  rewrite Hdownload, Hinstall. cbn [ret]. unfold onDidInstallExtensions, bind.
  rewrite (fire_onDidInstall_locals extensions [] local w3 (Forall2_length _ _ _ Hpairs)).
  reflexivity.
Qed.

Lemma installFromGallery_reports_each_record_witness :
  ∃ extensions w1 installables w2 local w3,
    @prepareAndCollectExtensionsToInstall Reference.util Reference.nls
      ReferenceSemVer.semver ReferenceGallery.gallery ReferenceGallery.one
      ReferenceBatch.world_downloaded
    = (Resolved (Some extensions), w1)
    ∧ length extensions = 3
    ∧ join (map (@downloadInstallableExtension Reference.util ReferenceGallery.gallery)
              extensions) w1 = (Resolved installables, w2)
    ∧ join (map (@installExtension Reference.nls) installables) w2 = (Resolved local, w3)
    ∧ @installFromGallery Reference.util Reference.nls ReferenceSemVer.semver
        ReferenceGallery.gallery ReferenceGallery.one ReferenceBatch.world_downloaded
      = (Resolved None,
         set_trace (trace w3 ++ @success_reports Reference.util extensions local) w3).
Proof.
  assert (Hruns : ∃ extensions w1 installables w2 local w3,
    @prepareAndCollectExtensionsToInstall Reference.util Reference.nls
      ReferenceSemVer.semver ReferenceGallery.gallery ReferenceGallery.one
      ReferenceBatch.world_downloaded
    = (Resolved (Some extensions), w1)
    ∧ length extensions = 3
    ∧ join (map (@downloadInstallableExtension Reference.util ReferenceGallery.gallery)
              extensions) w1 = (Resolved installables, w2)
    ∧ join (map (@installExtension Reference.nls) installables) w2 = (Resolved local, w3)).
  { eexists _, _, _, _, _, _. split; [vm_compute; reflexivity|].
    split; [reflexivity|]. split; vm_compute; reflexivity. }
  destruct Hruns as (extensions & w1 & installables & w2 & local & w3
                     & Hprepare & Hlen & Hdownload & Hinstall).
  exists extensions, w1, installables, w2, local, w3.
  split; [exact Hprepare|]. split; [exact Hlen|]. split; [exact Hdownload|].
  split; [exact Hinstall|].
  exact (proj1 (@installFromGallery_reports_each_record Reference.util Reference.nls
                  ReferenceSemVer.semver ReferenceGallery.gallery _ _ _ _ _ _ _ _
                  Hprepare Hdownload Hinstall)).
Defined.

Lemma filterObsolete_read (ids : list string) (w : World) (obsolete : Obsolete) :
  index_of_file (obsoleteFile w) = Some obsolete →
  filterObsolete ids w
  = (Resolved (List.filter (fun id => marked obsolete id) ids), persisted obsolete w).
Proof.
  unfold index_of_file, filterObsolete. rewrite withObsoleteExtensions_access.
  destruct (read_raw (obsoleteFile w)) as [raw|r]; [|discriminate].
  now intros [= <-].
Qed.

Lemma onInstallExtensions_run `{ExtensionManagementUtil}
    (extensions : list IGalleryExtension) (w : World) :
  onInstallExtensions extensions w
  = (Resolved tt, set_trace (trace w ++ install_announcements extensions) w).
Proof.
  revert w. induction extensions as [|gallery rest IH]; intros w; cbn.
  - unfold ret. rewrite app_nil_r. now destruct w.
  - unfold bind, emit. rewrite IH. cbn. now rewrite <- app_assoc.
Qed.

(** X20.  When the batch of a registry install is collected and the
    index can be read, [prepareAndCollectExtensionsToInstall] goes on
    exactly when no member of the batch is marked obsolete: it then
    announces the dependencies, in order, after the requested extension
    that was announced first, and gives the batch.  When a member is
    marked, the install is refused with the request to restart, the
    failure [OBSOLETE] is reported against the requested extension only,
    no dependency is announced and no directory is touched. *)
Theorem prepare_refuses_an_obsolete_batch
    `{ExtensionManagementUtil} `{ExtensionNls} `{SemVer} `{IExtensionGalleryService}
    (extension : IGalleryExtension) (batch : list IGalleryExtension)
    (w w1 : World) (obsolete : Obsolete) :
  collectExtensionsToInstall extension
    (set_trace (trace w ++ install_announcements [extension]) w)
  = (Resolved batch, w1) →
  index_of_file (obsoleteFile w1) = Some obsolete →
  let checked := persisted obsolete w1 in
  prepareAndCollectExtensionsToInstall extension w
  = if forallb (fun gallery => negb (marked obsolete (local_id_of gallery))) batch
    then (Resolved (Some batch),
          set_trace (trace checked ++ install_announcements (drop 1 batch)) checked)
    else (Rejected (VError (new_Error "Please restart Code before reinstalling.")),
          set_trace (trace checked ++ failure_reports [extension] OBSOLETE) checked).
Proof.
  intros Hcollect Hread checked.
  unfold prepareAndCollectExtensionsToInstall. unfold bind at 1.
  rewrite onInstallExtensions_run. unfold then2 at 1. rewrite Hcollect.
  unfold then2, checkForObsolete. unfold bind at 1.
  rewrite (filterObsolete_read _ _ _ Hread). fold checked.
  assert (Hnone : Nat.eqb (length (List.filter (fun id => marked obsolete id)
                                     (map local_id_of batch))) 0
                  = forallb (fun gallery => negb (marked obsolete (local_id_of gallery)))
                      batch).
  { clear. induction batch as [|g batch IH]; [reflexivity|]. cbn.
    destruct (marked obsolete (local_id_of g)); [reflexivity | exact IH]. }
  rewrite Hnone. destruct (forallb _ batch); cbn [ret wrapError].
  - unfold bind. destruct (Nat.ltb 1 (length batch)) eqn:Hlen.
    + now rewrite onInstallExtensions_run.
    + assert (drop 1 batch = []) as ->.
      { destruct batch as [|g [|g' batch]]; try reflexivity. discriminate. }
      unfold ret, install_announcements. cbn. rewrite app_nil_r. reflexivity.
  - unfold onDidInstallExtensions, bind. now rewrite fire_onDidInstall_code.
Qed.

Lemma prepare_refuses_an_obsolete_batch_witness :
  ∃ batch w1,
    @collectExtensionsToInstall Reference.util Reference.nls ReferenceSemVer.semver
      ReferenceGallery.gallery ReferenceGallery.one
      (set_trace (trace ReferenceBatch.world_three_obsolete
                    ++ @install_announcements Reference.util [ReferenceGallery.one])
         ReferenceBatch.world_three_obsolete)
    = (Resolved batch, w1)
    ∧ @prepareAndCollectExtensionsToInstall Reference.util Reference.nls
        ReferenceSemVer.semver ReferenceGallery.gallery ReferenceGallery.one
        ReferenceBatch.world_three_obsolete
      = (Rejected (VError (new_Error "Please restart Code before reinstalling.")),
         set_trace
           (trace (persisted {[ "pub.three-1.0.0" := true ]} w1)
              ++ @failure_reports Reference.util [ReferenceGallery.one] OBSOLETE)
           (persisted {[ "pub.three-1.0.0" := true ]} w1)).
Proof.
  assert (Hrun : ∃ batch w1,
    @collectExtensionsToInstall Reference.util Reference.nls ReferenceSemVer.semver
      ReferenceGallery.gallery ReferenceGallery.one
      (set_trace (trace ReferenceBatch.world_three_obsolete
                    ++ @install_announcements Reference.util [ReferenceGallery.one])
         ReferenceBatch.world_three_obsolete)
    = (Resolved batch, w1)
    ∧ index_of_file (obsoleteFile w1) = Some {[ "pub.three-1.0.0" := true ]}
    ∧ forallb (fun gallery =>
                 negb (marked {[ "pub.three-1.0.0" := true ]}
                         (@local_id_of Reference.util gallery))) batch = false).
  { eexists _, _. split; [vm_compute; reflexivity|]. split; vm_compute; reflexivity. }
  destruct Hrun as (batch & w1 & Hcollect & Hread & Hmarked).
  exists batch, w1. split; [exact Hcollect|].
  pose proof (@prepare_refuses_an_obsolete_batch Reference.util Reference.nls
                ReferenceSemVer.semver ReferenceGallery.gallery _ _ _ _ _
                Hcollect Hread) as Hprepare.
  cbv zeta in Hprepare. rewrite Hmarked in Hprepare. exact Hprepare.
Defined.

(** ** What a refused registry install leaves alone *)

Lemma keeps_dirs_emit (t : LocalExtensionType) (e : Effect) : keeps (dirs_of t) (emit e).
Proof. intros w. now destruct t. Qed.

Lemma keeps_settled {A X} (part : World → X) (o : Outcome A) : keeps part (settled o).
Proof. intros w. reflexivity. Qed.

Lemma keeps_dirs_scanUserExtensions `{ExtensionManagementUtil} `{ExtensionNls} `{SemVer}
    (t : LocalExtensionType) : keeps (dirs_of t) scanUserExtensions.
Proof.
  unfold scanUserExtensions. apply keeps_bind; [apply keeps_dirs_scanExtensions|].
  intros scanned. destruct (highest_of_each _); [apply keeps_ret | apply keeps_wrapError].
Qed.

Lemma keeps_dirs_getInstalled `{ExtensionManagementUtil} `{ExtensionNls} `{SemVer}
    (t : LocalExtensionType) (kind : option LocalExtensionType) :
  keeps (dirs_of t) (getInstalled kind).
Proof.
  unfold getInstalled. apply keeps_bind; [|intros; apply keeps_ret].
  apply keeps_join. destruct kind as [[]|]; cbn;
    repeat (constructor; try apply keeps_dirs_scanUserExtensions;
            try apply keeps_dirs_scanExtensions).
Qed.

Lemma keeps_dirs_onInstallExtensions `{ExtensionManagementUtil}
    (t : LocalExtensionType) (extensions : list IGalleryExtension) :
  keeps (dirs_of t) (onInstallExtensions extensions).
Proof.
  intros w. rewrite onInstallExtensions_run. now destruct t.
Qed.

Lemma keeps_dirs_onDidInstallExtensions `{ExtensionManagementUtil} {A}
    (t : LocalExtensionType) (extensions : list IGalleryExtension) (code : ErrorCode)
    (error : option Value) :
  keeps (dirs_of t) (@onDidInstallExtensions _ A extensions None (Some code) error).
Proof.
  intros w. unfold onDidInstallExtensions, bind. rewrite fire_onDidInstall_code.
  destruct error as [e|]; [destruct (Value_truthy e)|]; now destruct t.
Qed.

Lemma keeps_dirs_prepare
    `{ExtensionManagementUtil} `{ExtensionNls} `{SemVer} `{IExtensionGalleryService}
    (t : LocalExtensionType) (extension : IGalleryExtension) :
  keeps (dirs_of t) (prepareAndCollectExtensionsToInstall extension).
Proof.
  unfold prepareAndCollectExtensionsToInstall.
  apply keeps_bind; [apply keeps_dirs_onInstallExtensions | intros _].
  apply keeps_then2.
  - unfold collectExtensionsToInstall, filterDependenciesToInstall.
    apply keeps_bind; [apply keeps_settled | intros target].
    apply keeps_bind; [apply keeps_settled | intros deps].
    apply keeps_bind; [|intros; apply keeps_ret].
    apply keeps_bind; [apply keeps_dirs_getInstalled | intros; apply keeps_ret].
  - intros batch. apply keeps_then2.
    + unfold checkForObsolete, filterObsolete.
      apply keeps_bind; [apply keeps_dirs_withObsoleteExtensions | intros found].
      destruct (Nat.eqb _ _); [apply keeps_ret | apply keeps_wrapError].
    + intros batch'. apply keeps_bind; [|intros; apply keeps_ret].
      destruct (Nat.ltb _ _); [apply keeps_dirs_onInstallExtensions | apply keeps_ret].
    + intros error. apply keeps_dirs_onDidInstallExtensions.
  - intros error. apply keeps_dirs_onDidInstallExtensions.
Qed.

(** X21.  Up to the downloads a registry install touches no extension
    directory, neither of the user root nor of the system root; and when
    the preparation is rejected (the registry fails, the installed
    extensions cannot be listed, or a member of the batch is obsolete)
    the install as a whole is rejected with the same error, there and
    then. *)
Theorem refused_registry_install_touches_no_directory
    `{ExtensionManagementUtil} `{ExtensionNls} `{SemVer} `{IExtensionGalleryService}
    (extension : IGalleryExtension) (w : World) :
  let prepared := prepareAndCollectExtensionsToInstall extension w in
  userExtensions prepared.2 = userExtensions w
  ∧ systemExtensions prepared.2 = systemExtensions w
  ∧ ∀ reason, prepared.1 = Rejected reason →
              installFromGallery extension w = (Rejected reason, prepared.2).
Proof.
  intros prepared. split; [exact (keeps_dirs_prepare User extension w)|].
  split; [exact (keeps_dirs_prepare System extension w)|].
  intros reason Hrejected. unfold installFromGallery, bind. fold prepared.
  destruct prepared as [o w1]. cbn in Hrejected. now subst o.
Qed.

Lemma refused_registry_install_touches_no_directory_witness :
  ∃ reason w1,
    @prepareAndCollectExtensionsToInstall Reference.util Reference.nls
      ReferenceSemVer.semver ReferenceGallery.gallery ReferenceGallery.one
      ReferenceBatch.world_three_obsolete = (Rejected reason, w1)
    ∧ @installFromGallery Reference.util Reference.nls ReferenceSemVer.semver
        ReferenceGallery.gallery ReferenceGallery.one ReferenceBatch.world_three_obsolete
      = (Rejected reason, w1)
    ∧ userExtensions w1 = userExtensions ReferenceBatch.world_three_obsolete.
Proof.
  assert (Hrun : ∃ reason w1,
    @prepareAndCollectExtensionsToInstall Reference.util Reference.nls
      ReferenceSemVer.semver ReferenceGallery.gallery ReferenceGallery.one
      ReferenceBatch.world_three_obsolete = (Rejected reason, w1))
    by (eexists _, _; vm_compute; reflexivity).
  destruct Hrun as (reason & w1 & Hrun). exists reason, w1. split; [exact Hrun|].
  pose proof (@refused_registry_install_touches_no_directory Reference.util Reference.nls
                ReferenceSemVer.semver ReferenceGallery.gallery ReferenceGallery.one
                ReferenceBatch.world_three_obsolete) as Hall.
  cbv zeta in Hall. rewrite Hrun in Hall. destruct Hall as (Huser & _ & Hrejected).
  split; [exact (Hrejected reason eq_refl) | exact Huser].
Defined.

(** ** The entry point of an uninstall *)

(** X22.  An uninstall starts with the removal of the outdated folders,
    and stops there when the outdated folders cannot be told: with a
    readable index and a scan of the folders that is rejected (a version
    that [semver] does not accept), the uninstall is rejected with that
    error, nothing is announced and no directory is removed. *)
Theorem uninstall_stops_at_an_invalid_version
    `{ExtensionManagementUtil} `{ExtensionNls} `{SemVer} `{IChoiceService}
    `{LocalExtensionIdParser}
    (extension : ILocalExtension) (force : bool) (w w1 : World) (obsolete : Obsolete)
    (reason : Value) :
  index_of_file (obsoleteFile w) = Some obsolete →
  getOutdatedExtensionIds w = (Rejected reason, w1) →
  uninstall extension force w = (Rejected reason, persisted obsolete w)
  ∧ userExtensions (uninstall extension force w).2 = userExtensions w
  ∧ effects_since w (uninstall extension force w).2
      [persist_effect (obsoletePath w) obsolete].
Proof.
  intros Hread Hout.
  pose proof (getOutdatedExtensionIds_rejected w w1 obsolete reason Hread Hout) as ->.
  assert (Hrun : uninstall extension force w = (Rejected reason, persisted obsolete w)).
  { unfold uninstall. unfold bind at 1. unfold removeOutdatedExtensions. unfold bind at 1.
    now rewrite Hout. }
  rewrite Hrun. split; [reflexivity|]. split; reflexivity.
Qed.


Lemma uninstall_stops_at_an_invalid_version_witness :
  ∃ reason,
    @uninstall Reference.util Reference.nls ReferenceSemVer.semver
      ReferenceChoice.cancels ReferenceParser.parser ReferenceInvalid.a true
      ReferenceInvalid.world_invalid_version
    = (Rejected reason, persisted ∅ ReferenceInvalid.world_invalid_version)
    ∧ userExtensions
        (@uninstall Reference.util Reference.nls ReferenceSemVer.semver
           ReferenceChoice.cancels ReferenceParser.parser ReferenceInvalid.a true
           ReferenceInvalid.world_invalid_version).2
      = userExtensions ReferenceInvalid.world_invalid_version.
Proof.
  assert (Hout : ∃ reason w1,
    @getOutdatedExtensionIds ReferenceParser.parser ReferenceSemVer.semver
      ReferenceInvalid.world_invalid_version = (Rejected reason, w1))
    by (eexists _, _; vm_compute; reflexivity).
  destruct Hout as (reason & w1 & Hout). exists reason.
  destruct (@uninstall_stops_at_an_invalid_version Reference.util Reference.nls
              ReferenceSemVer.semver ReferenceChoice.cancels ReferenceParser.parser
              ReferenceInvalid.a true ReferenceInvalid.world_invalid_version w1 ∅ reason
              eq_refl Hout) as (Hrun & Hdirs & _).
  split; [exact Hrun | exact Hdirs].
Defined.



